(** * node-delta: the JsonML family of the delta engine

    A shallow embedding of the JsonML side of node-delta (jml.js, tree.js,
    jmltree.js, jmlpayload.js, jmldelta.js, jmlhandler.js and the djdiff
    driver), the properties of it that the specification states, and
    further properties of the code.

    Part I gives the model, one module per source file.  Part II defines
    the notions the properties are stated with.  Part III states and proves
    the properties. *)

From Stdlib Require Import ZArith Ascii String List Lia Bool.
From Stdlib Require Import DecimalString DecimalPos.
From stdpp Require Import base option list gmap strings sorting.

Set Warnings "-register-all,-notation-incompatible-prefix".

Local Open Scope string_scope.
Local Open Scope list_scope.
Local Open Scope Z_scope.

(* ===================================================================== *)
(** * Part I.  The model                                                  *)
(* ===================================================================== *)

(** ** JavaScript values and exceptions *)

(** Values without identity: what JSON.parse yields, plus [undefined] and
    NaN.  Numbers are integers (hash values, indices, offsets): [JNum n]
    stands for the number n, which exists in JavaScript when n is an
    integer a double holds, as every n with |n| < 2^53 is.  Strings are
    byte strings, the UTF-8 bytes of the text.  An object is the list of
    its own enumerable properties in the order [for (k in o)] visits them;
    its prototype is Object.prototype. *)
Inductive jsval : Type :=
| JUndefined
| JNull
| JBool (b : bool)
| JNum (n : Z)
| JNaN
| JStr (s : string)
| JArr (items : list jsval)
| JObj (props : list (string * jsval)).

(** What a [throw] carries.  [Beyond] is no throw of the program: it
    marks a step that leaves the values above (the prototype of an object
    is replaced, or a member of Object.prototype is read as a value).  The
    program goes on there; the model stops and says nothing about it. *)
Inductive exn : Type :=
| SyntaxError (msg : string)
| TypeError (msg : string)
| Error (msg : string)
| Thrown (v : string)
| Beyond (what : string).

(** A computation that returns or throws. *)
Definition result (A : Type) : Type := exn + A.
Definition ret {A} (a : A) : result A := inr a.
Definition throw {A} (e : exn) : result A := inl e.
Definition rbind {A B} (m : result A) (k : A -> result B) : result B :=
  match m with inl e => inl e | inr a => k a end.

Declare Scope js_scope.
Notation "'let!' x ':=' m 'in' k" := (rbind m (fun x => k))
  (at level 10, x pattern, m at level 100, k at level 200) : js_scope.
Local Open Scope js_scope.

Module JS.

(** [typeof v] *)
Definition typeof (v : jsval) : string :=
  match v with
  | JUndefined => "undefined"
  | JNull | JArr _ | JObj _ => "object"
  | JBool _ => "boolean"
  | JNum _ | JNaN => "number"
  | JStr _ => "string"
  end.

(** ToBoolean *)
Definition truthy (v : jsval) : bool :=
  match v with
  | JUndefined | JNull | JNaN => false
  | JBool b => b
  | JNum n => negb (n =? 0)
  | JStr s => negb (String.eqb s "")
  | JArr _ | JObj _ => true
  end.

Definition isArray (v : jsval) : bool :=
  match v with JArr _ => true | _ => false end.

(** [o[key]] for a plain object. *)
Fixpoint lookup_prop (key : string) (props : list (string * jsval)) : jsval :=
  match props with
  | [] => JUndefined
  | (k, v) :: rest => if String.eqb k key then v else lookup_prop key rest
  end.

(** The decimal digits of a natural number. *)
Definition string_of_nat (n : nat) : string :=
  NilZero.string_of_uint (Nat.to_uint n).

(** [v[i]] for an array, a string or an object; [undefined] when there
    is no such item or property.  On [null] and [undefined] the program
    throws instead: see getTagName. *)
Definition index (v : jsval) (i : nat) : jsval :=
  match v with
  | JArr items => default JUndefined (items !! i)
  | JStr s => match String.get i s with
              | Some c => JStr (String c EmptyString)
              | None => JUndefined
              end
  | JObj props => lookup_prop (string_of_nat i) props
  | _ => JUndefined
  end.

(** [o[key] = v] for a key other than [__proto__] (see [assign]):
    overwrite in place, or add as the last own property. *)
Fixpoint set_prop (key : string) (v : jsval) (props : list (string * jsval))
  : list (string * jsval) :=
  match props with
  | [] => [(key, v)]
  | (k, w) :: rest =>
      if String.eqb k key then (k, v) :: rest else (k, w) :: set_prop key v rest
  end.

(** [key] is an own property. *)
Definition has_key (key : string) (props : list (string * jsval)) : bool :=
  existsb (fun kv => String.eqb kv.1 key) props.

(** Calling a property [hasOwnProperty] that is no function. *)
Definition not_a_function : exn :=
  TypeError "hasOwnProperty is not a function".

(** [o.hasOwnProperty(k)], with the method looked up on [o] itself: it is
    the one of Object.prototype unless [o] has an own property of that
    name, and that one is a JSON value, which cannot be called. *)
Definition hasOwnProperty (props : list (string * jsval)) (k : string)
  : result bool :=
  if has_key "hasOwnProperty" props then throw not_a_function
  else ret (has_key k props).

(** [o[key] = v] on a plain object.  The key [__proto__] is special unless
    [o] has it as an own property (JSON.parse makes it one): the setter
    that Object.prototype provides ignores a primitive value, and makes an
    object, an array or [null] the prototype of [o]. *)
Definition assign (key : string) (v : jsval) (props : list (string * jsval))
  : result (list (string * jsval)) :=
  if String.eqb key "__proto__" && negb (has_key key props) then
    match v with
    | JNull | JArr _ | JObj _ => throw (Beyond "the prototype of an object is replaced")
    | _ => ret props
    end
  else ret (set_prop key v props).

(** Decimal rendering of an integer, as [String(n)] gives it for
    |n| < 10^21; from there on JavaScript uses the exponent notation. *)
Definition string_of_Z (n : Z) : string :=
  NilZero.string_of_int (Z.to_int n).

(** [String(v)]: an array renders as its items joined by commas, with
    nothing for [undefined] and [null]. *)
Fixpoint ToString (v : jsval) : string :=
  match v with
  | JUndefined => "undefined"
  | JNull => "null"
  | JBool true => "true"
  | JBool false => "false"
  | JNum n => string_of_Z n
  | JNaN => "NaN"
  | JStr s => s
  | JArr items =>
      (fix joined (l : list jsval) : string :=
         let item (x : jsval) : string :=
           match x with JUndefined | JNull => EmptyString | _ => ToString x end in
         match l with
         | [] => EmptyString
         | x :: [] => item x
         | x :: rest => item x +:+ "," +:+ joined rest
         end) items
  | JObj _ => "[object Object]"
  end.

End JS.

(** ** jml.js: the JsonML utilities *)

Module JsonML.
Import JS.

Definition invalid : exn := SyntaxError "invalid JsonML".

(** isFragment: [isArray(jml) && jml[0] === ''] *)
Definition isFragment (jml : jsval) : bool :=
  isArray jml && match index jml 0 with
                 | JStr s => String.eqb s ""
                 | _ => false
                 end.

(** getTagName: [jml[0] || ''].  On [null] and [undefined] reading
    [jml[0]] throws a TypeError; the callers here test isElement first,
    except adaptDocument, which has that case written out. *)
Definition getTagName (jml : jsval) : jsval :=
  if truthy (index jml 0) then index jml 0 else JStr "".

(** isElement: [isArray(jml) && 'string' === typeof jml[0]] *)
Definition isElement (jml : jsval) : bool :=
  isArray jml && String.eqb (typeof (index jml 0)) "string".

(** isAttributes: [!!jml && 'object' === typeof jml && !isArray(jml)] *)
Definition isAttributes (jml : jsval) : bool :=
  truthy jml && String.eqb (typeof jml) "object" && negb (isArray jml).

Definition hasAttributes (jml : jsval) : result bool :=
  if negb (isElement jml) then throw invalid
  else ret (isAttributes (index jml 1)).

(** getAttributes(jml, false): the attribute object or [undefined]. *)
Definition getAttributes (jml : jsval) : result jsval :=
  let! has := hasAttributes jml in
  if has then ret (index jml 1) else ret JUndefined.

(** eachAttribute: the (key, value) pairs handed to the callback, in the
    order [for (k in attrs)] enumerates the properties; each round first
    calls [attrs.hasOwnProperty(k)].  That call either throws in the first
    round or in none, so no callback has run when it throws. *)
Definition eachAttribute (jml : jsval) : result (list (string * jsval)) :=
  let! attrs := getAttributes jml in
  match attrs with
  | JObj props =>
      (fix each (l : list (string * jsval)) : result (list (string * jsval)) :=
         match l with
         | [] => ret []
         | (k, v) :: rest =>
             let! own := hasOwnProperty props k in
             let! more := each rest in
             ret (if own then (k, v) :: more else more)
         end) props
  | _ => ret []
  end.

(** getAttribute(jml, key) *)
Definition getAttribute (jml : jsval) (key : string) : result jsval :=
  let! has := hasAttributes jml in
  if negb has then ret JUndefined
  else match index jml 1 with
       | JObj props => ret (lookup_prop key props)
       | _ => ret JUndefined
       end.

(** addAttributes(jml, attr), on the items of the array [jml]; the array is
    updated in place, so the new items are returned. *)
Definition addAttributes (jml : list jsval) (attr : jsval)
  : result (list jsval) :=
  if negb (isElement (JArr jml)) || negb (isAttributes attr) then throw invalid
  else
    match index (JArr jml) 1, attr with
    | JObj old, JObj new =>
        (* merge attribute objects:
           for (key in attr) if (attr.hasOwnProperty(key)) old[key] = attr[key] *)
        let! merged :=
          fold_left (fun o kv =>
                       let! o := o in
                       let! own := hasOwnProperty new kv.1 in
                       if own then assign kv.1 kv.2 o else ret o)
                    new (ret old) in
        ret (take 1 jml ++ JObj merged :: drop 2 jml)
    | _, _ =>
        (* just insert attributes: name = shift(); unshift(attr); unshift(name||'') *)
        let name := index (JArr jml) 0 in
        ret ((if truthy name then name else JStr "") :: attr :: drop 1 jml)
    end.

(** [JsonML.isRaw] is called by appendChild but this module never defines
    it: the call itself throws. *)
Definition isRaw (child : jsval) : result bool :=
  throw (TypeError "JsonML.isRaw is not a function").

(** The text branch of appendChild, [child] already converted to a string. *)
Definition appendText (parent : list jsval) (child : string) : list jsval :=
  if negb (String.eqb child "") && (1 <? Z.of_nat (length parent))
     && String.eqb (typeof (default JUndefined (last parent))) "string"
  then
    (* combine strings: parent[parent.length-1] += child *)
    match last parent with
    | Some (JStr s) => removelast parent ++ [JStr (s +:+ child)]
    | _ => parent
    end
  else if negb (String.eqb child "") || (length parent =? 0)%nat
  then parent ++ [JStr child]
  else parent.

(** appendChild(parent, child) without an onAppend callback, on the items
    of the array [parent].  The array is mutated in place: the function
    returns its items when the call ends, and the exception if it ended by
    a throw (a fragment may have been appended in part by then). *)
Fixpoint appendChild (parent : list jsval) (child : jsval) {struct child}
  : list jsval * option exn :=
  match child with
  | JArr items =>
      match items with
      | JStr EmptyString :: rest =>
          (* a fragment: child.shift(), then append each remaining item *)
          (fix each (cs : list jsval) (p : list jsval) {struct cs}
             : list jsval * option exn :=
             match cs with
             | [] => (p, None)
             | c :: cs' =>
                 match appendChild p c with
                 | (p', None) => each cs' p'
                 | thrown => thrown
                 end
             end) rest parent
      | _ =>
          if negb (isElement child) then (parent, Some invalid)
          else (parent ++ [child], None)
      end
  | JObj _ =>
      match isRaw child with
      | inl e => (parent, Some e)
      | inr true => (parent ++ [child], None)
      | inr false =>
          match addAttributes parent child with
          | inl e => (parent, Some e)
          | inr parent' => (parent', None)
          end
      end
  | JUndefined | JNull => (parent, None)
  | JBool _ | JNum _ | JNaN | JStr _ => (appendText parent (ToString child), None)
  end.

(** appendChild on any value as parent: a parent that is no array throws. *)
Definition appendChild_val (parent child : jsval) : jsval * option exn :=
  match parent with
  | JArr items => let (items', e) := appendChild items child in (JArr items', e)
  | _ => (parent, Some invalid)
  end.

(** appendChildren: [children.forEach(child => appendChild(jml, child))] *)
Fixpoint appendChildren (jml : list jsval) (children : list jsval)
  : list jsval * option exn :=
  match children with
  | [] => (jml, None)
  | c :: cs =>
      match appendChild jml c with
      | (jml', None) => appendChildren jml' cs
      | thrown => thrown
      end
  end.

(** getChildren: [jml.slice(2)] when there are attributes, else [jml.slice(1)] *)
Definition getChildren (jml : jsval) : result (list jsval) :=
  let! has := hasAttributes jml in
  match jml with
  | JArr items => ret (drop (if has then 2 else 1)%nat items)
  | _ => ret []
  end.

(** setAttribute(jml, key, value): [getAttributes(jml, true)[key] = value],
    on the items of the array [jml].  An element without attributes first
    gets a new attribute object: name = shift(); unshift(attr);
    unshift(name||''). *)
Definition setAttribute (jml : list jsval) (key : string) (value : jsval)
  : result (list jsval) :=
  let! has := hasAttributes (JArr jml) in
  if has then
    match index (JArr jml) 1 with
    | JObj props =>
        let! props := assign key value props in
        ret (take 1 jml ++ JObj props :: drop 2 jml)
    | _ => ret jml
    end
  else
    let name := index (JArr jml) 0 in
    let! attr := assign key value [] in
    ret ((if truthy name then name else JStr "") :: JObj attr :: drop 1 jml).

(** eachChild(jml, callback): the children handed to the callback, in
    order. *)
Definition eachChild (jml : jsval) : result (list jsval) :=
  if negb (isElement jml) then throw invalid
  else
    let! has := hasAttributes jml in
    match jml with
    | JArr items => ret (drop (if has then 2 else 1)%nat items)
    | _ => ret []
    end.

(** clone(jml, deep).  An element is an array whose first item is a
    string; its children are the items eachChild visits.  [cloned] is a new
    array, so a throw of appendChild loses nothing but the clone. *)
Fixpoint clone (jml : jsval) (deep : bool) {struct jml} : result jsval :=
  match jml with
  | JArr (JStr _ :: rest) =>
      let cloned := [getTagName jml] in
      let! attrs := eachAttribute jml in
      let! cloned :=
        fold_left (fun acc kv =>
                     let! cloned := acc in setAttribute cloned kv.1 kv.2)
                  attrs (ret cloned) in
      if deep then
        let children :=
          match rest with
          | x :: rest' => if isAttributes x then rest' else rest
          | [] => rest
          end in
        (fix each (cs : list jsval) (cloned : list jsval) {struct cs}
           : result jsval :=
           match cs with
           | [] => ret (JArr cloned)
           | child :: cs' =>
               let! c := clone child deep in
               match appendChild cloned c with
               | (cloned', None) => each cs' cloned'
               | (_, Some e) => throw e
               end
           end) children cloned
      else ret (JArr cloned)
  | _ => ret (JStr (ToString jml))
  end.

End JsonML.

(** What jmltree.js and tree.js use of a hash object: [new H()],
    [update(v)] and [get()]. *)
Class HashAlgorithm : Type := {
  hstate : Type;
  hnew : hstate;
  hupdate : hstate -> jsval -> hstate;
  hget : hstate -> Z
}.

(** ** tree.js: nodes, matchings and the document order index *)

Module tree.

(** *** Node objects

    A [tree.Node] is a mutable object with back pointers.  Node objects live
    in a store; a reference to a node is the index of its cell. *)
Record Node : Type := mkNode {
  value : jsval;
  data : jsval;
  depth : nat;
  par : option nat;
  childidx : option nat;
  children : list nat
}.

Abbreviation store := (list Node).

Definition set_depth (d : nat) (n : Node) : Node :=
  mkNode (value n) (data n) d (par n) (childidx n) (children n).
Definition set_par (p : nat) (n : Node) : Node :=
  mkNode (value n) (data n) (depth n) (Some p) (childidx n) (children n).
Definition set_childidx (i : nat) (n : Node) : Node :=
  mkNode (value n) (data n) (depth n) (par n) (Some i) (children n).
Definition push_child (c : nat) (n : Node) : Node :=
  mkNode (value n) (data n) (depth n) (par n) (childidx n) (children n ++ [c]).

(** [new Node(value, data)]: depth 0, no parent, no children. *)
Definition new_Node (v d : jsval) (s : store) : nat * store :=
  (length s, s ++ [mkNode v d 0%nat None None []]).

Definition already_parented : exn :=
  Error "Cannot append a child which already has a parent".

(** [this.append(child)], one assignment of the source per store update
    (so that [this] and [child] may be the same object). *)
Definition append (this child : nat) (s : store) : result store :=
  match s !! this, s !! child with
  | Some _, Some c =>
      if bool_decide (is_Some (par c)) then throw already_parented
      else
        (* child.depth = this.depth + 1 *)
        let s1 := alter (set_depth (from_option depth 0%nat (s !! this) + 1)) child s in
        (* child.par = this *)
        let s2 := alter (set_par this) child s1 in
        (* child.childidx = this.children.length *)
        let s3 := alter (set_childidx
                           (length (from_option children [] (s2 !! this)))) child s2 in
        (* this.children.push(child) *)
        ret (alter (push_child child) this s3)
  | _, _ => throw (TypeError "not a tree.Node")
  end.

(** *** Matching: the partner links written into the nodes *)

Module Matching.

(** The [partner] property of every node object: node reference to partner
    reference, absent while the property is unset. *)
Abbreviation t := (gmap nat nat).

Definition already_matched : exn :=
  Error "Cannot associate objects which are already part of a matching".

(** get(obj): [obj && obj[this.propname]] *)
Definition get (m : t) (obj : option nat) : option nat :=
  match obj with
  | Some o => m !! o
  | None => None
  end.

(** put(a, b) *)
Definition put (a b : nat) (m : t) : result t :=
  if bool_decide (is_Some (m !! a)) || bool_decide (is_Some (m !! b))
  then throw already_matched
  else ret (<[b := a]> (<[a := b]> m)).

End Matching.

(** *** Trees as they stand once built

    The traversals and the indexes read a tree that is no longer mutated:
    a node with the identity of its object, its payload and its children in
    stored order. *)
Inductive Tree (D : Type) : Type :=
| TNode (id : nat) (tdata : D) (tchildren : list (Tree D)).
Arguments TNode {D} id tdata tchildren.

Definition id {D} (t : Tree D) : nat := match t with TNode i _ _ => i end.
Definition tdata {D} (t : Tree D) : D := match t with TNode _ d _ => d end.
Definition tchildren {D} (t : Tree D) : list (Tree D) :=
  match t with TNode _ _ cs => cs end.

(** Object identity, [a === b]. *)
Definition same {D} (a b : Tree D) : bool := (id a =? id b)%nat.

(** Node.prototype.forEach(callback): the node, then each child's subtree,
    in stored order; the callback threads the state [S] it mutates. *)
Fixpoint forEach {D S} (callback : Tree D -> S -> S) (t : Tree D) (s : S) : S :=
  match t with
  | TNode _ _ cs => fold_left (fun s c => forEach callback c s) cs (callback t s)
  end.

(** Node.prototype.forEachPostorder(callback): each child's subtree, then
    the node. *)
Fixpoint forEachPostorder {D S} (callback : Tree D -> S -> S) (t : Tree D)
  (s : S) : S :=
  match t with
  | TNode _ _ cs =>
      callback t (fold_left (fun s c => forEachPostorder callback c s) cs s)
  end.

(** Node.prototype.forEachDescendant(callback): forEach on every child. *)
Definition forEachDescendant {D S} (callback : Tree D -> S -> S) (t : Tree D)
  (s : S) : S :=
  fold_left (fun s c => forEach callback c s) (tchildren t) s.

Module DocumentOrderIndex.

(** The [docorderidx] property cached on the node objects. *)
Abbreviation props := (gmap nat nat).

Section DocumentOrderIndex.
Context {D : Type}.

Record t : Type := mk {
  root : Tree D;
  idxcomplete : bool;
  nodes : list (Tree D)
}.

(** [new DocumentOrderIndex(root)] *)
Definition new (r : Tree D) : t := mk r false [].

(** buildAll() *)
Definition buildAll (ix : t) (p : props) : t * props :=
  if idxcomplete ix then (ix, p)
  else
    let '(ns, p') :=
      forEach (fun node '(ns, p) => (ns ++ [node], <[id node := length ns]> p))
              (root ix) (nodes ix, p) in
    (mk (root ix) true ns, p').

Definition corrupt : exn := Error "Document order index corrupt".
Definition not_implemented : exn :=
  Error "Dynamic index expansion not implemented yet".

(** get(refnode, offset); the offset may be left out ([offset || 0]), and
    the result [None] stands for [undefined]. *)
Definition get (ix : t) (p : props) (refnode : Tree D) (offset : option Z)
  : result (option (Tree D)) :=
  let offset := default 0 offset in
  let beyond : result (option (Tree D)) :=
    if idxcomplete ix then ret None else throw not_implemented in
  match p !! id refnode with
  | Some refindex =>
      if negb (from_option (same refnode) false (nodes ix !! refindex))
      then throw corrupt
      else if Z.of_nat refindex + offset <? 0 then ret None
      else if Z.of_nat refindex + offset <? Z.of_nat (length (nodes ix))
      then ret (nodes ix !! Z.to_nat (Z.of_nat refindex + offset))
      else beyond
  | None => beyond
  end.

(** flatten(refnode): the subtree's nodes in document order. *)
Definition flatten (refnode : Tree D) : list (Tree D) :=
  forEach (fun n result => result ++ [n]) refnode [].

(** size(refnode): [i++] for every node forEach reaches. *)
Definition size (refnode : Tree D) : nat :=
  forEach (fun n i => S i) refnode 0%nat.

End DocumentOrderIndex.
Arguments t D : clear implicits.
End DocumentOrderIndex.

(** *** GenerationIndex *)

Module GenerationIndex.

(** The [gencacheidx] property cached on the node objects. *)
Abbreviation props := (gmap nat nat).

(** [a[i] = v] on an array: an index at or past the end extends it, with
    holes in between. *)
Definition assign {A} (i : nat) (v : A) (a : list (option A)) : list (option A) :=
  if (i <? length a)%nat then <[i := Some v]> a
  else a ++ replicate (i - length a) None ++ [Some v].

Section GenerationIndex.
Context {D : Type}.

(** The [depth] field of a node object. *)
Variable node_depth : Tree D -> nat.

Record t : Type := mk {
  root : Tree D;
  generations : list (list (Tree D));
  gencomplete : list (option bool);
  idxcomplete : bool
}.

(** [new GenerationIndex(root)] *)
Definition new (r : Tree D) : t := mk r [] [] false.

Definition corrupt : exn := Error "GenerationIndex index corrupt".
Definition not_implemented : exn :=
  Error "Dynamic index expansion not implemented yet".
(** Reading [length] or an item off [this.generations[depth]] when there
    is no such generation. *)
Definition no_generation : exn :=
  TypeError "Cannot read properties of undefined".

(** [this.generations[depth]] and [this.gencomplete[depth]] for a number
    [depth]; a hole reads as [undefined]. *)
Definition generation_at (ix : t) (depth : Z) : option (list (Tree D)) :=
  if depth <? 0 then None else generations ix !! Z.to_nat depth.

Definition gencomplete_at (ix : t) (depth : Z) : bool :=
  if depth <? 0 then false
  else default false (mjoin (gencomplete ix !! Z.to_nat depth)).

(** [node.depth - this.root.depth] *)
Definition relative_depth (ix : t) (node : Tree D) : Z :=
  Z.of_nat (node_depth node) - Z.of_nat (node_depth (root ix)).

(** buildSubtree(node): the index and the cached properties when the call
    ends, and the exception if it ended by a throw. *)
Fixpoint buildSubtree (node : Tree D) (st : t * props) {struct node}
  : (t * props) * option exn :=
  match node with
  | TNode _ _ cs =>
      let '(ix, p) := st in
      let depth := relative_depth ix node in
      (* Prepare generation structure *)
      let ix :=
        if Z.of_nat (length (generations ix)) =? depth
        then mk (root ix) (generations ix ++ [[]])
                (assign (Z.to_nat depth) true (gencomplete ix)) (idxcomplete ix)
        else ix in
      (* Append current node *)
      match generation_at ix depth with
      | None => ((ix, p), Some no_generation)
      | Some generation =>
          let p := <[id node := length generation]> p in
          let ix := mk (root ix)
                       (<[Z.to_nat depth := (generation ++ [node])]> (generations ix))
                       (gencomplete ix) (idxcomplete ix) in
          (* Recurse for children *)
          (fix each (cs : list (Tree D)) (st : t * props) {struct cs}
             : (t * props) * option exn :=
             match cs with
             | [] => (st, None)
             | c :: cs' =>
                 match buildSubtree c st with
                 | (st', None) => each cs' st'
                 | thrown => thrown
                 end
             end) cs (ix, p)
      end
  end.

(** buildAll() *)
Definition buildAll (ix : t) (p : props) : (t * props) * option exn :=
  if idxcomplete ix then ((ix, p), None)
  else
    match buildSubtree (root ix) (ix, p) with
    | ((ix, p), None) =>
        let complete :=
          fold_left (fun gc i => assign i true gc)
                    (seq 0 (length (generations ix))) (gencomplete ix) in
        ((mk (root ix) (generations ix) complete true, p), None)
    | thrown => thrown
    end.

(** What the lookups do past the indexed part. *)
Definition beyond (ix : t) : result (option (Tree D)) :=
  if idxcomplete ix then ret None else throw not_implemented.

(** first(depth); [None] stands for [undefined]. *)
Definition first (ix : t) (depth : Z) : result (option (Tree D)) :=
  if depth <? Z.of_nat (length (generations ix)) then
    match generation_at ix depth with
    | None => throw no_generation
    | Some generation =>
        if (0 <? length generation)%nat then ret (generation !! 0%nat)
        else if gencomplete_at ix depth then ret None
        else beyond ix
    end
  else beyond ix.

(** last(depth) *)
Definition last (ix : t) (depth : Z) : result (option (Tree D)) :=
  if (depth <? Z.of_nat (length (generations ix))) && gencomplete_at ix depth
  then
    match generation_at ix depth with
    | None => throw no_generation
    | Some generation => ret (list.last generation)
    end
  else beyond ix.

(** get(refnode, offset); the offset may be left out. *)
Definition get (ix : t) (p : props) (refnode : Tree D) (offset : option Z)
  : result (option (Tree D)) :=
  let offset := default 0 offset in
  if same refnode (root ix) then
    (* Return the root node if refnode is equal to the tree root. *)
    if offset =? 0 then ret (Some refnode) else ret None
  else
    let depth := relative_depth ix refnode in
    if depth <? Z.of_nat (length (generations ix)) then
      match p !! id refnode with
      | Some refindex =>
          match generation_at ix depth with
          | None => throw no_generation
          | Some generation =>
              if negb (from_option (same refnode) false (generation !! refindex))
              then throw corrupt
              else if Z.of_nat refindex + offset <? 0 then ret None
              else if Z.of_nat refindex + offset <? Z.of_nat (length generation)
              then ret (generation !! Z.to_nat (Z.of_nat refindex + offset))
              else if gencomplete_at ix depth then ret None
              else beyond ix
          end
      | None => beyond ix
      end
    else beyond ix.

End GenerationIndex.
Arguments t D : clear implicits.
End GenerationIndex.

(** *** NodeHashIndex, TreeHashIndex and SimpleTreeHash *)

(** The hash value cached on the node objects ([nodehash], [treehash]). *)
Abbreviation hashcache := (gmap nat Z).

Module NodeHashIndex.
Section NodeHashIndex.
Context {D : Type}.

(** [this.nodehash.process(node)] *)
Variable process : Tree D -> result Z.

(** get(node): the hash, computed and cached at the first call; [None]
    stands for [undefined]. *)
Definition get (cache : hashcache) (node : option (Tree D))
  : result (option Z * hashcache) :=
  match node with
  | None => ret (None, cache)
  | Some n =>
      match cache !! id n with
      | Some h => ret (Some h, cache)
      | None =>
          let! h := process n in
          ret (Some h, <[id n := h]> cache)
      end
  end.

End NodeHashIndex.
End NodeHashIndex.

Module SimpleTreeHash.
Section SimpleTreeHash.
Context {HashAlgorithm : HashAlgorithm} {D : Type}.

(** The node hash of [this.nodehashindex]. *)
Variable nodehash : Tree D -> result Z.

(** process(node, hash): every node hash of the subtree goes into one
    hash object, in document order.  A throw of the node hash ends the
    traversal. *)
Definition process (node : Tree D) (hash : option hstate) (cache : hashcache)
  : result (Z * hashcache) :=
  let hash := default hnew hash in
  let! (hash, cache) :=
    forEach (fun n acc =>
               let! (hash, cache) := acc in
               let! (h, cache) := NodeHashIndex.get nodehash cache (Some n) in
               ret (hupdate hash (from_option JNum JUndefined h), cache))
            node (ret (hash, cache)) in
  ret (hget hash, cache).

End SimpleTreeHash.
End SimpleTreeHash.

Module TreeHashIndex.
Section TreeHashIndex.
Context {D S : Type}.

(** [this.treehash.process(node)], which may update what it caches. *)
Variable process : Tree D -> S -> result (Z * S).

(** get(node) *)
Definition get (cache : hashcache) (node : option (Tree D)) (s : S)
  : result (option Z * hashcache * S) :=
  match node with
  | None => ret (None, cache, s)
  | Some n =>
      match cache !! id n with
      | Some h => ret (Some h, cache, s)
      | None =>
          let! (h, s) := process n s in
          ret (Some h, <[id n := h]> cache, s)
      end
  end.

End TreeHashIndex.
End TreeHashIndex.

(** *** Anchor *)

Record Anchor (D : Type) : Type := mkAnchor {
  base : option (Tree D);
  target : option (Tree D);
  index : option nat
}.
Arguments mkAnchor {D} base target index.
Arguments base {D} a.
Arguments target {D} a.
Arguments index {D} a.

(** The back pointers [par] and [childidx] of the node with identity [i],
    read off the tree it belongs to. *)
Fixpoint find_parent {D} (t : Tree D) (i : nat) : option (Tree D * nat) :=
  match t with
  | TNode _ _ cs =>
      match list_find (fun c => id c = i) cs with
      | Some (k, _) => Some (t, k)
      | None =>
          (fix each (l : list (Tree D)) : option (Tree D * nat) :=
             match l with
             | [] => None
             | c :: rest =>
                 match find_parent c i with
                 | Some found => Some found
                 | None => each rest
                 end
             end) cs
      end
  end.

(** [new Anchor(root, base, index)] *)
Definition new_Anchor {D} (root base : option (Tree D)) (index : option nat)
  : result (Anchor D) :=
  match root with
  | None => throw (Error "Parameter error: need a reference to the tree root")
  | Some root =>
      match base, index with
      | None, _ => ret (mkAnchor None (Some root) None)
      | Some b, None =>
          if same root b then ret (mkAnchor None (Some root) None)
          else ret (mkAnchor (fst <$> find_parent root (id b)) (Some b)
                             (snd <$> find_parent root (id b)))
      | Some b, Some i => ret (mkAnchor (Some b) (tchildren b !! i) (Some i))
      end
  end.

End tree.

(** ** fnv132.js: the hash primitive *)

Module fnv132.

(** Modelled from the spec: the offset and the prime of the 32-bit FNV-1a
    (4.C; lib/delta/fnv132.js is not part of the sources at hand). *)
Definition offset_basis : Z := 0x811C9DC5.
Definition prime : Z := 0x01000193.

(** Modelled from the spec: one byte of FNV-1a, xor then multiply, in 32
    bits. *)
Definition step (h : Z) (b : ascii) : Z :=
  (Z.lxor h (Z.of_nat (nat_of_ascii b)) * prime) mod 2 ^ 32.

(** Modelled from the spec: a byte sequence consumed incrementally. *)
Definition update_bytes (h : Z) (bytes : string) : Z :=
  fold_left step (list_ascii_of_string bytes) h.

(** Modelled from the spec: the four bytes of a 32-bit hash value.  The
    spec hashes the concatenation of node hashes (4.C) without giving the
    byte order; the most significant byte comes first here, as in the
    prefixes of the node hash protocol. *)
Definition word_bytes (n : Z) : string :=
  let byte (k : Z) := ascii_of_nat (Z.to_nat ((n / 2 ^ (8 * k)) mod 256)) in
  String (byte 3) (String (byte 2) (String (byte 1) (String (byte 0) EmptyString))).

(** Modelled from the spec: fnv132.Hash, with [new()], [update(bytes)] and
    [get()].  Strings are fed as their bytes and numbers, which are the
    node hashes of a subtree, as their four bytes.  The spec gives no
    bytes for other values: they feed nothing here. *)
#[export] Instance Hash : HashAlgorithm := {|
  hstate := Z;
  hnew := offset_basis;
  hupdate h v := match v with
                 | JStr s => update_bytes h s
                 | JNum n => update_bytes h (word_bytes n)
                 | _ => h
                 end;
  hget h := h
|}.

(** Modelled from the spec: FNV-1a of a byte string. *)
Definition fnv1a (bytes : string) : Z := update_bytes offset_basis bytes.

End fnv132.

(** ** jmltree.js: the JsonML node hash *)

Module jmltree.
Import JS JsonML.

(** [keys.sort()]: without a comparator the strings are ordered by their
    UTF-16 code units.  For keys without characters beyond the Basic
    Multilingual Plane (no byte from 240 on in their UTF-8 form) that is
    the order of the byte strings, which is the order used here. *)
Definition sort (keys : list string) : list string := merge_sort String.le keys.

(** mapjml(node, callback, presult): the callback on the node, then on
    every child of an element with the result of its parent.  The callback
    works on a state [S]; a throw ends the traversal. *)
Fixpoint mapjml {R S} (callback : jsval -> option R -> S -> result (R * S))
  (node : jsval) (presult : option R) (s : S) {struct node} : result (R * S) :=
  let! (res, s) := callback node presult s in
  match node with
  | JArr (JStr _ :: rest) =>
      let children :=
        match rest with
        | x :: rest' => if isAttributes x then rest' else rest
        | [] => rest
        end in
      let! s :=
        (fix each (cs : list jsval) (s : S) {struct cs} : result S :=
           match cs with
           | [] => ret s
           | child :: cs' =>
               let! (_, s) := mapjml callback child (Some res) s in
               each cs' s
           end) children s in
      ret (res, s)
  | _ => ret (res, s)
  end.

Module JMLTreeAdapter.

(** The callback of adapt: a new tree.Node for the JsonML node, appended
    to the wrapper of the parent if there is one. *)
Definition wrap (node : jsval) (wrappedParent : option nat) (s : tree.store)
  : result (nat * tree.store) :=
  let content := if isElement node then getTagName node else node in
  let '(wrappedNode, s) := tree.new_Node content node s in
  match wrappedParent with
  | Some parent =>
      let! s := tree.append parent wrappedNode s in
      ret (wrappedNode, s)
  | None => ret (wrappedNode, s)
  end.

(** adapt(element): the top-level wrapper and the store of node objects. *)
Definition adapt (element : jsval) (s : tree.store) : result (nat * tree.store) :=
  mapjml wrap element None s.

End JMLTreeAdapter.

Module JMLNodeHash.
Section JMLNodeHash.
Context {HashAlgorithm : HashAlgorithm}.

Definition ELEMENT_PREFIX : string :=
  String "000" (String "000" (String "000" (String "001" EmptyString))).
Definition ATTRIBUTE_PREFIX : string :=
  String "000" (String "000" (String "000" (String "002" EmptyString))).
Definition TEXT_PREFIX : string :=
  String "000" (String "000" (String "000" (String "003" EmptyString))).
Definition SEPARATOR : string := String "000" (String "000" EmptyString).

Definition processAttribute (qn : string) (v : jsval) (hash : hstate) : hstate :=
  let hash := hupdate hash (JStr ATTRIBUTE_PREFIX) in
  let hash := hupdate hash (JStr qn) in
  let hash := hupdate hash (JStr SEPARATOR) in
  hupdate hash v.

Definition processElement (jmlnode : jsval) (hash : hstate) : result hstate :=
  (* Process tag *)
  let hash := hupdate hash (JStr ELEMENT_PREFIX) in
  let hash := hupdate hash (getTagName jmlnode) in
  let hash := hupdate hash (JStr SEPARATOR) in
  (* Process attributes *)
  let! has := hasAttributes jmlnode in
  if has then
    let! attrs := eachAttribute jmlnode in
    (* attrqns.unshift(key); attrnodes[key] = value *)
    let attrqns := fold_left (fun qns kv => kv.1 :: qns) attrs [] in
    let! attrnodes :=
      fold_left (fun o kv => let! o := o in assign kv.1 kv.2 o) attrs (ret []) in
    let attrqns := sort attrqns in
    (* attrnodes[qn]: every key was assigned, but [__proto__] with a
       primitive value is no own property and reads as Object.prototype *)
    fold_left (fun h qn =>
                 let! h := h in
                 if has_key qn attrnodes
                 then ret (processAttribute qn (lookup_prop qn attrnodes) h)
                 else throw (Beyond "a member of Object.prototype is read"))
              attrqns (ret hash)
  else ret hash.

Definition processText (jmlnode : jsval) (hash : hstate) : hstate :=
  let hash := hupdate hash (JStr TEXT_PREFIX) in
  hupdate hash jmlnode.

(** process(node, hash), on [node.data]; [hash || new this.HashAlgorithm()]. *)
Definition process (jmlnode : jsval) (hash : option hstate) : result Z :=
  let hash := default hnew hash in
  if isElement jmlnode then
    let! hash := processElement jmlnode hash in ret (hget hash)
  else ret (hget (processText jmlnode hash)).

End JMLNodeHash.
End JMLNodeHash.

End jmltree.

(** ** jmlpayload.js: the payload handler and the fragment adapter *)

Module jmlpayload.
Import JS JsonML.

Module JMLPayloadHandler.

(** createDocument() of [new JMLPayloadHandler(defaultRootTag)] *)
Definition createDocument (defaultRootTag : option string) : jsval :=
  JArr [JStr (default "html" defaultRootTag)].

End JMLPayloadHandler.

Module JMLFragmentAdapter.

(** adapt(doc, nodes, deep), on the [data] of the nodes: every clone is
    handed to appendChild on one result array. *)
Definition adapt (nodes : list jsval) (deep : bool) : result (list jsval) :=
  fold_left (fun acc data =>
               let! res := acc in
               let! cloned := clone data deep in
               match appendChild res cloned with
               | (res, None) => ret res
               | (_, Some e) => throw e
               end)
            nodes (ret []).

End JMLFragmentAdapter.

End jmlpayload.

(** ** The string and number built-ins jmldelta.js relies on *)

Module JSString.

(** [s.split(sep)] for a separator of one character. *)
Fixpoint split (sep : ascii) (s : string) : list string :=
  match s with
  | EmptyString => [EmptyString]
  | String c s' =>
      if Ascii.eqb c sep then EmptyString :: split sep s'
      else match split sep s' with
           | h :: t => String c h :: t
           | [] => [String c EmptyString]
           end
  end.

(** [parts.join(sep)] on strings. *)
Fixpoint join (sep : string) (parts : list string) : string :=
  match parts with
  | [] => EmptyString
  | [a] => a
  | a :: rest => a +:+ sep +:+ join sep rest
  end.

(** White space as [trim] and [parseInt] skip it (tab, LF, VT, FF, CR and
    space among the byte values). *)
Definition is_space (c : ascii) : bool :=
  let n := nat_of_ascii c in
  ((9 <=? n) && (n <=? 13))%nat || (n =? 32)%nat.

Fixpoint trim_left (s : string) : string :=
  match s with
  | String c s' => if is_space c then trim_left s' else s
  | EmptyString => EmptyString
  end.

Fixpoint trim_right (s : string) : string :=
  match s with
  | EmptyString => EmptyString
  | String c s' =>
      let r := trim_right s' in
      if is_space c && String.eqb r EmptyString then EmptyString else String c r
  end.

(** [s.trim()] *)
Definition trim (s : string) : string := trim_right (trim_left s).

(** The value of a character as a digit, up to radix 36. *)
Definition digit_val (c : ascii) : option Z :=
  let n := Z.of_nat (nat_of_ascii c) in
  if (48 <=? n) && (n <=? 57) then Some (n - 48)
  else if (97 <=? n) && (n <=? 122) then Some (n - 87)
  else if (65 <=? n) && (n <=? 90) then Some (n - 55)
  else None.

(** The longest prefix of digits of the radix, read as a number; [acc] is
    [None] until a digit has been read. *)
Fixpoint digits (radix : Z) (s : string) (acc : option Z) : option Z :=
  match s with
  | EmptyString => acc
  | String c s' =>
      match digit_val c with
      | Some d =>
          if d <? radix then digits radix s' (Some (default 0 acc * radix + d))
          else acc
      | None => acc
      end
  end.

(** The [0x] or [0X] that parseInt skips for radix 16. *)
Definition strip_0x (s : string) : string :=
  match s with
  | String c0 (String c1 s') =>
      if Ascii.eqb c0 "0" && (Ascii.eqb c1 "x" || Ascii.eqb c1 "X") then s'
      else s
  | _ => s
  end.

(** [parseInt(s, radix)] for radix 10 and 16: white space, a sign, for
    radix 16 a [0x], then the digits; NaN when there is no digit.  The
    value is exact; JavaScript rounds it to a double, which changes
    nothing below 2^53. *)
Definition parseInt (s : string) (radix : Z) : jsval :=
  let s := trim_left s in
  let '(sign, s) :=
    match s with
    | String c s' =>
        if Ascii.eqb c "-" then (-1, s')
        else if Ascii.eqb c "+" then (1, s')
        else (1, s)
    | EmptyString => (1, s)
    end in
  let s := if radix =? 16 then strip_0x s else s in
  match digits radix s None with
  | Some n => JNum (sign * n)
  | None => JNaN
  end.

Definition hex_digit (d : Z) : ascii :=
  match d with
  | 0 => "0" | 1 => "1" | 2 => "2" | 3 => "3" | 4 => "4" | 5 => "5"
  | 6 => "6" | 7 => "7" | 8 => "8" | 9 => "9" | 10 => "a" | 11 => "b"
  | 12 => "c" | 13 => "d" | 14 => "e" | _ => "f"
  end%char.

(** The hexadecimal digits of a positive [n], written in front of [acc]. *)
Fixpoint hex_digits (fuel : nat) (n : Z) (acc : string) : string :=
  match fuel with
  | O => acc
  | S fuel' =>
      let acc' := String (hex_digit (n mod 16)) acc in
      if n / 16 =? 0 then acc' else hex_digits fuel' (n / 16) acc'
  end.

Definition hex (n : Z) : string :=
  hex_digits (S (Z.to_nat (Z.log2 n))) n EmptyString.

(** [n.toString(16)] for an integer [n]. *)
Definition toString16 (n : Z) : string :=
  if n =? 0 then "0"
  else if n <? 0 then String "-" (hex (- n))
  else hex n.

End JSString.

(** ** jmldelta.js: the JsonML delta adapter *)

Module jmldelta.
Import JS JsonML JSString.

(** The properties every plain object inherits from Object.prototype. *)
Definition Object_prototype_keys : list string :=
  [ "constructor"; "hasOwnProperty"; "isPrototypeOf"; "propertyIsEnumerable";
    "toLocaleString"; "toString"; "valueOf"; "__proto__";
    "__defineGetter__"; "__defineSetter__"; "__lookupGetter__";
    "__lookupSetter__" ].

(** [o[key]] on a plain object, own properties first; an inherited member
    is a function or an object, here an opaque object. *)
Definition get_member (key : string) (props : list (string * jsval)) : jsval :=
  if bool_decide (key ∈ props.*1) then lookup_prop key props
  else if bool_decide (key ∈ Object_prototype_keys) then JObj []
  else JUndefined.

Section JMLDeltaAdapter.

(** [deltamod.UPDATE_NODE_TYPE] and [deltamod.UPDATE_FOREST_TYPE]: numeric
    constants of delta.js, taken as parameters. *)
Variables UPDATE_NODE_TYPE UPDATE_FOREST_TYPE : Z.

(** The nodes a fragment adapter imports, and its importFragment. *)
Variable Fragment : Type.
Variable importFragment : list jsval -> result (list Fragment).

(** TYPE_TAGS, after its four assignments. *)
Definition TYPE_TAGS : list (string * jsval) :=
  let t := [] in
  let t := set_prop (ToString (JNum UPDATE_NODE_TYPE)) (JStr "node") t in
  let t := set_prop (ToString (JNum UPDATE_FOREST_TYPE)) (JStr "forest") t in
  let t := set_prop "node" (JNum UPDATE_NODE_TYPE) t in
  set_prop "forest" (JNum UPDATE_FOREST_TYPE) t.

(** [TYPE_TAGS[jml.getTagName(n)]] *)
Definition type_of_tag (n : jsval) : jsval :=
  get_member (ToString (getTagName n)) TYPE_TAGS.

(** Modelled from the spec: contextdelta.DetachedContextOperation
    (contextdelta.js is not part of the sources at hand), the record
    (type, path, remove, insert, head, tail). *)
Record DetachedContextOperation : Type := mkOp {
  op_type : Z;
  op_path : list jsval;
  op_remove : list Fragment;
  op_insert : list Fragment;
  op_head : jsval;
  op_tail : jsval
}.

Definition unsupported : exn := Error "Encountered unsupported change type".

(** nextElement(tag, domnodes): the node found and the nodes left. *)
Fixpoint nextElement (tag : string) (domnodes : list jsval)
  : jsval * list jsval :=
  match domnodes with
  | [] => (JUndefined, [])
  | node :: rest =>
      if truthy node && isElement node then
        match getTagName node with
        | JStr t => if String.eqb t tag then (node, rest) else nextElement tag rest
        | _ => nextElement tag rest
        end
      else (node, rest)
  end.

(** nextText(domnodes) *)
Fixpoint nextText (domnodes : list jsval) : jsval * list jsval :=
  match domnodes with
  | [] => (JUndefined, [])
  | node :: rest =>
      if truthy node && isElement node then nextText rest else (node, rest)
  end.

(** parseContext(node): an array of numbers and [undefined]s, or
    [undefined] when the context holds no text. *)
Definition parseContext (node : jsval) : result jsval :=
  let! children := getChildren node in
  let text := (nextText children).1 in
  if truthy text then
    match text with
    | JStr text =>
        ret (JArr (map (fun component =>
                          let component := trim component in
                          if negb (String.eqb component EmptyString)
                          then parseInt component 16
                          else JUndefined)
                       (split ";" text)))
    | _ => throw (TypeError "text.split is not a function")
    end
  else ret JUndefined.

(** adaptOperation(element, type) *)
Definition adaptOperation (element type : jsval)
  : result DetachedContextOperation :=
  let! path := getAttribute element "path" in
  let! type :=
    match type with
    | JNum t =>
        if (t =? UPDATE_NODE_TYPE) || (t =? UPDATE_FOREST_TYPE) then ret t
        else throw unsupported
    | _ => throw unsupported
    end in
  (* Parse path *)
  let! path :=
    match path with
    | JStr EmptyString => ret []
    | JStr path => ret (map (fun component => parseInt component 10)
                            (split "/" path))
    | _ => throw (TypeError "path.split is not a function")
    end in
  let! children := getChildren element in
  let '(node, children) := nextElement "context" children in
  let! head := parseContext node in
  let '(node, children) := nextElement "remove" children in
  let! removed := getChildren node in
  let! remove := importFragment removed in
  let '(node, children) := nextElement "insert" children in
  let! inserted := getChildren node in
  let! insert := importFragment inserted in
  let '(node, children) := nextElement "context" children in
  let! tail := parseContext node in
  ret (mkOp type path remove insert head tail).

(** adaptDocument(doc): one operation per child of the delta document.
    [jml.getTagName(n)] reads [n[0]], which throws on [null]. *)
Definition adaptDocument (doc : jsval)
  : result (list DetachedContextOperation) :=
  let! children := eachChild doc in
  fold_left (fun acc n =>
               let! operations := acc in
               let! type :=
                 match n with
                 | JNull | JUndefined =>
                     throw (TypeError "Cannot read property 0 of null")
                 | _ => ret (type_of_tag n)
                 end in
               let! op := adaptOperation n type in
               ret (operations ++ [op]))
            children (ret []).

End JMLDeltaAdapter.

(** [n.toString(16)] as formatFingerprint applies it to a truthy entry. *)
Definition entry_toString16 (n : jsval) : string :=
  match n with
  | JNum n => toString16 n
  | _ => ToString n
  end.

(** formatFingerprint(parts) *)
Definition formatFingerprint (parts : list jsval) : string :=
  join ";" (map (fun n => if truthy n then entry_toString16 n else EmptyString)
                parts).

(** The [context] element constructOperationElement builds for a
    fingerprint: [head = ['context']; jml.appendChild(head, fp)]. *)
Definition context_element (parts : list jsval) : jsval :=
  JArr (appendChild [JStr "context"] (JStr (formatFingerprint parts))).1.

Section constructOperationElement.

Variables UPDATE_NODE_TYPE UPDATE_FOREST_TYPE : Z.
(** The nodes of a fragment, and [fragmentadapter.adapt(doc, nodes, deep)]. *)
Variable Fragment : Type.
Variable adaptFragment : list Fragment -> bool -> result (list jsval).

(** [path.join('/')]: nothing for [undefined] and [null]. *)
Definition path_text (path : list jsval) : string :=
  join "/" (map (fun x => match x with
                          | JUndefined | JNull => EmptyString
                          | _ => ToString x
                          end) path).

(** [this.formatFingerprint(fp)] on a property of the operation: only an
    array has [map]. *)
Definition fingerprint_of (fp : jsval) : result string :=
  match fp with
  | JArr parts => ret (formatFingerprint parts)
  | _ => throw (TypeError "parts.map is not a function")
  end.

(** A call that mutates an array, as a computation that returns the array
    or throws. *)
Definition mutated (r : list jsval * option exn) : result (list jsval) :=
  match r with
  | (items, None) => ret items
  | (_, Some e) => throw e
  end.

(** constructOperationElement(doc, op).  [op.remove] and [op.insert] are
    arrays, which are truthy. *)
Definition constructOperationElement
  (op : DetachedContextOperation Fragment) : result jsval :=
  let tag := get_member (ToString (JNum (op_type _ op)))
                        (TYPE_TAGS UPDATE_NODE_TYPE UPDATE_FOREST_TYPE) in
  let deep := negb (op_type _ op =? UPDATE_NODE_TYPE) in
  let element := [tag] in
  let remove := [JStr "remove"] in
  let insert := [JStr "insert"] in
  let head := [JStr "context"] in
  let tail := [JStr "context"] in
  let! element := setAttribute element "path" (JStr (path_text (op_path _ op))) in
  let! text := fingerprint_of (op_head _ op) in
  let! head := mutated (appendChild head (JStr text)) in
  let! element := mutated (appendChild element (JArr head)) in
  let! oldcontent := adaptFragment (op_remove _ op) deep in
  let! remove := mutated (appendChildren remove oldcontent) in
  let! element := mutated (appendChild element (JArr remove)) in
  let! newcontent := adaptFragment (op_insert _ op) deep in
  let! insert := mutated (appendChildren insert newcontent) in
  let! element := mutated (appendChild element (JArr insert)) in
  let! text := fingerprint_of (op_tail _ op) in
  let! tail := mutated (appendChild tail (JStr text)) in
  let! element := mutated (appendChild element (JArr tail)) in
  ret (JArr element).

(** populateDocument(doc, operations), on the items of [doc]. *)
Definition populateDocument (doc : list jsval)
  (operations : list (DetachedContextOperation Fragment)) : result (list jsval) :=
  fold_left (fun acc op =>
               let! doc := acc in
               let! element := constructOperationElement op in
               mutated (appendChild doc element))
            operations (ret doc).

End constructOperationElement.

End jmldelta.

(** ** jmlhandler.js: the operation handlers

    A handler edits the JsonML document in place and finds children by
    object identity, so here arrays and objects live in a heap and a value
    is a primitive or a reference. *)

Module jmlhandler.
Import tree.

Inductive val : Type :=
| VUndefined
| VNull
| VBool (b : bool)
| VNum (n : Z)
| VStr (s : string)
| VRef (l : nat).

Inductive cell : Type :=
| CArr (items : list val)
| CObj (props : list (string * val)).

Abbreviation heap := (list cell).

Definition truthy (v : val) : bool :=
  match v with
  | VUndefined | VNull => false
  | VBool b => b
  | VNum n => negb (n =? 0)
  | VStr s => negb (String.eqb s EmptyString)
  | VRef _ => true
  end.

(** [a === b]: primitives by value, arrays and objects by identity. *)
Definition strict_eq (a b : val) : bool :=
  match a, b with
  | VUndefined, VUndefined | VNull, VNull => true
  | VBool x, VBool y => Bool.eqb x y
  | VNum x, VNum y => x =? y
  | VStr x, VStr y => String.eqb x y
  | VRef x, VRef y => (x =? y)%nat
  | _, _ => false
  end.

(** The document a payload handler parsed, laid out in the heap: every
    array and object gets a cell of its own. *)
Fixpoint alloc (v : jsval) (h : heap) {struct v} : val * heap :=
  match v with
  | JUndefined | JNaN => (VUndefined, h)
  | JNull => (VNull, h)
  | JBool b => (VBool b, h)
  | JNum n => (VNum n, h)
  | JStr s => (VStr s, h)
  | JArr items =>
      let '(vs, h') :=
        (fix each (l : list jsval) (h : heap) {struct l} : list val * heap :=
           match l with
           | [] => ([], h)
           | x :: rest =>
               let '(v, h1) := alloc x h in
               let '(vs, h2) := each rest h1 in
               (v :: vs, h2)
           end) items h in
      (VRef (length h'), h' ++ [CArr vs])
  | JObj props =>
      let '(ps, h') :=
        (fix each (l : list (string * jsval)) (h : heap) {struct l}
           : list (string * val) * heap :=
           match l with
           | [] => ([], h)
           | (k, x) :: rest =>
               let '(v, h1) := alloc x h in
               let '(ps, h2) := each rest h1 in
               ((k, v) :: ps, h2)
           end) props h in
      (VRef (length h'), h' ++ [CObj ps])
  end.

(** The value a reference stands for, read back out of the heap. *)
Fixpoint reify (fuel : nat) (h : heap) (v : val) : option jsval :=
  match v with
  | VUndefined => Some JUndefined
  | VNull => Some JNull
  | VBool b => Some (JBool b)
  | VNum n => Some (JNum n)
  | VStr s => Some (JStr s)
  | VRef l =>
      match fuel with
      | O => None
      | S fuel' =>
          match h !! l with
          | Some (CArr items) => JArr <$> mapM (reify fuel' h) items
          | Some (CObj props) =>
              JObj <$> mapM (fun kv => pair kv.1 <$> reify fuel' h kv.2) props
          | None => None
          end
      end
  end.

(** The double quote and the backslash. *)
Definition dquote : ascii := "034"%char.
Definition backslash : ascii := "092"%char.

Fixpoint escape (s : string) : string :=
  match s with
  | EmptyString => EmptyString
  | String c s' =>
      if Ascii.eqb c dquote || Ascii.eqb c backslash
      then String backslash (String c (escape s'))
      else String c (escape s')
  end.

Definition quote (s : string) : string :=
  String dquote (escape s +:+ String dquote EmptyString).

(** JSON.stringify, as JMLPayloadHandler.serializeToString calls it, on
    documents whose strings hold no control characters. *)
Fixpoint stringify (v : jsval) : string :=
  match v with
  | JUndefined | JNull | JNaN => "null"
  | JBool true => "true"
  | JBool false => "false"
  | JNum n => JS.string_of_Z n
  | JStr s => quote s
  | JArr items =>
      "[" +:+ (fix each (l : list jsval) : string :=
                 match l with
                 | [] => EmptyString
                 | x :: [] => stringify x
                 | x :: rest => stringify x +:+ "," +:+ each rest
                 end) items +:+ "]"
  | JObj props =>
      "{" +:+ (fix each (l : list (string * jsval)) : string :=
                 match l with
                 | [] => EmptyString
                 | (k, x) :: [] => quote k +:+ ":" +:+ stringify x
                 | (k, x) :: rest =>
                     quote k +:+ ":" +:+ stringify x +:+ "," +:+ each rest
                 end) props +:+ "}"
  end.

(** The serialisation of the document rooted at [v]. *)
Definition serialize (h : heap) (v : val) : option string :=
  stringify <$> reify (S (length h)) h v.

(** [v[name]] where [name] is no index and not [length]: only an object
    cell has such properties; reading one off [undefined] or [null] throws. *)
Definition get_property (h : heap) (v : val) (name : string) : result val :=
  match v with
  | VUndefined | VNull =>
      throw (TypeError ("Cannot read property " +:+ name))
  | VRef l =>
      match h !! l with
      | Some (CObj props) =>
          ret (from_option snd VUndefined
                 (List.find (fun kv => String.eqb kv.1 name) props))
      | _ => ret VUndefined
      end
  | _ => ret VUndefined
  end.

(** jml.clone(jml, false) on a heap value: for an element a new array with
    the tag name and, when the element has attributes to copy, a new
    attribute object; any other value as the string [String(jml)]. *)
Definition clone_shallow (h : heap) (jml : val) : val * heap :=
  let as_string : val * heap :=
    (VStr (JS.ToString (default JUndefined (reify (S (length h)) h jml))), h) in
  match jml with
  | VRef l =>
      match h !! l with
      | Some (CArr (VStr tag :: rest)) =>
          let attrs :=
            match rest with
            | VRef a :: _ =>
                match h !! a with Some (CObj props) => props | _ => [] end
            | _ => []
            end in
          match attrs with
          | [] => (VRef (length h), h ++ [CArr [VStr tag]])
          | _ :: _ =>
              (VRef (length h),
               h ++ [CArr [VStr tag; VRef (S (length h))]; CObj attrs])
          end
      | _ => as_string
      end
  | _ => as_string
  end.

(** The children mapjml visits: those of an element (an array that starts
    with a string), after its attribute object if it has one. *)
Definition children_of (h : heap) (node : val) : list val :=
  match node with
  | VRef l =>
      match h !! l with
      | Some (CArr (VStr _ :: rest)) =>
          match rest with
          | VRef a :: rest' =>
              match h !! a with
              | Some (CObj _) => rest'
              | _ => rest
              end
          | _ => rest
          end
      | _ => []
      end
  | _ => []
  end.

(** JMLTreeAdapter.adapt on a document in the heap: one tree node per
    JsonML node, created in document order (which numbers the node objects
    from [next]) and appended to the wrapper of its parent. *)
Fixpoint adapt (fuel : nat) (h : heap) (node : val) (next : nat)
  : option (Tree val * nat) :=
  match fuel with
  | O => None
  | S fuel' =>
      '(wrapped, next') ←
        foldl (fun acc child =>
                 '(wrapped, next) ← acc;
                 '(sub, next') ← adapt fuel' h child next;
                 Some (wrapped ++ [sub], next'))
              (Some ([], S next)) (children_of h node);
      Some (TNode next node wrapped, next')
  end.

(** *** JMLOperationNodeDataMap: the [currentJMLNode] property of tree nodes *)

Abbreviation datamap := (gmap nat val).

(** getCurrentJMLNode(node): [node && (node[propname] || node.data)] *)
Definition getCurrentJMLNode (dm : datamap) (node : option (Tree val)) : val :=
  match node with
  | None => VUndefined
  | Some n =>
      match dm !! id n with
      | Some v => if truthy v then v else tdata n
      | None => tdata n
      end
  end.

(** setCurrentJMLNode(node, domnode) *)
Definition setCurrentJMLNode (dm : datamap) (node : Tree val) (domnode : val)
  : datamap := <[id node := domnode]> dm.

(** What a patching session mutates: the document and the data map. *)
Record session : Type := mkSession {
  doc_heap : heap;
  current : datamap
}.

(** *** JMLNodeReplaceOperationHandler *)

Record JMLNodeReplaceOperationHandler : Type := mkReplace {
  r_anchor : Tree val;
  r_orignode : val;
  r_changednode : val;
  r_state : bool
}.

(** toggle().  The nodes are JsonML values: none of them has a method, so
    the first call of one ([appendChild], [replaceChild]) throws. *)
Definition replace_toggle (hd : JMLNodeReplaceOperationHandler) (s : session)
  : result (JMLNodeReplaceOperationHandler * session) :=
  let h := doc_heap s in
  let fromnode := if r_state hd then r_changednode hd else r_orignode hd in
  let tonode := if r_state hd then r_orignode hd else r_changednode hd in
  let! owner := get_property h fromnode "ownerDocument" in
  let! docelem := get_property h owner "documentElement" in
  let! parent :=
    if strict_eq fromnode docelem then ret owner
    else get_property h fromnode "parentNode" in
  (* Move children *)
  let! first := get_property h fromnode "firstChild" in
  if truthy first then
    let! _ := get_property h tonode "appendChild" in
    throw (TypeError "tonode.appendChild is not a function")
  else
    (* Replace node *)
    let! _ := get_property h parent "replaceChild" in
    throw (TypeError "parent.replaceChild is not a function").

(** *** JMLTreeSequenceOperationHandler *)

Record JMLTreeSequenceOperationHandler : Type := mkSequence {
  s_par : option (Tree val);
  s_before : option (Tree val);
  s_oldnodes : list val;
  s_newnodes : list val;
  s_state : bool
}.

Definition not_found : exn := Thrown "Child not found!!".

(** [node.length] and [node[i]] as findChild reads them. *)
Definition items_of (h : heap) (node : val) : result (list val) :=
  match node with
  | VUndefined | VNull => throw (TypeError "Cannot read property length")
  | VRef l =>
      match h !! l with
      | Some (CArr items) => ret items
      | _ => ret []
      end
  | VStr s => ret (map (fun c => VStr (String c EmptyString))
                       (list_ascii_of_string s))
  | _ => ret []
  end.

(** The first index whose item is [child], by [===]. *)
Fixpoint index_of (child : val) (items : list val) : option nat :=
  match items with
  | [] => None
  | x :: rest =>
      if strict_eq x child then Some O else S <$> index_of child rest
  end.

(** findChild(node, child) *)
Definition findChild (h : heap) (node child : val) : result nat :=
  match child with
  | VUndefined => ret O
  | _ =>
      let! items := items_of h node in
      match index_of child items with
      | Some i => ret i
      | None => throw not_found
      end
  end.

(** [node.splice(i, count, item...)]: only an array has splice. *)
Definition splice (h : heap) (node : val) (i count : nat) (ins : list val)
  : result heap :=
  match node with
  | VRef l =>
      match h !! l with
      | Some (CArr items) =>
          ret (<[l := CArr (take i items ++ ins ++ drop (i + count) items)]> h)
      | _ => throw (TypeError "node.splice is not a function")
      end
  | _ => throw (TypeError "node.splice is not a function")
  end.

(** removeChild(node, child) *)
Definition removeChild (h : heap) (node child : val) : result heap :=
  let! i := findChild h node child in
  splice h node i 1 [].

(** insertBefore(node, newone, before): [node.splice(i, 0, [newone])], the
    array literal being a new object. *)
Definition insertBefore (h : heap) (node newone before : val) : result heap :=
  let! i := findChild h node before in
  let wrapped := VRef (length h) in
  splice (h ++ [CArr [newone]]) node i 0 [wrapped].

(** A loop over [items] whose body updates the heap; a throw leaves the
    heap as the earlier rounds made it. *)
Fixpoint for_each (body : heap -> val -> result heap) (items : list val)
  (h : heap) : heap * option exn :=
  match items with
  | [] => (h, None)
  | x :: rest =>
      match body h x with
      | inl e => (h, Some e)
      | inr h' => for_each body rest h'
      end
  end.

(** toggle(): the handler and the session after the call, and the
    exception if it ended by a throw. *)
Definition sequence_toggle (hd : JMLTreeSequenceOperationHandler) (s : session)
  : (JMLTreeSequenceOperationHandler * session) * option exn :=
  let remove := if s_state hd then s_newnodes hd else s_oldnodes hd in
  let insert := if s_state hd then s_oldnodes hd else s_newnodes hd in
  let node := getCurrentJMLNode (current s) (s_par hd) in
  let before := getCurrentJMLNode (current s) (s_before hd) in
  match for_each (fun h r => removeChild h node r) remove (doc_heap s) with
  | (h, Some e) => ((hd, mkSession h (current s)), Some e)
  | (h, None) =>
      match for_each (fun h n => insertBefore h node n before) insert h with
      | (h, Some e) => ((hd, mkSession h (current s)), Some e)
      | (h, None) =>
          ((mkSequence (s_par hd) (s_before hd) (s_oldnodes hd) (s_newnodes hd)
                       (negb (s_state hd)),
            mkSession h (current s)), None)
      end
  end.

(** *** JMLOperationHandlerFactory *)

Inductive Hunk : Type :=
| NodeReplace (hd : JMLNodeReplaceOperationHandler)
| TreeSequence (hd : JMLTreeSequenceOperationHandler).

(** h.toggle() *)
Definition toggle (hunk : Hunk) (s : session) : (Hunk * session) * option exn :=
  match hunk with
  | NodeReplace hd =>
      match replace_toggle hd s with
      | inl e => ((hunk, s), Some e)
      | inr (hd', s') => ((NodeReplace hd', s'), None)
      end
  | TreeSequence hd =>
      let '((hd', s'), e) := sequence_toggle hd s in ((TreeSequence hd', s'), e)
  end.

Definition isActive (hunk : Hunk) : bool :=
  match hunk with
  | NodeReplace hd => r_state hd
  | TreeSequence hd => s_state hd
  end.

(** h.activate() *)
Definition activate (hunk : Hunk) (s : session) : (Hunk * session) * option exn :=
  if isActive hunk then ((hunk, s), None) else toggle hunk s.

(** h.deactivate() *)
Definition deactivate (hunk : Hunk) (s : session)
  : (Hunk * session) * option exn :=
  if isActive hunk then toggle hunk s else ((hunk, s), None).

Section JMLOperationHandlerFactory.

Variables UPDATE_NODE_TYPE UPDATE_FOREST_TYPE : Z.

(** createNodeUpdateOperationHandler(anchor, newnode); [newnode] is
    [insert[0]], absent when the insert list is empty. *)
Definition createNodeUpdateOperationHandler (anchor : Anchor val)
  (newnode : option (Tree val)) (s : session) : result (Hunk * session) :=
  match target anchor with
  | None => throw (Error
      "Parameter error: node update handler needs an anchor with a target")
  | Some oldnode =>
      match newnode with
      | None => throw (TypeError "Cannot read property data")
      | Some newnode =>
          let '(insert, h) := clone_shallow (doc_heap s) (tdata newnode) in
          ret (NodeReplace (mkReplace oldnode (tdata oldnode) insert false),
               mkSession h (current s))
      end
  end.

(** createForestUpdateOperationHandler(anchor, length, replacement) *)
Definition createForestUpdateOperationHandler (anchor : Anchor val)
  (length : nat) (replacement : list (Tree val)) : result Hunk :=
  match base anchor, index anchor with
  | None, _ => throw (Error
      "Parameter error: forest update handler needs an anchor with a base")
  | Some _, None => throw (Error
      "Parameter error: forest update handler needs an anchor with an index")
  | Some node, Some start =>
      if (length =? 0)%nat && (List.length replacement =? 0)%nat
      then throw (Error "Forest update operation requires at least one node")
      else
        let! oldnodes :=
          fold_left (fun acc i =>
                       let! oldnodes := acc in
                       match tchildren node !! i with
                       | Some c => ret (oldnodes ++ [tdata c])
                       | None => throw (TypeError "Cannot read property data")
                       end)
                    (seq start length) (ret []) in
        let newnodes := map tdata replacement in
        let before := tchildren node !! (start + length)%nat in
        ret (TreeSequence (mkSequence (Some node) before oldnodes newnodes false))
  end.

(** createOperationHandler(anchor, type, path, remove, insert) *)
Definition createOperationHandler (anchor : Anchor val) (type : Z)
  (path : list nat) (remove insert : list (Tree val)) (s : session)
  : result (Hunk * session) :=
  if type =? UPDATE_FOREST_TYPE then
    let! hunk := createForestUpdateOperationHandler anchor (length remove) insert in
    ret (hunk, s)
  else if type =? UPDATE_NODE_TYPE then
    createNodeUpdateOperationHandler anchor (head insert) s
  else throw (Error "Operation type not supported by this factory").

End JMLOperationHandlerFactory.

End jmlhandler.

(** ** Applying a patch

    The resolver and the patch driver are not part of the sources at hand;
    what is needed of them to run a hunk is taken from the spec. *)

Module patching.
Import tree jmlhandler.

Section apply.
Variables UPDATE_NODE_TYPE UPDATE_FOREST_TYPE : Z.

Abbreviation Operation := (jmldelta.DetachedContextOperation (Tree val)).

(** Modelled from the spec: a fingerprint without a non-zero entry (4.H:
    missing positions are 0). *)
Definition no_context (fingerprint : jsval) : bool :=
  match fingerprint with
  | JArr entries => forallb (fun e => negb (JS.truthy e)) entries
  | JUndefined => true
  | _ => false
  end.

(** Modelled from the spec: the node a path of child indices leads to
    from the root (section 3). *)
Fixpoint node_at (t : Tree val) (path : list nat) : option (Tree val) :=
  match path with
  | [] => Some t
  | i :: rest =>
      match tchildren t !! i with
      | Some c => node_at c rest
      | None => None
      end
  end.

(** Modelled from the spec: a path component as a child index. *)
Definition path_index (v : jsval) : option nat :=
  match v with
  | JNum n => if 0 <=? n then Some (Z.to_nat n) else None
  | _ => None
  end.

(** Modelled from the spec: the fast path of the context resolver (4.I,
    step 1; resolver.js is missing).  The path is followed from the root,
    every index in range; a forest update is anchored at the slot its last
    index names in the children of the node reached, provided the nodes to
    remove fit there; a node update at the node itself.  The position is
    accepted when every non-zero fingerprint entry matches: the model
    covers the operations whose fingerprints have no non-zero entry, and
    gives [None] (resolution failed, or not modelled) for the others. *)
Definition resolve (root : Tree val) (op : Operation) : option (Anchor val) :=
  if negb (no_context (jmldelta.op_head _ op) && no_context (jmldelta.op_tail _ op))
  then None
  else
    path ← mapM path_index (jmldelta.op_path _ op);
    if jmldelta.op_type _ op =? UPDATE_FOREST_TYPE then
      match reverse path with
      | [] => None
      | slot :: up =>
          base ← node_at root (reverse up);
          if (slot + length (jmldelta.op_remove _ op) <=? length (tchildren base))%nat
          then match new_Anchor (Some root) (Some base) (Some slot) with
               | inr a => Some a
               | inl _ => None
               end
          else None
      end
    else
      node ← node_at root path;
      match new_Anchor (Some root) (Some node) None with
      | inr a => Some a
      | inl _ => None
      end.

(** Modelled from the spec: the error kind ResolutionFailed (section 7). *)
Definition resolution_failed : exn := Error "ResolutionFailed".

(** Modelled from the spec: apply(patch, tree) in strict mode (section 2,
    data flow of apply, and 4.J; the patch driver is missing): each
    operation is resolved, handed to the operation-handler factory, and the
    hunk it returns is activated, in order; the first failure aborts. *)
Fixpoint apply (root : Tree val) (patch : list Operation) (s : session)
  : session * option exn :=
  match patch with
  | [] => (s, None)
  | op :: rest =>
      match resolve root op with
      | None => (s, Some resolution_failed)
      | Some anchor =>
          match createOperationHandler UPDATE_NODE_TYPE UPDATE_FOREST_TYPE
                  anchor (jmldelta.op_type _ op)
                  (default [] (mapM path_index (jmldelta.op_path _ op)))
                  (jmldelta.op_remove _ op) (jmldelta.op_insert _ op) s with
          | inl e => (s, Some e)
          | inr (hunk, s) =>
              match activate hunk s with
              | ((_, s), Some e) => (s, Some e)
              | ((_, s), None) => apply root rest s
              end
          end
      end
  end.

End apply.

End patching.

(** ** djdiff: the command line driver *)

Module djdiff.

(** What the driver can touch: the files and the console. *)
Record World : Type := mkWorld {
  files : gmap string string;
  console : list string
}.

(** How a run ends early: [process.exit(code)] or an uncaught exception. *)
Inductive halt : Type :=
| Exit (code : Z)
| Uncaught (e : exn).

Definition log (line : string) (w : World) : World :=
  mkWorld (files w) (console w ++ [line]).

(** getPayloadType(mimetype) *)
Definition getPayloadType (mimetype : string) : option string :=
  if String.eqb mimetype "application/json" then Some "json"
  else if String.eqb mimetype "application/xml"
          || String.eqb (substring (String.length mimetype - 4) 4 mimetype) "+xml"
  then Some "xml"
  else None.

(** saveFile(description, filepath, encoding, data, payloadhandler,
    docadapter): the body is empty. *)
Definition saveFile {Data Handler Adapter : Type} (description : string)
  (filepath encoding : option string) (data : Data)
  (payloadhandler : option Handler) (docadapter : option Adapter)
  (w : World) : World := w.

(** What optparse finds on the command line and reports to the handlers
    registered with [parser.on]: a switch, or the argument at a position. *)
Inductive parsed : Type :=
| on_help
| on_xml
| on_json
| on_debug
| on_position (position : nat) (value : string).

(** The options that the handlers set. *)
Record Options : Type := mkOptions {
  patchtype : string;
  origfile : option string;
  changedfile : option string
}.

Section main.

(** The libraries the driver calls (optparse, mime, lib/delta.js), as far
    as the driver uses them. *)
Variables Doc TreeT Delta Handler Adapter : Type.
(** optparse: what [parser.parse(process.ARGV)] reports, in order, and the
    usage text [parser.toString()]. *)
Variable parse : list string -> list parsed.
Variable usage : string.
Variable mime_lookup : string -> string.
(** [createPayloadHandler(type).parseString] and
    [createTreeAdapter(type).adaptDocument], for the types json and xml. *)
Variable parseString : string -> string -> result Doc.
Variable adaptDocument : string -> Doc -> result TreeT.
(** matchTrees, then generatePatch into a new Delta: the delta and what
    [console.log(delta.operations)] prints. *)
Variable compute_delta : TreeT -> TreeT -> result (Delta * string).

(** checkfile(description, filepath, wantmime) *)
Definition checkfile (description : string) (filepath : option string)
  (wantmime : option string) (w : World) : World * (halt + string) :=
  match filepath with
  | Some path =>
      if bool_decide (is_Some (files w !! path)) then
        let filemime := mime_lookup path in
        match wantmime with
        | Some want =>
            if negb (String.eqb want EmptyString) && negb (String.eqb filemime want)
            then (log (description +:+ " is of the wrong type") w, inl (Exit 1))
            else (w, inr filemime)
        | None => (w, inr filemime)
        end
      else (log ("Path to " +:+ description +:+ " missing. Use the -h switch for help.") w,
            inl (Exit 1))
  | None => (log ("Path to " +:+ description +:+ " missing. Use the -h switch for help.") w,
             inl (Exit 1))
  end.

(** loadFile(description, filepath, encoding, payloadhandler, dataadapter),
    the handler and the adapter being those of the payload type, if any. *)
Definition loadFile (filepath : string) (type : option string) (w : World)
  : result TreeT :=
  match files w !! filepath with
  | None => throw (Error "ENOENT")
  | Some data =>
      match type with
      | None => throw (TypeError "Cannot read property parseString")
      | Some type =>
          let! doc := parseString type data in
          adaptDocument type doc
      end
  end.

Definition unsupported_file : string :=
  "This file type is not supported by djdiff".

(** The handlers of main: help prints the usage text, xml and json set
    the patch type, positions 2 and 3 are the two files; debug has no
    handler. *)
Definition handle (st : Options * World) (found : parsed) : Options * World :=
  let '(options, w) := st in
  match found with
  | on_help => (options, log usage w)
  | on_xml => (mkOptions "xml" (origfile options) (changedfile options), w)
  | on_json => (mkOptions "json" (origfile options) (changedfile options), w)
  | on_debug => (options, w)
  | on_position 2 value =>
      (mkOptions (patchtype options) (Some value) (changedfile options), w)
  | on_position 3 value =>
      (mkOptions (patchtype options) (origfile options) (Some value), w)
  | on_position _ _ => (options, w)
  end.

(** [parser.parse(process.ARGV)], from the options main starts with. *)
Definition parse_options (argv : list string) (w : World) : Options * World :=
  fold_left handle (parse argv) (mkOptions "xml" None None, w).

(** main() *)
Definition main (argv : list string) (w : World) : World * option halt :=
  let '(options, w) := parse_options argv w in
  let origfile := origfile options in
  let changedfile := changedfile options in
  match checkfile "original file" origfile None w with
  | (w, inl stop) => (w, Some stop)
  | (w, inr mimetype) =>
  match checkfile "changed file" changedfile (Some mimetype) w with
  | (w, inl stop) => (w, Some stop)
  | (w, inr mimetype) =>
      let type := getPayloadType mimetype in
      let w := if type is Some _ then w else log unsupported_file w in
      (* the payload handler is undefined exactly when the type is *)
      let w := if type is Some _ then w else log unsupported_file w in
      match loadFile (default EmptyString origfile) type w with
      | inl e => (w, Some (Uncaught e))
      | inr tree1 =>
      match loadFile (default EmptyString changedfile) type w with
      | inl e => (w, Some (Uncaught e))
      | inr tree2 =>
      match compute_delta tree1 tree2 with
      | inl e => (w, Some (Uncaught e))
      | inr (delta, operations) =>
          let w := log operations w in
          (* options.patchfile, patchenc, deltaPayloadHandler and
             deltaadapter are never assigned *)
          (saveFile (Handler := Handler) (Adapter := Adapter)
                    "patch file" None None delta None None w, None)
      end end end
  end end.

End main.

End djdiff.

(* ===================================================================== *)
(** * Part II.  The vocabulary of the properties                          *)
(* ===================================================================== *)

(** ** Text children of a JsonML element *)

Section text_children.
Import JS JsonML.

(** Two string items side by side. *)
Fixpoint adjacent_text (l : list jsval) : bool :=
  match l with
  | JStr _ :: ((JStr _ :: _) as rest) => true
  | _ :: rest => adjacent_text rest
  | [] => false
  end.

(** The values the text branch of appendChild takes: neither [undefined]
    nor [null], and no object. *)
Definition text_like (child : jsval) : bool :=
  match child with
  | JBool _ | JNum _ | JNaN | JStr _ => true
  | _ => false
  end.

(** An array that started as an element literal (or empty) and was only
    ever extended by appendChild. *)
Inductive appended_only : list jsval -> Prop :=
| from_empty : appended_only []
| from_tag tag : appended_only [JStr tag]
| from_tag_attrs tag props : appended_only [JStr tag; JObj props]
| by_appendChild parent child :
    appended_only parent -> appended_only (appendChild parent child).1.

End text_children.

(** ** Reachable matchings *)

Section matchings.
Import tree.Matching.

(** The partner links a sequence of successful [put]s leaves on nodes that
    started without any. *)
Inductive reachable : t -> Prop :=
| reachable_empty : reachable ∅
| reachable_put a b m m' :
    reachable m -> put a b m = ret m' -> reachable m'.

(** Whoever has a partner is the partner of that partner. *)
Definition symmetric (m : t) : Prop :=
  forall a b, m !! a = Some b -> m !! b = Some a.

End matchings.

(** ** Document order *)

Section document_order_of_trees.
Import tree.
Context {D : Type}.

(** Pre-order document order: a node, then the subtrees of its children
    from first to last. *)
Fixpoint document_order (t : Tree D) : list (Tree D) :=
  match t with
  | TNode _ _ cs => t :: flat_map document_order cs
  end.

End document_order_of_trees.

(** ** Stores of nodes and their invariants *)

Section node_stores.
Import tree.

(** The stores that creating nodes and appending reach.  With [topdown]
    set, every append receives a child that has no children yet and is not
    the receiver itself: the order in which JMLTreeAdapter.adapt attaches a
    node to its parent before it visits the node's children. *)
Inductive built (topdown : bool) : store -> Prop :=
| built_nothing : built topdown []
| built_new s v d : built topdown s -> built topdown (new_Node v d s).2
| built_append s this child s' :
    built topdown s ->
    (topdown = true ->
     this <> child /\ (children <$> s !! child) = Some []) ->
    append this child s = ret s' ->
    built topdown s'.

(** depth(root) = 0 *)
Definition root_depth (s : store) : Prop :=
  forall c n, s !! c = Some n -> par n = None -> depth n = 0%nat.

(** depth(child) = depth(parent) + 1, along every parent pointer and along
    every entry of a children list. *)
Definition edge_depth (s : store) : Prop :=
  forall c n p pn,
    s !! c = Some n -> s !! p = Some pn ->
    par n = Some p \/ c ∈ children pn ->
    depth n = (depth pn + 1)%nat.

(** parent.children[childIndex] == self *)
Definition parent_link (s : store) : Prop :=
  forall c n p,
    s !! c = Some n -> par n = Some p ->
    exists pn i, s !! p = Some pn /\ childidx n = Some i /\
                 children pn !! i = Some c.

(** Every entry of a children list points back. *)
Definition child_link (s : store) : Prop :=
  forall p pn i c,
    s !! p = Some pn -> children pn !! i = Some c ->
    exists n, s !! c = Some n /\ par n = Some p /\ childidx n = Some i.

(** append(child) fails when child already has a parent. *)
Definition reparent_fails (s : store) : Prop :=
  forall this child c,
    is_Some (s !! this) -> s !! child = Some c -> is_Some (par c) ->
    append this child s = throw already_parented.

(** What a successful append leaves in each cell. *)
Definition appended (this child : nat) (tn : Node) (x : nat) (n : Node) : Node :=
  mkNode (value n) (data n)
         (if decide (x = child) then (depth tn + 1)%nat else depth n)
         (if decide (x = child) then Some this else par n)
         (if decide (x = child) then Some (length (children tn)) else childidx n)
         (if decide (x = this) then children n ++ [child] else children n).

(** Three nodes a, b and c (references 0, 1 and 2) without any link. *)
Definition three_nodes : store :=
  (new_Node (JStr "c") JNull
     (new_Node (JStr "b") JNull (new_Node (JStr "a") JNull []).2).2).2.

(** The store a successful call left, for use on calls known to succeed. *)
Definition after (r : result store) : store :=
  match r with inr s => s | inl _ => [] end.

(** b.append(c), then a.append(b): the depth of [c] stays 1 while its
    parent [b] moves to depth 1. *)
Definition bottom_up : store :=
  after (append 0%nat 1%nat (after (append 1%nat 2%nat three_nodes))).

(** a.append(b), then b.append(c): attached from the root down. *)
Definition top_down : store :=
  after (append 1%nat 2%nat (after (append 0%nat 1%nat three_nodes))).

End node_stores.

(** ** The bytes fed to the hash *)

Section hashed_bytes.
Import JS JsonML jmltree jmltree.JMLNodeHash.

(** The order of attributes by key. *)
Definition key_le {V} (x y : string * V) : Prop := String.le x.1 y.1.

Section any_hash_algorithm.
Context {HashAlgorithm : HashAlgorithm}.


End any_hash_algorithm.




(** A key without characters beyond the Basic Multilingual Plane: no byte
    of its UTF-8 form starts a four-byte sequence.  Such keys are ordered
    by their bytes as they are by their UTF-16 code units. *)
Definition basic_plane (key : string) : Prop :=
  Forall (fun c => (nat_of_ascii c < 240)%nat) (list_ascii_of_string key).

(** The attribute keys the code handles as attributes: each once, in the
    Basic Multilingual Plane, and neither [hasOwnProperty], which hides
    the method eachAttribute calls on the attribute object, nor
    [__proto__], which an assignment does not store. *)
Definition plain_keys (keys : list string) : Prop :=
  NoDup keys /\ Forall basic_plane keys /\
  ("hasOwnProperty" ∉ keys) /\ ("__proto__" ∉ keys).

End hashed_bytes.

#[export] Instance basic_plane_dec key : Decision (basic_plane key).
Proof. unfold basic_plane. apply _. Defined.

#[export] Instance plain_keys_dec keys : Decision (plain_keys keys).
Proof. unfold plain_keys. apply _. Defined.

(** ** Fingerprint texts and operation elements *)

Section wire_format.
Import JS JsonML JSString jmldelta.

(** Every character of the string passes the test. *)
Fixpoint string_forall (P : ascii -> bool) (s : string) : bool :=
  match s with
  | EmptyString => true
  | String c s' => P c && string_forall P s'
  end.

(** The digits 0-9 and a-f. *)
Definition lower_hex (c : ascii) : bool :=
  let n := nat_of_ascii c in
  ((48 <=? n) && (n <=? 57))%nat || ((97 <=? n) && (n <=? 102))%nat.

(** The characters of a fingerprint entry: a hexadecimal digit or the sign. *)
Definition entry_char (c : ascii) : bool := lower_hex c || Ascii.eqb c "-".

(** How formatFingerprint renders an entry, and what parseContext makes
    of that text. *)
Definition entry_text (n : Z) : string :=
  if n =? 0 then EmptyString else toString16 n.

Definition parsed_entry (n : Z) : jsval :=
  if n =? 0 then JUndefined else JNum n.

(** A forest operation as the adapter reads it. *)
Definition forest_element : jsval :=
  JArr [JStr "forest"; JObj [("path", JStr "0/2")];
        JArr [JStr "context"; JStr "1f;;a0"];
        JArr [JStr "remove"; JStr "hello"];
        JArr [JStr "insert"; JStr "world"];
        JArr [JStr "context"; JStr ";"]].

End wire_format.

(** ** Documents, trees and hunks of the scenarios *)

Section scenarios.
Import tree jmlhandler patching.
Variables UPDATE_NODE_TYPE UPDATE_FOREST_TYPE : Z.

(** A document laid out in an empty heap, and its tree. *)
Definition load (doc : jsval) : val * heap := alloc doc [].

Definition tree_of (doc : jsval) : Tree val :=
  let '(root, h) := load doc in
  from_option fst (TNode 0 VUndefined []) (adapt (S (length h)) h root 0).

Definition session_of (doc : jsval) : session := mkSession (load doc).2 ∅.

(** The document as it stands in a session. *)
Definition document (doc : jsval) (s : session) : option jsval :=
  reify (S (length (doc_heap s))) (doc_heap s) (load doc).1.

(** A node of a fragment that a patch carries: the tree adapter's wrapper
    of a text, with an identity no node of the document has. *)
Definition text_fragment (i : nat) (text : string) : Tree val :=
  TNode i (VStr text) [].

Definition p_hello : jsval := JArr [JStr "p"; JStr "hello"].

Definition p_world : jsval := JArr [JStr "p"; JStr "world"].

(** The hunk of the factory for: at slot 0 of the root of [p_hello], remove
    one node and insert the text [world]. *)
Definition text_change_hunk : result (Hunk * session) :=
  let! anchor := new_Anchor (Some (tree_of p_hello)) (Some (tree_of p_hello))
                            (Some 0%nat) in
  createOperationHandler UPDATE_NODE_TYPE UPDATE_FOREST_TYPE anchor
    UPDATE_FOREST_TYPE [0%nat]
    (tchildren (tree_of p_hello)) [text_fragment 100 "world"]
    (session_of p_hello).

(** A session on [doc] whose heap also holds the fragment [frag] that a
    patch carries, and the tree adapter's wrapper of that fragment. *)
Definition session_with (doc frag : jsval) : session :=
  mkSession (alloc frag (load doc).2).2 ∅.

Definition fragment_of (doc frag : jsval) : Tree val :=
  let '(root, h) := alloc frag (load doc).2 in
  from_option fst (TNode 100 VUndefined []) (adapt (S (length h)) h root 100).

Definition ul_a : jsval := JArr [JStr "ul"; JArr [JStr "li"; JStr "a"]].

Definition ul_a_c : jsval :=
  JArr [JStr "ul"; JArr [JStr "li"; JStr "a"]; JArr [JStr "li"; JStr "c"]].

Definition li_b : jsval := JArr [JStr "li"; JStr "b"].

Definition a_plain : jsval := JArr [JStr "a"].

Definition a_href : jsval := JArr [JStr "a"; JObj [("href", JStr "x")]].

(** Modelled from the spec: diff(A, B) for A = ["p", "hello"] and
    B = ["p", "world"] (section 8, scenario 2; xcc.js and delta.js are
    missing): one UPDATE_FOREST at path 0 that removes "hello" and inserts
    "world", with head and tail fingerprints of radius 4 all zero. *)
Definition text_change_patch : list (jmldelta.DetachedContextOperation (Tree val)) :=
  [ jmldelta.mkOp (Tree val) UPDATE_FOREST_TYPE [JNum 0]
      (tchildren (tree_of p_hello)) [text_fragment 100 "world"]
      (JArr [JNum 0; JNum 0; JNum 0; JNum 0])
      (JArr [JNum 0; JNum 0; JNum 0; JNum 0]) ].

(** article > (section > p), aside: four node objects. *)
Definition sample_tree : Tree unit :=
  TNode 0 tt [TNode 1 tt [TNode 2 tt []]; TNode 3 tt []].

End scenarios.

(** ** Induction over values and trees *)

Section jsval_induction.
Variable P : jsval -> Prop.
Hypothesis Hundefined : P JUndefined.
Hypothesis Hnull : P JNull.
Hypothesis Hbool : forall b, P (JBool b).
Hypothesis Hnum : forall n, P (JNum n).
Hypothesis Hnan : P JNaN.
Hypothesis Hstr : forall s, P (JStr s).
Hypothesis Harr : forall items, Forall P items -> P (JArr items).
Hypothesis Hobj : forall props, Forall (fun kv => P kv.2) props -> P (JObj props).

Fixpoint jsval_nested_ind (v : jsval) : P v :=
  match v with
  | JUndefined => Hundefined
  | JNull => Hnull
  | JBool b => Hbool b
  | JNum n => Hnum n
  | JNaN => Hnan
  | JStr s => Hstr s
  | JArr items =>
      Harr items
        ((fix each (l : list jsval) : Forall P l :=
            match l with
            | [] => @List.Forall_nil _ P
            | x :: rest =>
                @List.Forall_cons _ P x rest (jsval_nested_ind x) (each rest)
            end) items)
  | JObj props =>
      Hobj props
        ((fix each (l : list (string * jsval)) : Forall (fun kv => P kv.2) l :=
            match l with
            | [] => @List.Forall_nil _ _
            | (k, x) :: rest =>
                @List.Forall_cons _ (fun kv => P kv.2) (k, x) rest
                                  (jsval_nested_ind x) (each rest)
            end) props)
  end.

End jsval_induction.

Section tree_induction.
Import tree.
Context {D : Type}.
Variable P : Tree D -> Prop.
Hypothesis Hnode : forall i d cs, Forall P cs -> P (TNode i d cs).

Fixpoint Tree_nested_ind (t : Tree D) : P t :=
  match t with
  | TNode i d cs =>
      Hnode i d cs
        ((fix each (l : list (Tree D)) : Forall P l :=
            match l with
            | [] => @List.Forall_nil _ P
            | c :: rest =>
                @List.Forall_cons _ P c rest (Tree_nested_ind c) (each rest)
            end) cs)
  end.

End tree_induction.

(** ** Attribute objects *)

Section attribute_objects.

(** The own keys of an attribute object that the code can copy: each key
    once, none of them [__proto__], which an assignment does not store as
    an own property, and none [hasOwnProperty], which hides the method
    that eachAttribute and addAttributes call on the object. *)
Definition own_keys (props : list (string * jsval)) : Prop :=
  NoDup props.*1 /\ ("__proto__" ∉ props.*1) /\ ("hasOwnProperty" ∉ props.*1).

(** The own properties of an object; none for other values. *)
Definition own_properties (v : jsval) : list (string * jsval) :=
  match v with
  | JObj props => props
  | _ => []
  end.

(** The properties of the attribute object of an element; none when it
    has no attribute object. *)
Definition attribute_object (jml : jsval) : list (string * jsval) :=
  own_properties (JS.index jml 1).

(** A key that a plain object does not inherit. *)
Definition not_inherited (key : string) : Prop :=
  key ∉ jmldelta.Object_prototype_keys.

(** The attributes and the children of an element, read off the items
    that follow its tag name. *)
Definition attributes (rest : list jsval) : list (string * jsval) :=
  match rest with
  | JObj props :: _ => props
  | _ => []
  end.

Definition child_items (rest : list jsval) : list jsval :=
  match rest with
  | JObj _ :: rest' => rest'
  | _ => rest
  end.

(** JsonML in the form deep cloning leaves alone: a string, or an element
    whose attribute object, if it has one, is not empty, and whose
    children are non-empty strings, never two in a row, and elements of
    this form with a non-empty tag name. *)
Fixpoint canonical (jml : jsval) : Prop :=
  match jml with
  | JStr _ => True
  | JArr (JStr _ :: rest) =>
      match rest with
      | JObj props :: _ => props <> [] /\ own_keys props
      | _ => True
      end /\
      adjacent_text (match rest with JObj _ :: rest' => rest' | _ => rest end)
      = false /\
      (fix each (cs : list jsval) : Prop :=
         match cs with
         | [] => True
         | c :: cs' =>
             match c with
             | JStr s => s <> EmptyString
             | JArr (JStr t :: _) => t <> EmptyString /\ canonical c
             | _ => False
             end /\ each cs'
         end) (match rest with JObj _ :: rest' => rest' | _ => rest end)
  | _ => False
  end.

(** The loop of clone over the children of an element, by itself. *)
Definition append_clones (deep : bool)
  : list jsval -> list jsval -> result jsval :=
  fix each (cs : list jsval) (cloned : list jsval) {struct cs} : result jsval :=
    match cs with
    | [] => ret (JArr cloned)
    | child :: cs' =>
        let! c := JsonML.clone child deep in
        match JsonML.appendChild cloned c with
        | (cloned', None) => each cs' cloned'
        | (_, Some e) => throw e
        end
    end.

(** The last item of the array is no string that a text would be merged
    into. *)
Definition no_merge (cloned : list jsval) : Prop :=
  (1 <? Z.of_nat (length cloned))
  && String.eqb (JS.typeof (default JUndefined (last cloned))) "string" = false.

(** A child as [canonical] wants it. *)
Definition canonical_child (c : jsval) : Prop :=
  match c with
  | JStr s => s <> EmptyString
  | JArr (JStr t :: _) => t <> EmptyString /\ canonical c
  | _ => False
  end.

End attribute_objects.

(** ** Traversal orders and generations *)

Section traversal_orders.
Import tree.
Context {D : Type}.

(** Post-order: the subtrees of the children from first to last, then the
    node. *)
Fixpoint post_order (t : Tree D) : list (Tree D) :=
  match t with
  | TNode _ _ cs => flat_map post_order cs ++ [t]
  end.

(** The nodes [d] levels below [t], from left to right. *)
Fixpoint generation (d : nat) (t : Tree D) : list (Tree D) :=
  match d with
  | O => [t]
  | S d' => flat_map (generation d') (tchildren t)
  end.

(** The number of levels of a tree. *)
Fixpoint height (t : Tree D) : nat :=
  match t with
  | TNode _ _ cs => S (fold_right (fun c h => Nat.max (height c) h) 0%nat cs)
  end.

(** The [depth] fields below [root] as top-down construction leaves them:
    every child one deeper than its parent. *)
Definition depths_consistent (node_depth : Tree D -> nat) (root : Tree D) : Prop :=
  forall p c, p ∈ document_order root -> c ∈ tchildren p ->
              node_depth c = S (node_depth p).

End traversal_orders.

(** ** The loops of GenerationIndex *)

Section generation_index_loops.
Import tree.
Context {D : Type}.
Variable node_depth : Tree D -> nat.

(** The loop of buildSubtree over the children, by itself. *)
Definition build_children
  : list (Tree D) -> GenerationIndex.t D * GenerationIndex.props ->
    (GenerationIndex.t D * GenerationIndex.props) * option exn :=
  fix each (cs : list (Tree D)) (st : GenerationIndex.t D * GenerationIndex.props)
    {struct cs} : (GenerationIndex.t D * GenerationIndex.props) * option exn :=
    match cs with
    | [] => (st, None)
    | c :: cs' =>
        match GenerationIndex.buildSubtree node_depth c st with
        | (st', None) => each cs' st'
        | thrown => thrown
        end
    end.

(** The generation at a level of the index, empty when there is none. *)
Definition generation_of (gens : list (list (Tree D))) (j : nat) : list (Tree D) :=
  default [] (gens !! j).

(** The tallest of a list of trees. *)
Definition tallest (cs : list (Tree D)) : nat :=
  fold_right (fun c h => Nat.max (height c) h) 0%nat cs.

(** The [gencomplete] flag at a level: a hole is no flag. *)
Definition flag_at (gc : list (option bool)) (j : nat) : bool :=
  default false (mjoin (gc !! j)).

(** What buildSubtree does to the generations and to the cached
    positions, for a node [k] levels below the root. *)
Definition built_subtree (root node : Tree D) : Prop :=
  forall (k : nat) gens gc ic (p : GenerationIndex.props),
    node_depth node = (node_depth root + k)%nat ->
    (k <= length gens)%nat ->
    depths_consistent node_depth node ->
    NoDup (id <$> document_order node) ->
    exists gens' gc' p',
      GenerationIndex.buildSubtree node_depth node
        (GenerationIndex.mk root gens gc ic, p)
      = ((GenerationIndex.mk root gens' gc' ic, p'), None) /\
      length gens' = Nat.max (length gens) (k + height node) /\
      (forall j, generation_of gens' j
                 = generation_of gens j ++ if decide (k <= j)%nat
                               then generation (j - k) node else []) /\
      (forall d i n, generation d node !! i = Some n ->
         p' !! id n = Some (length (generation_of gens (k + d)) + i)%nat) /\
      (forall x, x ∉ id <$> document_order node -> p' !! x = p !! x).

End generation_index_loops.

(** The depth fields of the nodes of [sample_tree]. *)
Definition sample_depth (n : tree.Tree unit) : nat :=
  match tree.id n with
  | 0%nat => 0%nat
  | 1%nat | 3%nat => 1%nat
  | _ => 2%nat
  end.

(** ** The JsonML nodes of a document *)

Section jsonml_nodes.
Import JS JsonML tree.

(** The nodes mapjml visits, in the order of the visits (document order),
    each with its nesting depth; [depth] is that of the node given. *)
Fixpoint jml_nodes (depth : nat) (node : jsval) : list (jsval * nat) :=
  (node, depth) ::
  match node with
  | JArr (JStr _ :: rest) =>
      flat_map (jml_nodes (S depth))
               (match rest with JObj _ :: rest' => rest' | _ => rest end)
  | _ => []
  end.

(** What JMLTreeAdapter.adapt stores as the value of a wrapper. *)
Definition content (node : jsval) : jsval :=
  if isElement node then getTagName node else node.

(** The loop of mapjml over the children, by itself. *)
Definition map_children {R S} (callback : jsval -> option R -> S -> result (R * S))
  (res : R) : list jsval -> S -> result S :=
  fix each (cs : list jsval) (s : S) {struct cs} : result S :=
    match cs with
    | [] => ret s
    | child :: cs' =>
        let! (_, s) := jmltree.mapjml callback child (Some res) s in
        each cs' s
    end.

(** The payload and the depth of a node object. *)
Definition shape (n : Node) : jsval * nat := (data n, depth n).

(** Every wrapper holds the value adapt gives it. *)
Definition values_set (s : store) : Prop :=
  Forall (fun n => value n = content (data n)) s.

(** Where the wrapper of a node goes: below a parent that is in the store,
    one level deeper, or at the top. *)
Definition placed (parent : option nat) (s : store) (d : nat) : Prop :=
  match parent with
  | Some p => exists pn, s !! p = Some pn /\ d = (depth pn + 1)%nat
  | None => d = 0%nat
  end.

(** What mapjml with the callback of adapt makes of a node. *)
Definition wrapped (node : jsval) : Prop :=
  forall (parent : option nat) (s : store) (d : nat),
    built true s -> values_set s -> placed parent s d ->
    exists s',
      jmltree.mapjml jmltree.JMLTreeAdapter.wrap node parent s = ret (length s, s') /\
      built true s' /\ values_set s' /\
      shape <$> s' = (shape <$> s) ++ jml_nodes d node.

End jsonml_nodes.

(** ** Hashes of nodes and trees *)

Section hash_values.
Import tree.

(** Node hashes going into one hash object, one after another. *)
Definition feed_hashes {H : HashAlgorithm} (hashes : list Z) (hash : hstate)
  : hstate :=
  fold_left (fun h x => hupdate h (JNum x)) hashes hash.

(** a > b > c and a > (b, c): two shapes over the same three JsonML
    nodes in document order. *)
Definition chain_tree : Tree jsval :=
  TNode 0 (JArr [JStr "a"])
    [TNode 1 (JArr [JStr "b"]) [TNode 2 (JArr [JStr "c"]) []]].

Definition flat_tree : Tree jsval :=
  TNode 0 (JArr [JStr "a"])
    [TNode 1 (JArr [JStr "b"]) []; TNode 2 (JArr [JStr "c"]) []].

(** The node hash of the JsonML documents: JMLNodeHash over FNV-1a, on the
    [data] of the node. *)
Definition fnv_nodehash (n : Tree jsval) : result Z :=
  jmltree.JMLNodeHash.process (HashAlgorithm := fnv132.Hash) (tdata n) None.

(** The node hash of an element without attributes. *)
Definition bare_hash (tag : string) : Z :=
  fnv132.fnv1a (jmltree.JMLNodeHash.ELEMENT_PREFIX +:+ tag
                +:+ jmltree.JMLNodeHash.SEPARATOR).

End hash_values.

(** The order of the attribute keys is decidable and total. *)
#[local] Instance key_le_dec {V} : RelDecision (key_le (V := V)).
Proof. intros x y. unfold key_le. apply _. Defined.

#[local] Instance key_le_trans {V} : Transitive (key_le (V := V)).
Proof. intros x y z. unfold key_le. apply transitivity. Qed.

#[local] Instance key_le_total {V} : Total (key_le (V := V)).
Proof. intros x y. unfold key_le. apply total, _. Qed.

(** ** Paths and operation elements on the wire *)

Section wire_paths.
Import JS JsonML JSString jmldelta.

(** The characters of a decimal numeral: the digits and the sign. *)
Definition decimal_char (c : ascii) : bool :=
  let n := nat_of_ascii c in
  ((48 <=? n) && (n <=? 57))%nat || Ascii.eqb c "-".

(** The number a decimal numeral denotes, read from the left with what
    was read before in [acc]. *)
Fixpoint uint_value (u : Decimal.uint) (acc : Z) : Z :=
  match u with
  | Decimal.Nil => acc
  | Decimal.D0 u => uint_value u (acc * 10 + 0)
  | Decimal.D1 u => uint_value u (acc * 10 + 1)
  | Decimal.D2 u => uint_value u (acc * 10 + 2)
  | Decimal.D3 u => uint_value u (acc * 10 + 3)
  | Decimal.D4 u => uint_value u (acc * 10 + 4)
  | Decimal.D5 u => uint_value u (acc * 10 + 5)
  | Decimal.D6 u => uint_value u (acc * 10 + 6)
  | Decimal.D7 u => uint_value u (acc * 10 + 7)
  | Decimal.D8 u => uint_value u (acc * 10 + 8)
  | Decimal.D9 u => uint_value u (acc * 10 + 9)
  end.

(** A child that appendChild appends as it is: a non-empty string, or an
    element with a non-empty tag name. *)
Definition kept_child (c : jsval) : Prop :=
  match c with
  | JStr s => s <> EmptyString
  | JArr (JStr t :: _) => t <> EmptyString
  | _ => False
  end.

(** What parseContext reads in the context element written for a
    fingerprint. *)
Definition read_back (l : list Z) : jsval :=
  if String.eqb (formatFingerprint (JNum <$> l)) EmptyString then JUndefined
  else JArr (parsed_entry <$> l).

(** An integer that is a JavaScript number and that [String] prints
    with all its digits. *)
Definition safe_integer (n : Z) : Prop := - 2 ^ 53 < n < 2 ^ 53.

(** An operation that constructOperationElement can write and
    adaptOperation can read, and the operation that is read: safe
    integers as path, integers as fingerprints, and fragments whose
    exported content is made of non-empty strings, never two in a row,
    and of elements with non-empty tag names. *)
Definition wire_ready (UPDATE_NODE_TYPE UPDATE_FOREST_TYPE : Z) (Fragment : Type)
  (adaptFragment : list Fragment -> bool -> result (list jsval))
  (importFragment : list jsval -> result (list Fragment))
  (op op' : DetachedContextOperation Fragment) : Prop :=
  (op_type _ op = UPDATE_NODE_TYPE \/ op_type _ op = UPDATE_FOREST_TYPE) /\
  exists (p h t : list Z) (cr ci : list jsval) (fr fi : list Fragment),
    Forall safe_integer p /\ op_path _ op = JNum <$> p /\
    op_head _ op = JArr (JNum <$> h) /\ op_tail _ op = JArr (JNum <$> t) /\
    adaptFragment (op_remove _ op) (negb (op_type _ op =? UPDATE_NODE_TYPE))
    = ret cr /\
    adaptFragment (op_insert _ op) (negb (op_type _ op =? UPDATE_NODE_TYPE))
    = ret ci /\
    Forall kept_child cr /\ adjacent_text cr = false /\
    Forall kept_child ci /\ adjacent_text ci = false /\
    importFragment cr = ret fr /\ importFragment ci = ret fi /\
    op' = mkOp Fragment (op_type _ op) (JNum <$> p) fr fi
               (read_back h) (read_back t).

End wire_paths.

(** ** Values in the heap *)

Section heap_values.
Import jmlhandler.

#[export] Instance val_eq_dec : EqDecision val.
Proof. solve_decision. Defined.

End heap_values.

(** ** The command line *)

Section command_line.
Import djdiff.

(** The help switches among what optparse reports. *)
Fixpoint help_switches (found : list parsed) : nat :=
  match found with
  | [] => 0%nat
  | on_help :: rest => S (help_switches rest)
  | _ :: rest => help_switches rest
  end.

End command_line.

(* ===================================================================== *)
(** * Part III.  Properties                                               *)
(* ===================================================================== *)

(** ** Own properties *)

Section own_properties.
Import JS JsonML.

Lemma rbind_ret {A B} (a : A) (k : A -> result B) : rbind (ret a) k = k a.
Proof. reflexivity. Qed.

Lemma has_key_elem key (props : list (string * jsval)) :
  has_key key props = true <-> key ∈ props.*1.
Proof.
  unfold has_key. induction props as [|[k v] props IH]; simpl.
  - rewrite elem_of_nil. split; [done|tauto].
  - rewrite orb_true_iff, IH, elem_of_cons, String.eqb_eq. intuition congruence.
Qed.

Lemma has_key_absent key (props : list (string * jsval)) :
  key ∉ props.*1 -> has_key key props = false.
Proof.
  intros Hkey. destruct (has_key key props) eqn:E; [|done].
  by apply has_key_elem in E.
Qed.

Lemma isAttributes_object v :
  isAttributes v = true -> exists props, v = JObj props.
Proof.
  unfold isAttributes.
  destruct v; simpl; rewrite ?andb_false_r; try done. eauto.
Qed.

Lemma hasOwnProperty_own props k :
  has_key "hasOwnProperty" props = false ->
  hasOwnProperty props k = ret (has_key k props).
Proof. intros Hshadow. unfold hasOwnProperty. by rewrite Hshadow. Qed.

Lemma hasOwnProperty_shadowed props k :
  has_key "hasOwnProperty" props = true ->
  hasOwnProperty props k = throw not_a_function.
Proof. intros Hshadow. unfold hasOwnProperty. by rewrite Hshadow. Qed.


(** On an attribute object without a key [hasOwnProperty] the loop of
    eachAttribute hands over every property; with that key it throws. *)
Lemma eachAttribute_own tag props rest :
  eachAttribute (JArr (JStr tag :: JObj props :: rest))
  = if has_key "hasOwnProperty" props then throw not_a_function else ret props.
Proof.
  unfold eachAttribute, getAttributes, hasAttributes.
  cbn [isElement isArray index lookup list_lookup default from_option typeof
       isAttributes truthy andb negb rbind ret String.eqb Ascii.eqb Bool.eqb id].
  simpl. unfold hasOwnProperty.
  destruct (has_key "hasOwnProperty" props) eqn:Hshadow.
  - destruct props as [|[k v] props]; [done|]. done.
  - assert (forall l : list (string * jsval),
              (forall kv, kv ∈ l -> has_key kv.1 props = true) ->
              (fix each (l : list (string * jsval))
                 : result (list (string * jsval)) :=
                 match l with
                 | [] => ret []
                 | (k, v) :: rest =>
                     let! own := ret (has_key k props) in
                     let! more := each rest in
                     ret (if own then (k, v) :: more else more)
                 end) l = ret l) as Hloop.
    { induction l as [|[k v] l IH]; intros Hown; [done|].
      rewrite IH by (intros kv Hkv; apply Hown; by apply list_elem_of_further).
      specialize (Hown (k, v) (list_elem_of_here _ _)). simpl in Hown.
      simpl. by rewrite Hown. }
    apply Hloop. intros [k v] Hkv. apply has_key_elem.
    by apply (list_elem_of_fmap_2 fst) in Hkv.
Qed.

Lemma assign_stored key v props :
  key <> "__proto__" -> assign key v props = ret (set_prop key v props).
Proof.
  intros Hkey. unfold assign.
  by destruct (String.eqb_spec key "__proto__").
Qed.



End own_properties.

(** ** JsonML.appendChild keeps text children merged *)

Section appendChild_text.
Import JS JsonML.

Lemma adjacent_text_app_false l x :
  adjacent_text l = false ->
  (forall s, x <> JStr s) \/ (forall s, last l <> Some (JStr s)) ->
  adjacent_text (l ++ [x]) = false.
Proof.
  induction l as [|a l IH]; intros Hl Hx; [by destruct x|].
  destruct l as [|b l].
  - destruct a, x; simpl in *; try done.
    destruct Hx as [Hx|Hx]; [by destruct (Hx s0)|by destruct (Hx s)].
  - assert (adjacent_text (b :: l) = false) as Hbl.
    { destruct a, b; simpl in *; done. }
    specialize (IH Hbl Hx).
    destruct a, b; simpl in *; done.
Qed.

Lemma adjacent_text_snoc_text l t u :
  adjacent_text (l ++ [JStr t]) = false ->
  adjacent_text (l ++ [JStr u]) = false.
Proof.
  induction l as [|a l IH]; intros H; [done|].
  destruct l as [|b l].
  - destruct a; simpl in *; done.
  - assert (adjacent_text ((b :: l) ++ [JStr t]) = false) as Hbl.
    { destruct a, b; simpl in *; done. }
    specialize (IH Hbl).
    destruct a, b; simpl in *; done.
Qed.

Lemma last_snoc_inv {A} (l : list A) x :
  last l = Some x -> l = removelast l ++ [x].
Proof.
  intros H. destruct (decide (l = [])) as [->|Hne]; [done|].
  rewrite (app_removelast_last x Hne) at 1.
  f_equal. f_equal.
  rewrite last_lookup in H.
  destruct l as [|a l]; [done|].
  clear Hne. revert a H. induction l as [|b l IH]; intros a H; simpl in *.
  - by injection H.
  - apply IH. exact H.
Qed.

Lemma appendText_keeps parent s :
  adjacent_text (tail parent) = false ->
  adjacent_text (tail (appendText parent s)) = false.
Proof.
  intros H. unfold appendText.
  destruct parent as [|a q].
  { simpl. by destruct (negb (s =? "")%string). }
  destruct q as [|b p].
  { simpl. by destruct (negb (s =? "")%string). }
  replace (1 <? Z.of_nat (length (a :: b :: p))) with true
    by (symmetry; apply Z.ltb_lt; simpl; lia).
  rewrite last_cons_cons. simpl tail in H.
  destruct (negb (s =? "")%string); simpl; [|exact H].
  destruct (last (b :: p)) as [x|] eqn:Hlast.
  - assert (forall y, (forall t, x <> JStr t) ->
              adjacent_text ((b :: p) ++ [y]) = false) as Hpush.
    { intros y Hx. apply adjacent_text_app_false; [exact H|right].
      intros t Ht. apply (Hx t). congruence. }
    destruct x; simpl; try (apply Hpush; done).
    pose proof (last_snoc_inv _ _ Hlast) as Hq.
    change (removelast (a :: b :: p)) with (a :: removelast (b :: p)).
    simpl tail. rewrite Hq in H.
    eapply adjacent_text_snoc_text. exact H.
  - by apply last_None in Hlast.
Qed.

Lemma appendChild_keeps child :
  forall parent,
    adjacent_text (tail parent) = false ->
    adjacent_text (tail (appendChild parent child).1) = false.
Proof.
  induction child as [| | | | | |items IH|props IH] using jsval_nested_ind;
    intros parent H; try exact H; try (apply appendText_keeps; exact H).
  - (* arrays *)
    assert (adjacent_text (tail (parent ++ [JArr items])) = false) as Hpush.
    { destruct parent as [|a parent]; [done|].
      simpl. apply adjacent_text_app_false; [done|by left]. }
    destruct items as [|first rest].
    { simpl. exact H. }
    destruct first as [| | | | |s| |];
      try (simpl; first [exact H | exact Hpush]).
    destruct s as [|c s].
    + (* a fragment *)
      simpl. apply Forall_cons_1 in IH as [_ IH].
      clear Hpush. revert parent H.
      induction rest as [|c rest IHrest]; intros parent H; [exact H|].
      apply Forall_cons_1 in IH as [Hc IH].
      specialize (Hc parent H).
      destruct (appendChild parent c) as [p' [e|]] eqn:Hap; simpl in *.
      * exact Hc.
      * apply IHrest; [exact IH|exact Hc].
    + simpl. exact Hpush.
Qed.

Lemma appended_only_no_adjacent_text parent :
  appended_only parent -> adjacent_text (tail parent) = false.
Proof.
  induction 1; try done. by apply appendChild_keeps.
Qed.

Lemma adjacent_text_drop l n :
  adjacent_text l = false -> adjacent_text (drop n l) = false.
Proof.
  revert l. induction n as [|n IH]; intros l H; [by rewrite drop_0|].
  destruct l as [|a l]; [done|]. simpl. apply IH.
  destruct a, l as [|a' l]; simpl in *; try done; destruct a'; done.
Qed.

(** C10.  appendChild skips [undefined] and [null].  A child that is
    neither of them nor an object is converted to a string; a non-empty
    string is concatenated onto a last child that is a string, an empty
    string is discarded by a parent that has content, and any other string
    is pushed.  An element built only by appendChild therefore never holds
    two string children side by side. *)
Theorem appendChild_merges_text :
  (forall parent,
     appendChild parent JUndefined = (parent, None) /\
     appendChild parent JNull = (parent, None)) /\
  (forall parent child, text_like child = true ->
     let s := ToString child in
     (appendChild parent child).2 = None /\
     (forall init t, parent = init ++ [JStr t] -> init <> [] -> s <> EmptyString ->
        (appendChild parent child).1 = init ++ [JStr (t +:+ s)]) /\
     (parent <> [] -> s = EmptyString -> (appendChild parent child).1 = parent) /\
     (s <> EmptyString ->
      (length parent <= 1)%nat \/ (forall t, last parent <> Some (JStr t)) ->
      (appendChild parent child).1 = parent ++ [JStr s])) /\
  (forall parent, appended_only parent ->
     adjacent_text (tail parent) = false /\
     forall children, getChildren (JArr parent) = ret children ->
                      adjacent_text children = false).
Proof.
  split; [done|]. split.
  - intros parent child Hchild s.
    assert (appendChild parent child = (appendText parent s, None)) as ->.
    { destruct child; done. }
    simpl. split; [done|]. unfold appendText. repeat split.
    + intros init t -> Hinit Hs.
      apply String.eqb_neq in Hs. rewrite Hs.
      rewrite last_snoc, length_app.
      assert ((1 <? Z.of_nat (length init + length [JStr t])) = true) as ->.
      { apply Z.ltb_lt. destruct init; [done|]. simpl. lia. }
      cbn [negb andb default typeof from_option].
      by rewrite String.eqb_refl, removelast_last.
    + intros Hparent ->. simpl. destruct parent; done.
    + intros Hs Hlast. apply String.eqb_neq in Hs. rewrite Hs. simpl.
      destruct Hlast as [Hlen|Hlast].
      * replace (1 <? Z.of_nat (length parent)) with false
          by (symmetry; apply Z.ltb_ge; lia).
        done.
      * destruct (1 <? Z.of_nat (length parent)); [|done]. simpl.
        destruct (last parent) as [x|] eqn:Hx; [|done].
        destruct x; try done. by destruct (Hlast s0).
  - intros parent Hap.
    pose proof (appended_only_no_adjacent_text parent Hap) as Htail.
    split; [exact Htail|].
    intros children Hchildren. unfold getChildren, hasAttributes in Hchildren.
    destruct (negb (isElement (JArr parent))); [done|].
    simpl in Hchildren. injection Hchildren as <-.
    assert (forall n, adjacent_text (drop (S n) parent) = false) as Hdrop.
    { intros n. destruct parent; [done|]. simpl. by apply adjacent_text_drop. }
    destruct (isAttributes _); apply Hdrop.
Qed.

End appendChild_text.

(** ** Matching: put pairs symmetrically and refuses a second partner *)

Section Matching_symmetry.
Import tree.Matching.

Lemma put_success a b (m m' : t) :
  put a b m = ret m' ->
  m !! a = None /\ m !! b = None /\ m' = <[b := a]> (<[a := b]> m).
Proof.
  unfold put. intros H.
  destruct (m !! a) as [x|] eqn:Ha.
  { rewrite bool_decide_eq_true_2 in H by eauto. done. }
  destruct (m !! b) as [y|] eqn:Hb.
  { rewrite (bool_decide_eq_true_2 (is_Some (Some y))) in H by eauto.
    by rewrite orb_true_r in H. }
  rewrite !bool_decide_eq_false_2 in H by (by intros [? ?]).
  simpl in H. by injection H as <-.
Qed.

Lemma put_keeps_symmetric a b (m m' : t) :
  symmetric m -> put a b m = ret m' -> symmetric m'.
Proof.
  intros Hsym Hput. apply put_success in Hput as (Ha & Hb & ->).
  intros x y Hxy.
  destruct (decide (x = b)) as [->|Hxb].
  - rewrite lookup_insert_eq in Hxy. injection Hxy as <-.
    destruct (decide (a = b)) as [->|Hab].
    + by rewrite lookup_insert_eq.
    + by rewrite lookup_insert_ne, lookup_insert_eq.
  - rewrite lookup_insert_ne in Hxy by done.
    destruct (decide (x = a)) as [->|Hxa].
    + rewrite lookup_insert_eq in Hxy. injection Hxy as <-.
      by rewrite lookup_insert_eq.
    + rewrite lookup_insert_ne in Hxy by done.
      pose proof (Hsym _ _ Hxy) as Hyx.
      rewrite !lookup_insert_ne; [done|congruence|congruence].
Qed.

Lemma reachable_symmetric m : reachable m -> symmetric m.
Proof.
  induction 1 as [|a b m m' _ IH Hput].
  - intros a b. by rewrite lookup_empty.
  - by eapply put_keeps_symmetric.
Qed.

(** C3.  On the partner links of any reachable matching: every paired
    node is its partner's partner; [put(a, b)] throws when [a] or [b]
    already has a partner; otherwise it succeeds, and afterwards
    [get(a) = b] and [get(b) = a]. *)
Theorem Matching_put_symmetric (m : t) (a b : nat) :
  reachable m ->
  (forall x y, get m (Some x) = Some y -> get m (get m (Some x)) = Some x) /\
  (is_Some (get m (Some a)) \/ is_Some (get m (Some b)) ->
   put a b m = throw already_matched) /\
  (get m (Some a) = None -> get m (Some b) = None ->
   exists m', put a b m = ret m' /\
              get m' (Some a) = Some b /\ get m' (Some b) = Some a /\
              forall x y, get m' (Some x) = Some y ->
                          get m' (get m' (Some x)) = Some x).
Proof.
  intros Hreach. pose proof (reachable_symmetric m Hreach) as Hsym.
  split; [|split].
  - intros x y Hxy. simpl in *. rewrite Hxy. simpl. by apply Hsym.
  - simpl. unfold put. intros [Ha|Hb].
    + by rewrite bool_decide_eq_true_2.
    + rewrite (bool_decide_eq_true_2 (is_Some (m !! b))) by done.
      by rewrite orb_true_r.
  - simpl. intros Ha Hb.
    exists (<[b := a]> (<[a := b]> m)).
    assert (put a b m = ret (<[b := a]> (<[a := b]> m))) as Hput.
    { unfold put. rewrite Ha, Hb.
      rewrite !bool_decide_eq_false_2 by (by intros [? ?]). done. }
    split; [exact Hput|].
    pose proof (put_keeps_symmetric _ _ _ _ Hsym Hput) as Hsym'.
    assert ((<[b := a]> (<[a := b]> m) : t) !! b = Some a) as Hb'
      by apply lookup_insert_eq.
    split; [by apply Hsym'|]. split; [exact Hb'|].
    intros x y Hxy. rewrite Hxy. simpl. by apply Hsym'.
Qed.

(** Two nodes, paired. *)
Lemma Matching_put_symmetric_witness :
  get {[2%nat := 5%nat; 5%nat := 2%nat]} (get {[2%nat := 5%nat; 5%nat := 2%nat]} (Some 2%nat))
  = Some 2%nat.
Proof.
  assert (reachable {[2%nat := 5%nat; 5%nat := 2%nat]}) as Hreach.
  { eapply (reachable_put 5%nat 2%nat ∅); [apply reachable_empty|].
    unfold put. rewrite !lookup_empty.
    rewrite !bool_decide_eq_false_2 by (by intros [? ?]). simpl.
    by rewrite insert_empty. }
  exact (proj1 (Matching_put_symmetric _ 0%nat 1%nat Hreach) 2%nat 5%nat eq_refl).
Defined.

End Matching_symmetry.

(** ** DocumentOrderIndex: buildAll and get *)

Section DocumentOrderIndex_get.
Import tree tree.DocumentOrderIndex.
Context {D : Type}.

Lemma forEach_document_order {S} (callback : Tree D -> S -> S) t :
  forall s,
    forEach callback t s = fold_left (fun s n => callback n s) (document_order t) s.
Proof.
  induction t as [i d cs IH] using Tree_nested_ind. intros s.
  simpl. generalize (callback (TNode i d cs) s). clear s.
  induction cs as [|c cs IHcs]; intros s; [done|].
  apply Forall_cons_1 in IH as [Hc IH].
  simpl. rewrite fold_left_app, <- Hc. by apply IHcs.
Qed.

Lemma fold_left_push {A} (l acc : list A) :
  fold_left (fun s n => s ++ [n]) l acc = acc ++ l.
Proof.
  revert acc. induction l as [|n l IH]; intros acc; simpl.
  - by rewrite app_nil_r.
  - rewrite IH. by rewrite <- app_assoc.
Qed.

Lemma flatten_document_order (t : Tree D) : flatten t = document_order t.
Proof.
  unfold flatten. rewrite forEach_document_order. apply fold_left_push.
Qed.

(** What the callback of buildAll makes of a list of nodes. *)
Lemma index_nodes (l : list (Tree D)) :
  forall (ns : list (Tree D)) (p : props),
    NoDup (id <$> l) ->
    exists p',
      fold_left (fun s node =>
                   let '(ns, p) := s in (ns ++ [node], <[id node := length ns]> p))
                l (ns, p) = (ns ++ l, p') /\
      (forall i n, l !! i = Some n -> p' !! id n = Some (length ns + i)%nat) /\
      (forall x, x ∉ id <$> l -> p' !! x = p !! x).
Proof.
  induction l as [|a l IH]; intros ns p Hnodup.
  - exists p. simpl. rewrite app_nil_r. split; [done|]. split; [|done].
    intros i n Hi. by rewrite lookup_nil in Hi.
  - rewrite fmap_cons in Hnodup. apply NoDup_cons in Hnodup as [Ha Hnodup].
    destruct (IH (ns ++ [a]) (<[id a := length ns]> p) Hnodup) as (p' & Hfold & Hin & Hout).
    exists p'. simpl. rewrite Hfold, <- app_assoc. split; [done|]. split.
    + intros [|i] n Hi; simpl in Hi.
      * injection Hi as <-. rewrite Hout by done.
        rewrite lookup_insert_eq. f_equal. lia.
      * rewrite (Hin i n Hi), length_app. simpl. f_equal. lia.
    + intros x Hx. apply not_elem_of_cons in Hx as [Hxa Hx].
      rewrite Hout by done. by rewrite lookup_insert_ne.
Qed.

(** C5.  After [buildAll] on a tree whose nodes are distinct objects, the
    index lists the nodes in pre-order, every node [n] of the tree
    satisfies [nodes[n.docorderidx] == n], and [get(ref, offset)] yields
    the node [offset] positions from [ref] in that order, or [undefined]
    when that position is before the first or after the last node. *)
Theorem DocumentOrderIndex_get_offset (root : Tree D) (p0 : props) :
  NoDup (id <$> document_order root) ->
  let ix := (buildAll (new root) p0).1 in
  let p := (buildAll (new root) p0).2 in
  nodes ix = document_order root /\
  (forall n, n ∈ document_order root ->
     exists i, p !! id n = Some i /\ nodes ix !! i = Some n) /\
  (forall (i : nat) n offset, document_order root !! i = Some n ->
     get ix p n (Some offset) =
     ret (if decide (0 <= Z.of_nat i + offset
                     < Z.of_nat (length (document_order root)))
          then document_order root !! Z.to_nat (Z.of_nat i + offset)
          else None)) /\
  (forall n, n ∈ document_order root -> get ix p n None = ret (Some n)).
Proof.
  intros Hnodup.
  destruct (index_nodes (document_order root) [] p0 Hnodup) as (p' & Hfold & Hin & _).
  unfold buildAll, new. cbn [idxcomplete DocumentOrderIndex.root nodes].
  match goal with
  | |- context [forEach ?f ?r ?s] =>
      assert (forEach f r s = ([] ++ document_order root, p')) as ->
        by (rewrite forEach_document_order; exact Hfold)
  end.
  simpl.
  assert (forall (i : nat) n offset, document_order root !! i = Some n ->
            get (mk root true (document_order root)) p' n (Some offset) =
            ret (if decide (0 <= Z.of_nat i + offset
                            < Z.of_nat (length (document_order root)))
                 then document_order root !! Z.to_nat (Z.of_nat i + offset)
                 else None)) as Hget.
  { intros i n offset Hi. unfold get. cbn [idxcomplete nodes default from_option].
    rewrite (Hin i n Hi). simpl. rewrite Hi. simpl.
    unfold same. rewrite Nat.eqb_refl. simpl.
    destruct (Z.of_nat i + offset <? 0) eqn:Hlow.
    + apply Z.ltb_lt in Hlow. rewrite decide_False by lia. done.
    + apply Z.ltb_ge in Hlow.
      destruct (Z.of_nat i + offset <? Z.of_nat (length (document_order root))) eqn:Hhigh.
      * apply Z.ltb_lt in Hhigh. rewrite decide_True by lia. done.
      * apply Z.ltb_ge in Hhigh. rewrite decide_False by lia. done. }
  split; [done|]. split; [|split].
  - intros n Hn. apply list_elem_of_lookup in Hn as [i Hi].
    exists i. split; [|done]. rewrite (Hin i n Hi). done.
  - exact Hget.
  - intros n Hn. apply list_elem_of_lookup in Hn as [i Hi].
    change (get (mk root true (document_order root)) p' n None)
      with (get (mk root true (document_order root)) p' n (Some 0)).
    rewrite (Hget i n 0 Hi).
    apply lookup_lt_Some in Hi as Hlt.
    rewrite decide_True by lia.
    by rewrite Z.add_0_r, Nat2Z.id, Hi.
Qed.

End DocumentOrderIndex_get.

(** ** Node: the invariants append maintains *)

Section Node_invariants.
Import tree.

Lemma append_cells this child (s s' : store) :
  append this child s = ret s' ->
  exists tn cn,
    s !! this = Some tn /\ s !! child = Some cn /\ par cn = None /\
    forall x, s' !! x = appended this child tn x <$> s !! x.
Proof.
  unfold append. intros H.
  destruct (s !! this) as [tn|] eqn:Hthis; [|done].
  destruct (s !! child) as [cn|] eqn:Hchild; [|done].
  destruct (par cn) as [p|] eqn:Hpar.
  { rewrite bool_decide_eq_true_2 in H by eauto. done. }
  rewrite bool_decide_eq_false_2 in H by (by intros [? ?]).
  injection H as <-. exists tn, cn. repeat split; try done.
  intros x. unfold appended.
  rewrite !list_lookup_alter.
  destruct (decide (x = child)) as [Hc|Hc]; destruct (decide (x = this)) as [Ht|Ht]; subst;
    repeat first [rewrite decide_True by done | rewrite decide_False by congruence];
    rewrite ?Hthis, ?Hchild; simpl; try done.
  by destruct (s !! x) as [[]|].
Qed.

Lemma append_preserves this child (s s' : store) :
  append this child s = ret s' ->
  root_depth s /\ parent_link s /\ child_link s ->
  root_depth s' /\ parent_link s' /\ child_link s'.
Proof.
  intros Happ (Hroot & Hpl & Hcl).
  apply append_cells in Happ as (tn & cn & Hthis & Hchild & Hpar & Hs').
  assert (forall x n', s' !! x = Some n' ->
            exists n, s !! x = Some n /\ n' = appended this child tn x n) as Hinv.
  { intros x n' Hx. rewrite Hs' in Hx.
    destruct (s !! x) as [n|]; [|done]. injection Hx as <-. eauto. }
  assert (forall x n, s !! x = Some n ->
            s' !! x = Some (appended this child tn x n)) as Hfwd.
  { intros x n Hx. by rewrite Hs', Hx. }
  split; [|split].
  - intros c n' Hc Hp. apply Hinv in Hc as (n & Hc & ->).
    unfold appended in *. simpl in *. destruct (decide (c = child)); [done|].
    by eapply Hroot.
  - intros c n' p Hc Hp. apply Hinv in Hc as (n & Hc & ->).
    unfold appended in Hp. simpl in Hp.
    destruct (decide (c = child)) as [->|Hne].
    + injection Hp as <-.
      eexists _, _. split; [apply (Hfwd _ _ Hthis)|].
      unfold appended. simpl. rewrite !decide_True by done.
      split; [done|]. by rewrite lookup_app_r, Nat.sub_diag.
    + destruct (Hpl c n p Hc Hp) as (pn & i & Hpn & Hidx & Hci).
      eexists _, i. split; [apply (Hfwd _ _ Hpn)|].
      unfold appended. simpl. rewrite decide_False by done.
      split; [done|].
      destruct (decide (p = this)); [by apply lookup_app_l_Some|done].
  - intros p pn' i c Hp Hi. apply Hinv in Hp as (pn & Hp & ->).
    unfold appended in Hi. simpl in Hi.
    assert (forall j, children pn !! j = Some c ->
              exists n, s' !! c = Some n /\ par n = Some p /\ childidx n = Some j)
      as Hold.
    { intros j Hj. destruct (Hcl p pn j c Hp Hj) as (n & Hc & Hcp & Hcj).
      exists (appended this child tn c n). split; [by apply Hfwd|].
      unfold appended. simpl.
      destruct (decide (c = child)) as [->|Hne]; [|done].
      rewrite Hchild in Hc. injection Hc as <-. congruence. }
    destruct (decide (p = this)) as [->|Hne]; [|by apply Hold].
    rewrite Hthis in Hp. injection Hp as <-.
    apply lookup_app_Some in Hi as [Hi|[Hlen Hi]]; [by apply Hold|].
    apply list_lookup_singleton_Some in Hi as [Hi <-].
    exists (appended this child tn child cn). split; [by apply Hfwd|].
    unfold appended. simpl. rewrite !decide_True by done.
    split; [done|]. f_equal. lia.
Qed.

Lemma new_Node_preserves v d (s : store) :
  root_depth s /\ parent_link s /\ child_link s ->
  root_depth (new_Node v d s).2 /\ parent_link (new_Node v d s).2 /\
  child_link (new_Node v d s).2.
Proof.
  intros (Hroot & Hpl & Hcl). simpl.
  assert (forall x n, (s ++ [mkNode v d 0%nat None None []]) !! x = Some n ->
            s !! x = Some n \/ n = mkNode v d 0%nat None None []) as Hinv.
  { intros x n Hx. apply lookup_app_Some in Hx as [Hx|[_ Hx]]; [by left|].
    apply list_lookup_singleton_Some in Hx as [_ <-]. by right. }
  split; [|split].
  - intros c n Hc Hp. apply Hinv in Hc as [Hc| ->]; [by eapply Hroot|done].
  - intros c n p Hc Hp. apply Hinv in Hc as [Hc| ->]; [|done].
    destruct (Hpl c n p Hc Hp) as (pn & i & Hpn & Hidx & Hci).
    exists pn, i. split; [by apply lookup_app_l_Some|done].
  - intros p pn i c Hp Hi. apply Hinv in Hp as [Hp| ->].
    + destruct (Hcl p pn i c Hp Hi) as (n & Hc & Hcp & Hci).
      exists n. split; [by apply lookup_app_l_Some|done].
    + simpl in Hi. by rewrite lookup_nil in Hi.
Qed.

Lemma built_links topdown s :
  built topdown s -> root_depth s /\ parent_link s /\ child_link s.
Proof.
  induction 1 as [|s v d _ IH|s this child s' _ IH _ Happ].
  - repeat split; intros ? *; by rewrite lookup_nil.
  - by apply new_Node_preserves.
  - by eapply append_preserves.
Qed.

Lemma built_topdown_edges s : built true s -> edge_depth s.
Proof.
  assert (forall s, built true s ->
            forall c n p pn, s !! c = Some n -> s !! p = Some pn ->
                             par n = Some p -> depth n = (depth pn + 1)%nat) as Hpar.
  { clear s. induction 1 as [|s v d Hb IH|s this child s' Hb IH Htd Happ].
    - intros ? *; by rewrite lookup_nil.
    - intros c n p pn Hc Hp Hcp. simpl in *.
      apply lookup_app_Some in Hc as [Hc|[_ Hc]].
      2: { apply list_lookup_singleton_Some in Hc as [_ <-]. done. }
      apply lookup_app_Some in Hp as [Hp|[Hlen Hp]]; [by eapply IH|].
      apply list_lookup_singleton_Some in Hp as [Hp' <-].
      destruct (built_links _ _ Hb) as (_ & Hpl & _).
      destruct (Hpl c n p Hc Hcp) as (pn & i & Hpn & _).
      apply lookup_lt_Some in Hpn. lia.
    - destruct (Htd eq_refl) as [Hne Hleaf].
      destruct (built_links _ _ Hb) as (_ & Hpl & _).
      apply append_cells in Happ as (tn & cn & Hthis & Hchild & Hnopar & Hs').
      rewrite Hchild in Hleaf. injection Hleaf as Hleaf.
      intros c n' p pn' Hc Hp Hcp.
      rewrite Hs' in Hc, Hp.
      destruct (s !! c) as [n|] eqn:Hc0; [|done]. injection Hc as <-.
      destruct (s !! p) as [pn|] eqn:Hp0; [|done]. injection Hp as <-.
      unfold appended in *. simpl in *.
      destruct (decide (c = child)) as [->|Hcne].
      + injection Hcp as <-. rewrite decide_False by done.
        rewrite Hthis in Hp0. by injection Hp0 as <-.
      + destruct (decide (p = child)) as [->|Hpne]; [|by eapply IH].
        destruct (Hpl c n child Hc0 Hcp) as (pn0 & i & Hpn0 & _ & Hi).
        rewrite Hchild in Hpn0. injection Hpn0 as <-.
        by rewrite Hleaf, lookup_nil in Hi. }
  intros Hb c n p pn Hc Hp [Hcp|Hin]; [by eapply Hpar|].
  destruct (built_links _ _ Hb) as (_ & _ & Hcl).
  apply list_elem_of_lookup in Hin as [i Hi].
  destruct (Hcl p pn i c Hp Hi) as (n0 & Hc0 & Hcp & _).
  rewrite Hc in Hc0. injection Hc0 as <-. by eapply Hpar.
Qed.

(** C4, as the code has it.  In every store reached by creating nodes and
    appending: a node without parent has depth 0, every node with a parent
    sits in its parent's children list at its [childidx], and appending a
    node that already has a parent throws.  When moreover every append
    received a child without children of its own, other than the receiver,
    the depth of a child is that of its parent plus one on every edge. *)
Theorem Node_append_invariants (topdown : bool) (s : store) :
  built topdown s ->
  root_depth s /\ parent_link s /\ reparent_fails s /\
  (topdown = true -> edge_depth s).
Proof.
  intros Hb. destruct (built_links _ _ Hb) as (Hroot & Hpl & _).
  split; [exact Hroot|]. split; [exact Hpl|]. split.
  - intros this child c [tn Hthis] Hchild Hpar. unfold append.
    rewrite Hthis, Hchild. by rewrite bool_decide_eq_true_2.
  - intros ->. by apply built_topdown_edges.
Qed.

Lemma built_three_nodes topdown : built topdown three_nodes.
Proof. repeat apply built_new. apply built_nothing. Qed.

Lemma built_bottom_up : built false bottom_up.
Proof.
  apply (built_append false (after (append 1%nat 2%nat three_nodes)) 0%nat 1%nat);
    [|done|reflexivity].
  apply (built_append false three_nodes 1%nat 2%nat); [|done|reflexivity].
  apply built_three_nodes.
Qed.

(** The claim as stated fails on a tree built from the leaves up. *)
Lemma Node_depth_counterexample :
  exists s c n p pn,
    built false s /\ s !! c = Some n /\ s !! p = Some pn /\ par n = Some p /\
    depth n <> (depth pn + 1)%nat.
Proof.
  exists bottom_up, 2%nat.
  eexists _, 1%nat, _.
  split; [apply built_bottom_up|].
  split; [reflexivity|]. split; [reflexivity|]. split; [reflexivity|].
  simpl. lia.
Qed.

Lemma Node_append_invariants_witness :
  root_depth top_down /\ parent_link top_down /\ reparent_fails top_down /\
  (true = true -> edge_depth top_down).
Proof.
  apply (Node_append_invariants true).
  apply (built_append true (after (append 0%nat 1%nat three_nodes)) 1%nat 2%nat);
    [|done|reflexivity].
  apply (built_append true three_nodes 0%nat 1%nat); [|done|reflexivity].
  apply built_three_nodes.
Defined.

End Node_invariants.

(** ** JMLNodeHash: what is fed to the hash *)

Section JMLNodeHash_bytes.
Import JS JsonML jmltree jmltree.JMLNodeHash.




Lemma lookup_set_prop key k v props :
  lookup_prop key (set_prop k v props) =
  if String.eqb k key then v else lookup_prop key props.
Proof.
  induction props as [|[k' w] props IH]; simpl.
  - done.
  - destruct (String.eqb k' k) eqn:Hk'; simpl.
    + apply String.eqb_eq in Hk' as ->. by destruct (String.eqb k key).
    + destruct (String.eqb k' key) eqn:Hkey; [|done].
      apply String.eqb_eq in Hkey as ->.
      by rewrite String.eqb_sym, Hk'.
Qed.

Lemma lookup_assigned (attrs : list (string * jsval)) :
  forall o k v,
    NoDup attrs.*1 -> (k, v) ∈ attrs ->
    lookup_prop k (fold_left (fun o kv => set_prop kv.1 kv.2 o) attrs o) = v.
Proof.
  assert (forall (l : list (string * jsval)) o k,
            k ∉ l.*1 ->
            lookup_prop k (fold_left (fun o kv => set_prop kv.1 kv.2 o) l o)
            = lookup_prop k o) as Hother.
  { induction l as [|[k' w] l IH]; intros o k Hk; [done|].
    rewrite fmap_cons in Hk. apply not_elem_of_cons in Hk as [Hne Hk].
    simpl. rewrite IH by done. rewrite lookup_set_prop.
    destruct (String.eqb k' k) eqn:E; [|done].
    apply String.eqb_eq in E. by destruct Hne. }
  induction attrs as [|[k' w] attrs IH]; intros o k v Hnodup Hin.
  - by apply elem_of_nil in Hin.
  - rewrite fmap_cons in Hnodup. apply NoDup_cons in Hnodup as [Hk' Hnodup].
    apply elem_of_cons in Hin as [Heq|Hin]; simpl.
    + injection Heq as -> ->. rewrite Hother by done.
      by rewrite lookup_set_prop, String.eqb_refl.
    + by apply IH.
Qed.

Lemma getTagName_element tag rest :
  getTagName (JArr (JStr tag :: rest)) = JStr tag.
Proof.
  unfold getTagName. simpl.
  destruct (String.eqb_spec tag "") as [->|]; done.
Qed.

Section any_hash.
Context {HashAlgorithm : HashAlgorithm}.



End any_hash.






End JMLNodeHash_bytes.

(** ** JMLDeltaAdapter: the operation tags *)

Section adaptOperation_tags.
Import JS JsonML JSString jmldelta.
Variables UPDATE_NODE_TYPE UPDATE_FOREST_TYPE : Z.
Variable Fragment : Type.
Variable importFragment : list jsval -> result (list Fragment).

#[local] Abbreviation TYPE_TAGS := (TYPE_TAGS UPDATE_NODE_TYPE UPDATE_FOREST_TYPE).
#[local] Abbreviation type_of_tag := (type_of_tag UPDATE_NODE_TYPE UPDATE_FOREST_TYPE).
#[local] Abbreviation adaptOperation :=
  (adaptOperation UPDATE_NODE_TYPE UPDATE_FOREST_TYPE Fragment importFragment).

Lemma set_prop_keys key k v props :
  key ∈ (set_prop k v props).*1 <-> key = k \/ key ∈ props.*1.
Proof.
  induction props as [|[k' w] props IH]; simpl.
  - rewrite list_elem_of_singleton, elem_of_nil. tauto.
  - destruct (String.eqb_spec k' k) as [->|Hne]; simpl;
      rewrite !elem_of_cons; [tauto|]. rewrite IH. tauto.
Qed.

Lemma TYPE_TAGS_lookup key :
  lookup_prop key TYPE_TAGS =
  if String.eqb "forest" key then JNum UPDATE_FOREST_TYPE
  else if String.eqb "node" key then JNum UPDATE_NODE_TYPE
  else if String.eqb (ToString (JNum UPDATE_FOREST_TYPE)) key then JStr "forest"
  else if String.eqb (ToString (JNum UPDATE_NODE_TYPE)) key then JStr "node"
  else JUndefined.
Proof. unfold jmldelta.TYPE_TAGS. by rewrite !lookup_set_prop. Qed.

Lemma element_tag element :
  isElement element = true -> exists t, getTagName element = JStr t.
Proof.
  unfold isElement, getTagName. destruct element; try done. simpl.
  destruct (items !! 0%nat) as [[]|]; try done. simpl. intros _.
  destruct (negb (s =? "")%string); eauto.
Qed.

Lemma element_path element :
  isElement element = true -> exists v, getAttribute element "path" = ret v.
Proof.
  intros He. unfold getAttribute, hasAttributes. rewrite He. simpl.
  destruct (negb (isAttributes (index element 1))); [eauto|].
  destruct (index element 1); eauto.
Qed.

(** C8.  For an operation element of a patch: the tag [node] is mapped to
    UPDATE_NODE_TYPE and the tag [forest] to UPDATE_FOREST_TYPE, which an
    operation adaptOperation returns then carries; with any other tag
    adaptOperation throws the unsupported-change-type error and returns no
    operation. *)
Theorem adaptOperation_type_tags (element : jsval) :
  isElement element = true ->
  (getTagName element = JStr "node" ->
   type_of_tag element = JNum UPDATE_NODE_TYPE /\
   forall op, adaptOperation element (type_of_tag element) = ret op ->
              op_type _ op = UPDATE_NODE_TYPE) /\
  (getTagName element = JStr "forest" ->
   type_of_tag element = JNum UPDATE_FOREST_TYPE /\
   forall op, adaptOperation element (type_of_tag element) = ret op ->
              op_type _ op = UPDATE_FOREST_TYPE) /\
  (getTagName element <> JStr "node" -> getTagName element <> JStr "forest" ->
   adaptOperation element (type_of_tag element) = throw unsupported).
Proof.
  intros He.
  assert (forall t op, adaptOperation element (JNum t) = ret op -> op_type _ op = t)
    as Hcarried.
  { intros t op. unfold jmldelta.adaptOperation, rbind, ret, throw.
    repeat case_match; try done; intros [= <-]; simpl; congruence. }
  assert (forall key, key ∈ ["node"; "forest"] -> key ∈ TYPE_TAGS.*1) as Hkeys.
  { intros key Hkey. unfold jmldelta.TYPE_TAGS. rewrite !set_prop_keys.
    rewrite !elem_of_cons in Hkey. tauto. }
  split; [|split].
  - intros Htag.
    assert (type_of_tag element = JNum UPDATE_NODE_TYPE) as Htype.
    { unfold jmldelta.type_of_tag, get_member. rewrite Htag. cbn [ToString].
      rewrite bool_decide_eq_true_2 by (apply Hkeys; set_solver).
      by rewrite TYPE_TAGS_lookup. }
    split; [exact Htype|]. rewrite Htype. apply Hcarried.
  - intros Htag.
    assert (type_of_tag element = JNum UPDATE_FOREST_TYPE) as Htype.
    { unfold jmldelta.type_of_tag, get_member. rewrite Htag. cbn [ToString].
      rewrite bool_decide_eq_true_2 by (apply Hkeys; set_solver).
      by rewrite TYPE_TAGS_lookup. }
    split; [exact Htype|]. rewrite Htype. apply Hcarried.
  - intros Hnode Hforest.
    destruct (element_tag element He) as [t Ht].
    destruct (element_path element He) as [path Hpath].
    assert (forall n, type_of_tag element <> JNum n) as Hnonum.
    { intros n. unfold jmldelta.type_of_tag, get_member. rewrite Ht. cbn [ToString].
      repeat case_bool_decide; try done.
      rewrite TYPE_TAGS_lookup.
      destruct (String.eqb_spec "forest" t) as [<-|_]; [by rewrite Ht in Hforest|].
      destruct (String.eqb_spec "node" t) as [<-|_]; [by rewrite Ht in Hnode|].
      repeat case_match; done. }
    unfold jmldelta.adaptOperation. rewrite Hpath. cbn [rbind].
    destruct (type_of_tag element) as [| | |n| | | |]; try done.
    by destruct (Hnonum n).
Qed.

End adaptOperation_tags.

Lemma adaptOperation_type_tags_witness :
  jmldelta.adaptOperation 1 2 jsval ret forest_element
    (jmldelta.type_of_tag 1 2 forest_element)
  = ret (jmldelta.mkOp jsval 2 [JNum 0; JNum 2] [JStr "hello"] [JStr "world"]
           (JArr [JNum 31; JUndefined; JNum 160])
           (JArr [JUndefined; JUndefined])) /\
  jmldelta.op_type jsval
    (jmldelta.mkOp jsval 2 [JNum 0; JNum 2] [JStr "hello"] [JStr "world"]
       (JArr [JNum 31; JUndefined; JNum 160]) (JArr [JUndefined; JUndefined]))
  = 2.
Proof.
  assert (jmldelta.adaptOperation 1 2 jsval ret forest_element
            (jmldelta.type_of_tag 1 2 forest_element)
          = ret (jmldelta.mkOp jsval 2 [JNum 0; JNum 2] [JStr "hello"] [JStr "world"]
                   (JArr [JNum 31; JUndefined; JNum 160])
                   (JArr [JUndefined; JUndefined]))) as Hrun
    by (vm_compute; reflexivity).
  split; [exact Hrun|].
  exact (proj2 (proj1 (proj2 (adaptOperation_type_tags 1 2 jsval ret forest_element
                                eq_refl)) eq_refl) _ Hrun).
Defined.

(** ** Fingerprints on the wire: formatFingerprint and parseContext *)

Section fingerprint_text.
Import JS JsonML JSString jmldelta.

Lemma entry_char_plain c :
  entry_char c = true ->
  is_space c = false /\ Ascii.eqb c ";" = false.
Proof.
  destruct c as [[] [] [] [] [] [] [] []]; vm_compute; intros; try discriminate; auto.
Qed.

Lemma lower_hex_plain c :
  lower_hex c = true ->
  Ascii.eqb c "-" = false /\ Ascii.eqb c "+" = false /\
  Ascii.eqb c "x" = false /\ Ascii.eqb c "X" = false.
Proof.
  destruct c as [[] [] [] [] [] [] [] []]; vm_compute; intros; try discriminate; auto.
Qed.

Lemma hex_digit_lower d : lower_hex (hex_digit d) = true.
Proof.
  destruct d as [|p|p]; try reflexivity.
  do 4 (destruct p as [p|p|]; try reflexivity).
Qed.

Lemma hex_digit_val d : 0 <= d < 16 -> digit_val (hex_digit d) = Some d.
Proof.
  intros Hd. destruct d as [|p|p]; [reflexivity| |lia].
  do 4 (destruct p as [p|p|]; try reflexivity; try lia).
Qed.

Lemma hex_digits_lower fuel :
  forall n acc,
    string_forall lower_hex acc = true ->
    string_forall lower_hex (hex_digits fuel n acc) = true.
Proof.
  induction fuel as [|fuel IH]; intros n acc Hacc; [done|].
  simpl. destruct (n / 16 =? 0).
  - simpl. by rewrite hex_digit_lower.
  - apply IH. simpl. by rewrite hex_digit_lower.
Qed.

Lemma hex_digits_nonempty fuel :
  forall n acc, acc <> EmptyString -> hex_digits fuel n acc <> EmptyString.
Proof.
  induction fuel as [|fuel IH]; intros n acc Hacc; [done|].
  simpl. destruct (n / 16 =? 0); [done|]. by apply IH.
Qed.

(** Reading back the digits written for [n]. *)
Lemma digits_hex_digits fuel :
  forall n rest,
    0 < n < 16 ^ Z.of_nat fuel ->
    digits 16 (hex_digits fuel n rest) None = digits 16 rest (Some n).
Proof.
  induction fuel as [|fuel IH]; intros n rest Hn.
  { simpl in Hn. lia. }
  assert (16 ^ Z.of_nat (S fuel) = 16 * 16 ^ Z.of_nat fuel) as Hpow.
  { rewrite Nat2Z.inj_succ, Z.pow_succ_r by lia. done. }
  assert (digits 16 (String (hex_digit (n mod 16)) rest) (Some (n / 16))
          = digits 16 rest (Some n)) as Hlast.
  { cbn [digits]. rewrite hex_digit_val by (apply Z.mod_pos_bound; lia).
    assert ((n mod 16 <? 16) = true) as ->
      by (apply Z.ltb_lt, Z.mod_pos_bound; lia).
    cbn [default from_option]. do 2 f_equal.
    pose proof (Z.div_mod n 16 ltac:(lia)). unfold id. lia. }
  cbn [hex_digits]. destruct (n / 16 =? 0) eqn:Hq.
  - apply Z.eqb_eq in Hq. rewrite <- Hlast, Hq.
    cbn [digits]. rewrite hex_digit_val by (apply Z.mod_pos_bound; lia).
    assert ((n mod 16 <? 16) = true) as ->
      by (apply Z.ltb_lt, Z.mod_pos_bound; lia).
    done.
  - apply Z.eqb_neq in Hq. rewrite IH; [exact Hlast|].
    assert (0 <= n / 16) by (apply Z.div_pos; lia).
    split; [lia|]. apply Z.div_lt_upper_bound; lia.
Qed.

Lemma hex_fuel n : 0 < n -> n < 16 ^ Z.of_nat (S (Z.to_nat (Z.log2 n))).
Proof.
  intros Hn. rewrite Nat2Z.inj_succ, Z2Nat.id by apply Z.log2_nonneg.
  pose proof (Z.log2_spec n Hn) as [_ Hlt].
  eapply Z.lt_le_trans; [exact Hlt|].
  apply Z.pow_le_mono_l. lia.
Qed.

Lemma hex_shape n :
  exists c s, hex n = String c s /\ lower_hex c = true /\
              string_forall lower_hex s = true.
Proof.
  pose proof (hex_digits_lower (S (Z.to_nat (Z.log2 n))) n EmptyString eq_refl) as Hall.
  fold (hex n) in Hall.
  destruct (hex n) as [|c s] eqn:Hhex.
  - unfold hex in Hhex. cbn [hex_digits] in Hhex.
    destruct (n / 16 =? 0); [done|].
    by apply hex_digits_nonempty in Hhex.
  - simpl in Hall. apply andb_true_iff in Hall as [Hc Hs]. eauto.
Qed.

Lemma digits_hex n : 0 < n -> digits 16 (strip_0x (hex n)) None = Some n.
Proof.
  intros Hn.
  destruct (hex_shape n) as (c & s & Hhex & Hc & Hs).
  assert (strip_0x (hex n) = hex n) as ->.
  { rewrite Hhex. destruct s as [|c1 s]; [done|]. simpl in Hs.
    apply andb_true_iff in Hs as [Hc1 _].
    destruct (lower_hex_plain c1 Hc1) as (_ & _ & Hx & HX).
    cbn [strip_0x]. by rewrite Hx, HX, andb_false_r. }
  unfold hex. rewrite digits_hex_digits by (split; [done|by apply hex_fuel]). done.
Qed.

(** parseInt inverts toString(16) on every integer. *)
Lemma parseInt_toString16 n : parseInt (toString16 n) 16 = JNum n.
Proof.
  unfold toString16.
  destruct (Z.eqb_spec n 0) as [->|Hn0]; [done|].
  destruct (Z.ltb_spec n 0) as [Hneg|Hpos].
  - unfold parseInt. cbn [trim_left].
    assert (is_space "-" = false) as -> by reflexivity.
    assert (Ascii.eqb "-" "-" = true) as -> by reflexivity.
    cbn [Z.eqb Pos.eqb].
    rewrite (digits_hex (- n)) by lia. f_equal. lia.
  - destruct (hex_shape n) as (c & s & Hhex & Hc & Hs).
    destruct (lower_hex_plain c Hc) as (Hminus & Hplus & _ & _).
    assert (entry_char c = true) as Hentry by (unfold entry_char; by rewrite Hc).
    destruct (entry_char_plain c Hentry) as [Hspace _].
    unfold parseInt. rewrite Hhex. cbn [trim_left]. rewrite Hspace, Hminus, Hplus.
    rewrite <- Hhex. cbn [Z.eqb Pos.eqb].
    rewrite (digits_hex n) by lia. f_equal. lia.
Qed.

Lemma string_forall_impl (P Q : ascii -> bool) s :
  (forall c, P c = true -> Q c = true) ->
  string_forall P s = true -> string_forall Q s = true.
Proof.
  intros HPQ. induction s as [|c s IH]; [done|]. simpl.
  rewrite !andb_true_iff. intros [Hc Hs]. auto.
Qed.

Lemma toString16_chars n :
  n <> 0 ->
  string_forall entry_char (toString16 n) = true /\ toString16 n <> EmptyString.
Proof.
  intros Hn. unfold toString16.
  destruct (Z.eqb_spec n 0) as [|_]; [done|].
  assert (forall m, string_forall entry_char (hex m) = true) as Hhex.
  { intros m. destruct (hex_shape m) as (c & s & -> & Hc & Hs). simpl.
    unfold entry_char at 1. rewrite Hc. simpl.
    eapply string_forall_impl; [|exact Hs].
    intros c' Hc'. unfold entry_char. by rewrite Hc'. }
  destruct (n <? 0).
  - split; [|done]. simpl. apply Hhex.
  - split; [apply Hhex|]. by destruct (hex_shape n) as (c & s & -> & _).
Qed.

Lemma trim_plain s :
  string_forall entry_char s = true -> trim s = s.
Proof.
  intros Hs. unfold trim.
  assert (trim_left s = s) as ->.
  { destruct s as [|c s]; [done|]. simpl in *.
    apply andb_true_iff in Hs as [Hc _].
    by destruct (entry_char_plain c Hc) as [-> _]. }
  induction s as [|c s IH]; [done|]. simpl in *.
  apply andb_true_iff in Hs as [Hc Hs].
  destruct (entry_char_plain c Hc) as [-> _]. simpl. by rewrite IH.
Qed.

Lemma split_plain s :
  string_forall entry_char s = true -> split ";" s = [s].
Proof.
  induction s as [|c s IH]; [done|]. simpl.
  rewrite andb_true_iff. intros [Hc Hs].
  destruct (entry_char_plain c Hc) as [_ ->]. by rewrite IH.
Qed.

Lemma split_entry s rest :
  string_forall entry_char s = true ->
  split ";" (s +:+ String ";" rest) = s :: split ";" rest.
Proof.
  induction s as [|c s IH]; [done|]. simpl.
  rewrite andb_true_iff. intros [Hc Hs].
  change (String c s +:+ String ";" rest) with (String c (s +:+ String ";" rest)).
  cbn [split]. destruct (entry_char_plain c Hc) as [_ ->]. by rewrite IH.
Qed.

Lemma split_join (parts : list string) :
  parts <> [] ->
  Forall (fun s => string_forall entry_char s = true) parts ->
  split ";" (join ";" parts) = parts.
Proof.
  induction parts as [|a parts IH]; [done|]. intros _ Hall.
  apply Forall_cons_1 in Hall as [Ha Hall].
  destruct parts as [|b parts].
  - simpl. by apply split_plain.
  - change (join ";" (a :: b :: parts))
      with (a +:+ String ";" (join ";" (b :: parts))).
    rewrite split_entry by done. f_equal. by apply IH.
Qed.

Lemma entry_text_chars n : string_forall entry_char (entry_text n) = true.
Proof.
  unfold entry_text. destruct (Z.eqb_spec n 0) as [|Hn]; [done|].
  by apply toString16_chars.
Qed.

Lemma parse_entry_text n :
  (let component := trim (entry_text n) in
   if negb (String.eqb component EmptyString) then parseInt component 16
   else JUndefined) = parsed_entry n.
Proof.
  cbv zeta. rewrite trim_plain by apply entry_text_chars.
  unfold entry_text, parsed_entry.
  destruct (Z.eqb_spec n 0) as [|Hn]; [done|].
  destruct (toString16_chars n Hn) as [_ Hne].
  apply String.eqb_neq in Hne. rewrite Hne. simpl.
  apply parseInt_toString16.
Qed.

Lemma formatFingerprint_text (l : list Z) :
  formatFingerprint (JNum <$> l) = join ";" (entry_text <$> l).
Proof.
  unfold formatFingerprint. f_equal.
  rewrite <- list_fmap_compose. apply list_fmap_ext.
  intros _ n _. simpl. unfold entry_text. by destruct (n =? 0).
Qed.

Lemma parseContext_text text :
  text <> EmptyString ->
  parseContext (JArr [JStr "context"; JStr text]) =
  ret (JArr (map (fun component =>
                    let component := trim component in
                    if negb (String.eqb component EmptyString)
                    then parseInt component 16
                    else JUndefined)
                 (split ";" text))).
Proof. intros Hne. destruct text; [done|]. reflexivity. Qed.

(** C7, as the code has it.  formatFingerprint joins the entries with
    semicolons, each integer in lowercase hexadecimal and zero as the empty
    string.  parseContext on the context element built from that text
    yields, entry by entry, the integer back, but [undefined] in the place
    of every zero; when the text is empty (no entry, or a single zero) the
    context element holds no text and parseContext yields [undefined]. *)
Theorem fingerprint_wire_roundtrip (l : list Z) :
  let text := formatFingerprint (JNum <$> l) in
  text = join ";" (entry_text <$> l) /\
  (forall n, n ∈ l -> 0 < n ->
     string_forall lower_hex (entry_text n) = true /\
     parseInt (entry_text n) 16 = JNum n) /\
  parseContext (context_element (JNum <$> l)) =
    ret (if String.eqb text EmptyString then JUndefined
         else JArr (parsed_entry <$> l)) /\
  (l <> [] -> Forall (fun n => n <> 0) l ->
     parseContext (context_element (JNum <$> l)) = ret (JArr (JNum <$> l))).
Proof.
  intros text.
  assert (text = join ";" (entry_text <$> l)) as Htext
    by apply formatFingerprint_text.
  assert (parseContext (context_element (JNum <$> l)) =
          ret (if String.eqb text EmptyString then JUndefined
               else JArr (parsed_entry <$> l))) as Hparse.
  { unfold context_element. fold text.
    cbn [appendChild ToString fst]. unfold appendText.
    cbn [length Z.of_nat Z.ltb Z.compare andb Nat.eqb orb].
    rewrite andb_false_r, orb_false_r.
    destruct (String.eqb_spec text EmptyString) as [Hempty|Hne].
    - by rewrite Hempty.
    - cbn [andb negb app]. rewrite parseContext_text by done.
      do 2 f_equal. rewrite Htext.
      rewrite split_join.
      + rewrite <- list_fmap_compose. apply list_fmap_ext.
        intros _ n _. apply parse_entry_text.
      + destruct l; [done|]. done.
      + apply Forall_fmap, Forall_forall. intros n _. apply entry_text_chars. }
  split; [exact Htext|]. split; [|split; [exact Hparse|]].
  - intros n _ Hn. unfold entry_text.
    destruct (Z.eqb_spec n 0) as [|_]; [lia|].
    split; [|apply parseInt_toString16].
    unfold toString16. destruct (Z.eqb_spec n 0) as [|_]; [lia|].
    destruct (Z.ltb_spec n 0) as [|_]; [lia|].
    destruct (hex_shape n) as (c & s & -> & Hc & Hs). simpl. by rewrite Hc.
  - intros Hl Hnz. rewrite Hparse.
    assert (entry_text <$> l = toString16 <$> l) as Hentries.
    { apply list_fmap_ext. intros i n Hi. unfold entry_text.
      destruct (Z.eqb_spec n 0) as [->|]; [|done].
      rewrite Forall_forall in Hnz. destruct (Hnz 0); [|done].
      by eapply list_elem_of_lookup_2. }
    assert (text <> EmptyString) as Hne.
    { rewrite Htext, Hentries. destruct l as [|n l]; [done|].
      apply Forall_cons_1 in Hnz as [Hn _].
      destruct (toString16_chars n Hn) as [_ Hn'].
      destruct l; simpl; [done|].
      destruct (toString16 n); done. }
    apply String.eqb_neq in Hne. rewrite Hne. do 2 f_equal.
    apply list_fmap_ext. intros i n Hi. unfold parsed_entry.
    destruct (Z.eqb_spec n 0) as [->|]; [|done].
    rewrite Forall_forall in Hnz. destruct (Hnz 0); [|done].
    by eapply list_elem_of_lookup_2.
Qed.

(** The array [0, 5] comes back as [undefined, 5]. *)
Lemma fingerprint_zero_counterexample :
  parseContext (context_element [JNum 0; JNum 5])
  = ret (JArr [JUndefined; JNum 5]) /\
  parseContext (context_element [JNum 0; JNum 5])
  <> ret (JArr [JNum 0; JNum 5]).
Proof. split; [by vm_compute|]. vm_compute. congruence. Qed.

End fingerprint_text.

(** ** The JsonML hunks: toggling, and applying a patch *)

Section hunks.
Import tree jmlhandler patching.
Variables UPDATE_NODE_TYPE UPDATE_FOREST_TYPE : Z.

(** C2 on the code: the first toggle of the forest hunk wraps the inserted
    node in an array of its own and puts it in front of the tag name, the
    second toggle does not find the node it inserted and throws, and the
    document does not return to its serialisation. *)
Theorem toggle_twice_not_involutive :
  exists hunk hunk' s',
    text_change_hunk UPDATE_NODE_TYPE UPDATE_FOREST_TYPE
    = ret (hunk, session_of p_hello) /\
    document p_hello (session_of p_hello) = Some p_hello /\
    toggle hunk (session_of p_hello) = ((hunk', s'), None) /\
    document p_hello s' = Some (JArr [JArr [JStr "world"]; JStr "p"]) /\
    toggle hunk' s' = ((hunk', s'), Some not_found) /\
    serialize (doc_heap s') (load p_hello).1
    <> serialize (doc_heap (session_of p_hello)) (load p_hello).1.
Proof.
  unfold text_change_hunk, createOperationHandler.
  rewrite Z.eqb_refl.
  eexists _, _, _. split; [reflexivity|]. split; [reflexivity|].
  split; [reflexivity|]. split; [reflexivity|]. split; [reflexivity|].
  vm_compute. congruence.
Qed.

(** A node-update hunk treats its JsonML nodes as DOM nodes: an array or a
    string has no [ownerDocument], and toggle throws before it changes
    anything. *)
Lemma replace_toggle_throws (hd : JMLNodeReplaceOperationHandler) (s : session) :
  get_property (doc_heap s)
    (if r_state hd then r_changednode hd else r_orignode hd) "ownerDocument"
  = ret VUndefined ->
  toggle (NodeReplace hd) s
  = ((NodeReplace hd, s), Some (TypeError "Cannot read property documentElement")).
Proof.
  intros Howner. unfold toggle, replace_toggle. by rewrite Howner.
Qed.

(** Removing the only item of a list and toggling again: both calls
    return, and the item comes back wrapped, in front of the tag name. *)
Lemma toggle_twice_removal :
  exists hunk hunk' s' hunk'' s'',
    (let! anchor := new_Anchor (Some (tree_of ul_a)) (Some (tree_of ul_a))
                               (Some 0%nat) in
     createForestUpdateOperationHandler anchor 1 []) = ret hunk /\
    toggle hunk (session_of ul_a) = ((hunk', s'), None) /\
    document ul_a s' = Some (JArr [JStr "ul"]) /\
    toggle hunk' s' = ((hunk'', s''), None) /\
    document ul_a s''
    = Some (JArr [JArr [JArr [JStr "li"; JStr "a"]]; JStr "ul"]).
Proof. by eexists _, _, _, _, _. Qed.

(** Inserting an item between two others (scenario 4 of the spec): the
    item lands at the right index, wrapped in an array of its own. *)
Lemma toggle_insert_between :
  exists hunk hunk' s',
    (let! anchor := new_Anchor (Some (tree_of ul_a_c)) (Some (tree_of ul_a_c))
                               (Some 1%nat) in
     createForestUpdateOperationHandler anchor 0 [fragment_of ul_a_c li_b])
    = ret hunk /\
    toggle hunk (session_with ul_a_c li_b) = ((hunk', s'), None) /\
    document ul_a_c s'
    = Some (JArr [JStr "ul"; JArr [JStr "li"; JStr "a"];
                  JArr [JArr [JStr "li"; JStr "b"]];
                  JArr [JStr "li"; JStr "c"]]).
Proof. by eexists _, _, _. Qed.

(** Adding an attribute (scenario 3 of the spec): the node-update hunk is
    created, and its first toggle throws without touching the document. *)
Lemma toggle_node_update_throws :
  exists hd s,
    (let! anchor := new_Anchor (Some (tree_of a_plain)) None None in
     createNodeUpdateOperationHandler anchor (Some (fragment_of a_plain a_href))
                                      (session_with a_plain a_href))
    = ret (NodeReplace hd, s) /\
    toggle (NodeReplace hd) s
    = ((NodeReplace hd, s),
       Some (TypeError "Cannot read property documentElement")).
Proof.
  eexists _, _. split; [reflexivity|].
  by apply replace_toggle_throws.
Qed.

(** C1 on the code: the patch that takes ["p", "hello"] to ["p", "world"],
    applied to ["p", "hello"] through the JsonML handlers, leaves
    [["world"], "p"]. *)
Theorem roundtrip_text_change :
  exists s',
    apply UPDATE_NODE_TYPE UPDATE_FOREST_TYPE (tree_of p_hello)
          (text_change_patch UPDATE_FOREST_TYPE) (session_of p_hello)
    = (s', None) /\
    document p_hello s' = Some (JArr [JArr [JStr "world"]; JStr "p"]) /\
    document p_hello s' <> Some p_world.
Proof.
  unfold text_change_patch. cbn [apply]. unfold resolve, createOperationHandler.
  cbn [jmldelta.op_type jmldelta.op_head jmldelta.op_tail jmldelta.op_path
       jmldelta.op_remove jmldelta.op_insert].
  rewrite !Z.eqb_refl.
  eexists. split; [reflexivity|]. split; [reflexivity|].
  vm_compute. congruence.
Qed.

End hunks.

(** ** djdiff: the patch is never written *)

Section djdiff_output.
Import djdiff.

(** The handlers of main print the usage text for each help switch and
    write no file. *)
Lemma handlers_keep_files (usage : string) (found : list parsed)
  (st : Options * World) :
  files (fold_left (handle usage) found st).2 = files st.2.
Proof.
  revert st. induction found as [|ev found IH]; intros [options w]; [done|].
  simpl. rewrite IH.
  destruct ev as [| | | |[|[|[|[|position]]]] value]; done.
Qed.

(** C9 on the code: whatever the arguments, the files and the libraries,
    a run of the driver leaves every file as it was: the delta is printed
    to the console and saveFile writes nothing. *)
Theorem djdiff_writes_no_patch (Doc TreeT Delta Handler Adapter : Type)
  (parse : list string -> list parsed) (usage : string)
  (mime_lookup : string -> string)
  (parseString : string -> string -> result Doc)
  (adaptDocument : string -> Doc -> result TreeT)
  (compute_delta : TreeT -> TreeT -> result (Delta * string))
  (argv : list string) (w : World) :
  files (main Doc TreeT Delta Handler Adapter parse usage mime_lookup
              parseString adaptDocument compute_delta argv w).1 = files w.
Proof.
  unfold main.
  pose proof (handlers_keep_files usage (parse argv)
                (mkOptions "xml" None None, w)) as Hfiles.
  fold (parse_options parse usage argv w) in Hfiles.
  destruct (parse_options parse usage argv w) as [options w0].
  simpl in Hfiles. rewrite <- Hfiles.
  unfold checkfile, saveFile, loadFile, log.
  repeat case_match; simplify_eq; done.
Qed.

End djdiff_output.

(** ** The theorems at concrete inputs *)

Section examples.
Import JS JsonML tree jmltree jmltree.JMLNodeHash.

(** FNV-1a test vectors. *)
Example fnv1a_empty : fnv132.fnv1a EmptyString = 0x811c9dc5.
Proof. reflexivity. Qed.

Example fnv1a_foobar : fnv132.fnv1a "foobar" = 0xbf9cf968.
Proof. reflexivity. Qed.

Lemma DocumentOrderIndex_get_offset_witness :
  NoDup (id <$> document_order sample_tree) /\
  DocumentOrderIndex.get
    (DocumentOrderIndex.buildAll (DocumentOrderIndex.new sample_tree) ∅).1
    (DocumentOrderIndex.buildAll (DocumentOrderIndex.new sample_tree) ∅).2
    (TNode 2 tt []) (Some 1)
  = ret (Some (TNode 3 tt [])) /\
  DocumentOrderIndex.get
    (DocumentOrderIndex.buildAll (DocumentOrderIndex.new sample_tree) ∅).1
    (DocumentOrderIndex.buildAll (DocumentOrderIndex.new sample_tree) ∅).2
    (TNode 2 tt []) (Some 2)
  = ret None.
Proof.
  assert (NoDup (id <$> document_order sample_tree)) as Hnodup.
  { apply (bool_decide_unpack _). reflexivity. }
  split; [exact Hnodup|]. split.
  - exact (proj1 (proj2 (proj2 (DocumentOrderIndex_get_offset sample_tree ∅ Hnodup)))
             2%nat (TNode 2 tt []) 1 eq_refl).
  - exact (proj1 (proj2 (proj2 (DocumentOrderIndex_get_offset sample_tree ∅ Hnodup)))
             2%nat (TNode 2 tt []) 2 eq_refl).
Defined.


(** ["p"], then the text "a", then the number 3. *)
Lemma appendChild_merges_text_witness :
  (appendChild (appendChild [JStr "p"] (JStr "a")).1 (JNum 3)).1
  = [JStr "p"; JStr "a3"] /\
  adjacent_text
    (tail (appendChild (appendChild [JStr "p"] (JStr "a")).1 (JNum 3)).1) = false.
Proof.
  split; [reflexivity|].
  apply (proj2 (proj2 appendChild_merges_text)).
  apply by_appendChild, by_appendChild, from_tag.
Defined.

End examples.

(** ** JsonML: the accessors and the attribute object *)

Section JsonML_attributes.
Import JS JsonML.

Lemma isElement_items jml :
  isElement jml = true -> exists tag rest, jml = JArr (JStr tag :: rest).
Proof.
  destruct jml as [| | | | | |[|[]]|]; try done. intros _. eauto.
Qed.

Lemma hasAttributes_items tag rest :
  hasAttributes (JArr (JStr tag :: rest))
  = ret (match rest with JObj _ :: _ => true | _ => false end).
Proof.
  unfold hasAttributes, isAttributes.
  destruct rest as [|[] rest]; simpl; rewrite ?andb_false_r; done.
Qed.

(** The merge loop of addAttributes, when the object given has no key
    [hasOwnProperty] or [__proto__]: every property is assigned. *)
Lemma merge_all (new old : list (string * jsval)) :
  "hasOwnProperty" ∉ new.*1 -> "__proto__" ∉ new.*1 ->
  fold_left (fun o kv =>
               let! o := o in
               let! own := hasOwnProperty new kv.1 in
               if own then assign kv.1 kv.2 o else ret o)
            new (ret old)
  = ret (fold_left (fun o kv => set_prop kv.1 kv.2 o) new old).
Proof.
  intros Hshadow Hproto.
  assert (forall l o,
            l ⊆ new ->
            fold_left (fun o kv =>
                         let! o := o in
                         let! own := hasOwnProperty new kv.1 in
                         if own then assign kv.1 kv.2 o else ret o)
                      l (ret o)
            = ret (fold_left (fun o kv => set_prop kv.1 kv.2 o) l o)) as Hloop.
  { induction l as [|[k v] l IH]; intros o Hsub; [done|].
    assert ((k, v) ∈ new) as Hin by (apply Hsub, list_elem_of_here).
    apply (list_elem_of_fmap_2 fst) in Hin. simpl in Hin.
    cbn [fold_left fst snd]. rewrite rbind_ret.
    rewrite hasOwnProperty_own by by apply has_key_absent.
    rewrite rbind_ret, (proj2 (has_key_elem k new)) by done.
    rewrite assign_stored by (intros ->; done).
    apply IH. intros x Hx. by apply Hsub, list_elem_of_further. }
  by apply Hloop.
Qed.

(** With a key [hasOwnProperty] in the object given, the merge loop
    throws in its first round; without, it never throws that error. *)
Lemma merge_shadowed (new old : list (string * jsval)) :
  fold_left (fun o kv =>
               let! o := o in
               let! own := hasOwnProperty new kv.1 in
               if own then assign kv.1 kv.2 o else ret o)
            new (ret old)
  = throw not_a_function
  <-> has_key "hasOwnProperty" new = true.
Proof.
  assert (forall (l : list (string * jsval)) e,
            fold_left (fun o kv =>
                         let! o := o in
                         let! own := hasOwnProperty new kv.1 in
                         if own then assign kv.1 kv.2 o else ret o)
                      l (throw e)
            = throw e) as Hthrown.
  { induction l as [|kv l IH]; intros e; [done|]. simpl. apply IH. }
  destruct (has_key "hasOwnProperty" new) eqn:Hshadow.
  - split; [done|]. intros _.
    destruct new as [|[k v] new]; [done|].
    cbn [fold_left fst]. rewrite rbind_ret, hasOwnProperty_shadowed by done.
    apply Hthrown.
  - split; [|done]. intros Hthrow. exfalso.
    assert (forall (l : list (string * jsval)) acc,
              acc <> throw not_a_function ->
              fold_left (fun o kv =>
                           let! o := o in
                           let! own := hasOwnProperty new kv.1 in
                           if own then assign kv.1 kv.2 o else ret o)
                        l acc
              <> throw not_a_function) as Hother.
    { induction l as [|[k v] l IH]; intros acc Hacc; [done|].
      cbn [fold_left fst snd]. apply IH. destruct acc as [e|o]; [done|].
      cbn [rbind]. rewrite hasOwnProperty_own, rbind_ret by done.
      destruct (has_key k new); [|done].
      unfold assign, throw, ret, not_a_function.
      destruct (String.eqb k "__proto__" && negb (has_key k o)); [|done].
      by destruct v. }
    by apply (Hother new (ret old)).
Qed.

(** X1.  The accessors of an element throw SyntaxError 'invalid JsonML'
    on everything that is no element (no array, or an array whose first
    item is no string).  On an element they return, getChildren and
    eachChild with the same items, except eachAttribute on an attribute
    object with a key hasOwnProperty: it calls the attribute instead of
    the method and throws a TypeError.  setAttribute throws the
    SyntaxError exactly on non-elements, addAttributes also when it is
    given no attribute object; addAttributes throws the TypeError exactly
    when it merges an object with a key hasOwnProperty into the attributes
    of an element. *)
Theorem accessors_reject_non_elements (jml : jsval) (items : list jsval)
  (key : string) (value attr : jsval) :
  (if isElement jml then
     (exists b, hasAttributes jml = ret b) /\
     (exists a, getAttributes jml = ret a) /\
     eachAttribute jml
     = (if has_key "hasOwnProperty" (attribute_object jml)
        then throw not_a_function else ret (attribute_object jml)) /\
     (exists v, getAttribute jml key = ret v) /\
     (exists cs, getChildren jml = ret cs /\ eachChild jml = ret cs)
   else
     hasAttributes jml = throw invalid /\ getAttributes jml = throw invalid /\
     eachAttribute jml = throw invalid /\ getAttribute jml key = throw invalid /\
     getChildren jml = throw invalid /\ eachChild jml = throw invalid) /\
  (setAttribute items key value = throw invalid <->
   isElement (JArr items) = false) /\
  (addAttributes items attr = throw invalid <->
   isElement (JArr items) = false \/ isAttributes attr = false) /\
  (addAttributes items attr = throw not_a_function <->
   isElement (JArr items) = true /\
   isAttributes (index (JArr items) 1) = true /\
   has_key "hasOwnProperty" (own_properties attr) = true).
Proof.
  split; [|split; [|split]].
  - destruct (isElement jml) eqn:Hel.
    + destruct (isElement_items jml Hel) as (tag & rest & ->).
      split; [rewrite hasAttributes_items; eauto|].
      split; [unfold getAttributes; rewrite hasAttributes_items;
              destruct rest as [|[] rest]; simpl; eauto|].
      split.
      { destruct rest as [|x rest]; [done|].
        destruct x;
          try (unfold eachAttribute, getAttributes;
               rewrite hasAttributes_items; reflexivity).
        apply eachAttribute_own. }
      unfold getAttribute, getChildren, eachChild.
      rewrite Hel, hasAttributes_items.
      destruct rest as [|[] rest]; simpl; repeat first [split | eexists].
    + unfold eachAttribute, getAttributes, getAttribute, getChildren, eachChild,
        hasAttributes.
      rewrite Hel. simpl. done.
  - unfold setAttribute, hasAttributes, assign, rbind, ret, throw.
    destruct (isElement (JArr items)) eqn:Hel; simpl; [|by split].
    split; [|done].
    intros H. unfold invalid in H. repeat case_match; simplify_eq.
  - unfold addAttributes.
    destruct (isElement (JArr items)) eqn:Hel; simpl; [|by split; [left|]].
    destruct (isAttributes attr) eqn:Hattr; simpl; [|by split; [right|]].
    split; [|by intros [|]].
    intros H. exfalso.
    destruct items as [|tag [|[] rest]]; try done.
    destruct attr; try done.
    cbn [lookup list_lookup default from_option id] in H.
    match type of H with
    | rbind ?m _ = _ => destruct m as [e|merged] eqn:Hmerge
    end; [|done].
    cbn [rbind] in H. injection H as ->.
    assert (forall (l : list (string * jsval)) acc,
              acc <> throw invalid ->
              fold_left (fun o kv =>
                           let! o := o in
                           let! own := hasOwnProperty props0 kv.1 in
                           if own then assign kv.1 kv.2 o else ret o)
                        l acc
              <> throw invalid) as Hother.
    { induction l as [|[k v] l IH]; intros acc Hacc; [done|].
      simpl. apply IH. destruct acc as [e|o]; [done|].
      unfold hasOwnProperty, assign, rbind, throw, ret, invalid, not_a_function.
      destruct (has_key "hasOwnProperty" props0); [done|].
      destruct (has_key k props0); [|done].
      destruct (String.eqb k "__proto__" && negb (has_key k o)); [|done].
      by destruct v. }
    by apply (Hother props0 (ret props)).
  - unfold addAttributes.
    destruct (isElement (JArr items)) eqn:Hel; simpl; [|by split; [|intros []]].
    destruct (isAttributes attr) eqn:Hattr; simpl.
    2:{ split; [done|]. intros (_ & _ & Hshadow).
        destruct attr; try done. }
    destruct (isAttributes_object _ Hattr) as [new ->].
    destruct items as [|tag [|x rest]]; [done| |].
    { split; [done|]. by intros (_ & ? & _). }
    cbn [index lookup list_lookup default from_option id own_properties].
    destruct (isAttributes x) eqn:Hx.
    + destruct (isAttributes_object _ Hx) as [old ->].
      rewrite <- (merge_shadowed new old).
      match goal with
      | |- context [rbind ?m _] => destruct m as [e|merged]
      end; cbn [rbind]; unfold throw, ret; split.
      * intros [= ->]. by split.
      * by intros (_ & _ & [= ->]).
      * done.
      * by intros (_ & _ & ?).
    + split; [|by intros (_ & ? & _)].
      unfold ret, throw. destruct x; done.
Qed.

Lemma getAttribute_items tag rest key :
  getAttribute (JArr (JStr tag :: rest)) key
  = ret (match rest with
         | JObj props :: _ => lookup_prop key props
         | _ => JUndefined
         end).
Proof.
  unfold getAttribute. rewrite hasAttributes_items.
  by destruct rest as [|[] rest].
Qed.

Lemma getChildren_items tag rest :
  getChildren (JArr (JStr tag :: rest))
  = ret (match rest with
         | JObj _ :: rest' => rest'
         | _ => rest
         end).
Proof.
  unfold getChildren. rewrite hasAttributes_items.
  by destruct rest as [|[] rest].
Qed.

Lemma setAttribute_items tag rest key value :
  key <> "__proto__" ->
  setAttribute (JStr tag :: rest) key value
  = ret (JStr tag ::
         match rest with
         | JObj props :: rest' => JObj (set_prop key value props) :: rest'
         | _ => JObj [(key, value)] :: rest
         end).
Proof.
  intros Hkey. unfold setAttribute. rewrite hasAttributes_items.
  destruct rest as [|[] rest]; rewrite rbind_ret;
    cbn [index lookup list_lookup default from_option]; unfold id;
    rewrite ?assign_stored by done; rewrite ?rbind_ret;
    cbn [set_prop take drop app truthy]; try done;
    by destruct (String.eqb_spec tag "") as [->|].
Qed.

Lemma lookup_prop_absent key props :
  key ∉ props.*1 -> lookup_prop key props = JUndefined.
Proof.
  induction props as [|[k v] props IH]; [done|].
  rewrite fmap_cons. intros [Hne Hk]%not_elem_of_cons. simpl.
  destruct (String.eqb_spec k key) as [->|]; [done|]. by apply IH.
Qed.

(** X2.  setAttribute then getAttribute: on an element the value set is
    the value read, whether the attribute object was there or had to be
    added; the other attributes, the tag name and the children stay as
    they were. *)
Theorem setAttribute_getAttribute (jml : list jsval) (key : string)
  (value : jsval) :
  isElement (JArr jml) = true -> key <> "__proto__" ->
  exists jml',
    setAttribute jml key value = ret jml' /\
    getAttribute (JArr jml') key = ret value /\
    (forall k, k <> key -> not_inherited k ->
       getAttribute (JArr jml') k = getAttribute (JArr jml) k) /\
    getTagName (JArr jml') = getTagName (JArr jml) /\
    getChildren (JArr jml') = getChildren (JArr jml).
Proof.
  intros Hel Hkey. destruct (isElement_items _ Hel) as (tag & rest & [= ->]).
  eexists. split; [by apply setAttribute_items|].
  split; [|split; [|split]].
  - rewrite getAttribute_items.
    destruct rest as [|[] rest]; simpl;
      rewrite ?lookup_set_prop, ?String.eqb_refl; done.
  - intros k Hk _. rewrite !getAttribute_items.
    apply String.eqb_neq in Hk. rewrite String.eqb_sym in Hk.
    destruct rest as [|[] rest]; simpl; rewrite ?lookup_set_prop, ?Hk; done.
  - by rewrite !getTagName_element.
  - rewrite !getChildren_items. by destruct rest as [|[] rest].
Qed.

Lemma lookup_merged (attrs : list (string * jsval)) :
  forall old k,
    k ∉ attrs.*1 ->
    lookup_prop k (fold_left (fun o kv => set_prop kv.1 kv.2 o) attrs old)
    = lookup_prop k old.
Proof.
  induction attrs as [|[k' w] attrs IH]; intros old k Hk; [done|].
  rewrite fmap_cons in Hk. apply not_elem_of_cons in Hk as [Hne Hk].
  simpl. rewrite IH by done. rewrite lookup_set_prop.
  destruct (String.eqb_spec k' k) as [->|]; done.
Qed.

Lemma lookup_prop_in k attrs :
  k ∈ attrs.*1 -> NoDup attrs.*1 -> (k, lookup_prop k attrs) ∈ attrs.
Proof.
  induction attrs as [|[k' w] attrs IH]; [by intros ?%elem_of_nil|].
  rewrite fmap_cons. intros Hin [Hk' Hnodup]%NoDup_cons. simpl.
  destruct (String.eqb_spec k' k) as [->|Hne]; [apply list_elem_of_here|].
  apply list_elem_of_further, IH; [|done].
  apply elem_of_cons in Hin as [->|]; done.
Qed.

(** X3.  addAttributes merges: afterwards every key of the object given
    reads as that object has it, every other key as before, and the tag
    name and the children are untouched. *)
Theorem addAttributes_merges (jml : list jsval) (attrs : list (string * jsval)) :
  isElement (JArr jml) = true -> own_keys attrs ->
  exists jml',
    addAttributes jml (JObj attrs) = ret jml' /\
    (forall k, k ∈ attrs.*1 ->
       getAttribute (JArr jml') k = ret (lookup_prop k attrs)) /\
    (forall k, k ∉ attrs.*1 -> not_inherited k ->
       getAttribute (JArr jml') k = getAttribute (JArr jml) k) /\
    getTagName (JArr jml') = getTagName (JArr jml) /\
    getChildren (JArr jml') = getChildren (JArr jml).
Proof.
  intros Hel (Hnodup & Hproto & Hshadow).
  destruct (isElement_items _ Hel) as (tag & rest & [= ->]).
  assert (exists jml',
            addAttributes (JStr tag :: rest) (JObj attrs) = ret (JStr tag :: jml') /\
            jml' = match rest with
                   | JObj old :: rest' =>
                       JObj (fold_left (fun o kv => set_prop kv.1 kv.2 o) attrs old)
                         :: rest'
                   | _ => JObj attrs :: rest
                   end) as (jml' & -> & ->).
  { unfold addAttributes. rewrite Hel.
    cbn [negb orb isAttributes truthy typeof isArray andb String.eqb Ascii.eqb
         Bool.eqb index lookup list_lookup default from_option id].
    destruct rest as [|[] rest];
      cbn [lookup list_lookup default from_option id];
      rewrite ?merge_all by done; cbn [rbind ret take drop app truthy];
      try (eexists; split; [|done]);
      try by destruct (String.eqb_spec tag "") as [->|]. }
  eexists. split; [done|]. split; [|split; [|split]].
  - intros k Hk. rewrite getAttribute_items. f_equal.
    destruct rest as [|[] rest]; try done.
    apply lookup_assigned; [done|]. by apply lookup_prop_in.
  - intros k Hk _. rewrite !getAttribute_items. f_equal.
    destruct rest as [|[] rest]; try by apply lookup_prop_absent.
    by apply lookup_merged.
  - by rewrite !getTagName_element.
  - rewrite !getChildren_items. by destruct rest as [|[] rest].
Qed.

Lemma setAttribute_getAttribute_witness :
  exists jml',
    setAttribute [JStr "a"; JStr "t"] "href" (JStr "x") = ret jml' /\
    getAttribute (JArr jml') "href" = ret (JStr "x") /\
    (forall k, k <> "href" -> not_inherited k ->
       getAttribute (JArr jml') k = getAttribute (JArr [JStr "a"; JStr "t"]) k) /\
    getTagName (JArr jml') = getTagName (JArr [JStr "a"; JStr "t"]) /\
    getChildren (JArr jml') = getChildren (JArr [JStr "a"; JStr "t"]).
Proof.
  apply (setAttribute_getAttribute [JStr "a"; JStr "t"] "href" (JStr "x"));
    [reflexivity|discriminate].
Defined.

Lemma addAttributes_merges_witness :
  exists jml',
    addAttributes [JStr "a"; JObj [("id", JStr "1")]; JStr "t"]
                  (JObj [("href", JStr "x"); ("id", JStr "2")]) = ret jml' /\
    (forall k, k ∈ [("href", JStr "x"); ("id", JStr "2")].*1 ->
       getAttribute (JArr jml') k
       = ret (lookup_prop k [("href", JStr "x"); ("id", JStr "2")])) /\
    (forall k, k ∉ [("href", JStr "x"); ("id", JStr "2")].*1 -> not_inherited k ->
       getAttribute (JArr jml') k
       = getAttribute (JArr [JStr "a"; JObj [("id", JStr "1")]; JStr "t"]) k) /\
    getTagName (JArr jml')
    = getTagName (JArr [JStr "a"; JObj [("id", JStr "1")]; JStr "t"]) /\
    getChildren (JArr jml')
    = getChildren (JArr [JStr "a"; JObj [("id", JStr "1")]; JStr "t"]).
Proof.
  apply (addAttributes_merges [JStr "a"; JObj [("id", JStr "1")]; JStr "t"]
                              [("href", JStr "x"); ("id", JStr "2")]);
    [reflexivity|].
  repeat split; apply (bool_decide_unpack _); reflexivity.
Defined.

End JsonML_attributes.

(** ** JsonML.clone *)

Section JsonML_clone.
Import JS JsonML.

Lemma eachAttribute_attributes tag rest :
  eachAttribute (JArr (JStr tag :: rest))
  = if has_key "hasOwnProperty" (attributes rest) then throw not_a_function
    else ret (attributes rest).
Proof.
  destruct rest as [|x rest]; [done|].
  destruct x;
    try (unfold eachAttribute, getAttributes;
         rewrite hasAttributes_items; reflexivity).
  apply eachAttribute_own.
Qed.

(** clone on an element, step by step. *)
Lemma clone_element tag rest deep :
  "hasOwnProperty" ∉ (attributes rest).*1 ->
  clone (JArr (JStr tag :: rest)) deep =
  let! cloned :=
    fold_left (fun acc kv => let! cloned := acc in setAttribute cloned kv.1 kv.2)
              (attributes rest) (ret [JStr tag]) in
  if deep then append_clones deep (child_items rest) cloned
  else ret (JArr cloned).
Proof.
  intros Hshadow. cbn [clone]. rewrite getTagName_element.
  rewrite eachAttribute_attributes, has_key_absent by done.
  rewrite rbind_ret.
  destruct (fold_left _ (attributes rest) (ret [JStr tag])) as [e|cloned];
    [done|].
  cbn [rbind].
  destruct deep; [|done].
  unfold child_items, isAttributes.
  destruct rest as [|[] rest]; simpl; rewrite ?andb_false_r; reflexivity.
Qed.

Lemma set_prop_fresh k v (props : list (string * jsval)) :
  k ∉ props.*1 -> set_prop k v props = props ++ [(k, v)].
Proof.
  induction props as [|[k' w] props IH]; [done|].
  rewrite fmap_cons. intros [Hne Hk]%not_elem_of_cons. simpl.
  destruct (String.eqb_spec k' k) as [->|]; [done|]. by rewrite IH.
Qed.

(** Copying the attributes one by one gives the attribute object back. *)
Lemma copy_attributes tag (props : list (string * jsval)) :
  NoDup props.*1 -> "__proto__" ∉ props.*1 ->
  fold_left (fun acc kv => let! cloned := acc in setAttribute cloned kv.1 kv.2)
            props (ret [JStr tag])
  = ret (JStr tag :: match props with [] => [] | _ => [JObj props] end).
Proof.
  assert (forall (l done : list (string * jsval)),
            NoDup (done ++ l).*1 -> "__proto__" ∉ l.*1 ->
            fold_left (fun acc kv =>
                         let! cloned := acc in setAttribute cloned kv.1 kv.2)
                      l (ret [JStr tag; JObj done])
            = ret [JStr tag; JObj (done ++ l)]) as Hrest.
  { induction l as [|[k v] l IH]; intros done Hnodup Hproto.
    - by rewrite app_nil_r.
    - rewrite fmap_cons in Hproto.
      apply not_elem_of_cons in Hproto as [Hk Hproto].
      assert (k ∉ done.*1) as Hfresh.
      { rewrite fmap_app, fmap_cons in Hnodup.
        apply NoDup_app in Hnodup as (_ & Hdis & _).
        intros Hin. apply (Hdis k Hin). apply list_elem_of_here. }
      change (fold_left (fun acc kv =>
                           let! cloned := acc in setAttribute cloned kv.1 kv.2)
                        l (setAttribute [JStr tag; JObj done] k v)
              = ret [JStr tag; JObj (done ++ (k, v) :: l)]).
      rewrite setAttribute_items, set_prop_fresh by done.
      rewrite IH; [by rewrite <- app_assoc|by rewrite <- app_assoc|done]. }
  intros Hnodup Hproto. destruct props as [|[k v] props]; [done|].
  rewrite fmap_cons in Hproto. apply not_elem_of_cons in Hproto as [Hk Hproto].
  change (fold_left (fun acc kv =>
                       let! cloned := acc in setAttribute cloned kv.1 kv.2)
                    props (setAttribute [JStr tag] k v)
          = ret [JStr tag; JObj ((k, v) :: props)]).
  rewrite setAttribute_items by done. exact (Hrest props [(k, v)] Hnodup Hproto).
Qed.

Lemma appendText_push cloned s :
  s <> EmptyString -> no_merge cloned ->
  appendText cloned s = cloned ++ [JStr s].
Proof.
  intros Hs Hno. unfold appendText, no_merge in *.
  apply String.eqb_neq in Hs. rewrite Hs. simpl.
  by rewrite Hno.
Qed.

Lemma appendChild_element cloned t r :
  t <> EmptyString ->
  appendChild cloned (JArr (JStr t :: r)) = (cloned ++ [JArr (JStr t :: r)], None).
Proof. destruct t; done. Qed.

Lemma canonical_children (cs : list jsval) :
  (fix each (cs : list jsval) : Prop :=
     match cs with
     | [] => True
     | c :: cs' =>
         match c with
         | JStr s => s <> EmptyString
         | JArr (JStr t :: _) => t <> EmptyString /\ canonical c
         | _ => False
         end /\ each cs'
     end) cs <-> Forall canonical_child cs.
Proof.
  induction cs as [|c cs IH]; [by split|].
  rewrite Forall_cons, <- IH. done.
Qed.

Lemma canonical_element tag rest :
  canonical (JArr (JStr tag :: rest)) <->
  (attributes rest <> [] \/ child_items rest = rest) /\
  own_keys (attributes rest) /\
  adjacent_text (child_items rest) = false /\
  Forall canonical_child (child_items rest).
Proof.
  cbn [canonical]. rewrite canonical_children.
  assert (own_keys []) as Hnil
    by (split; [constructor|split; by intros ?%elem_of_nil]).
  destruct rest as [|[] rest]; simpl; try tauto.
  split.
  - intros ([? ?] & ? & ?). eauto.
  - intros ([?|Heq] & ? & ? & ?); [done|].
    exfalso. apply (f_equal length) in Heq. simpl in Heq. lia.
Qed.

Lemma append_clones_canonical (cs : list jsval) :
  forall cloned,
    Forall (fun c => canonical c -> clone c true = ret c) cs ->
    Forall canonical_child cs -> adjacent_text cs = false ->
    (forall s cs', cs = JStr s :: cs' -> no_merge cloned) ->
    append_clones true cs cloned = ret (JArr (cloned ++ cs)).
Proof.
  induction cs as [|c cs IH]; intros cloned Hclone Hcs Hadj Hno.
  - by rewrite app_nil_r.
  - apply Forall_cons_1 in Hclone as [Hc Hclone].
    apply Forall_cons_1 in Hcs as [Hchild Hcs].
    assert (canonical c) as Hcanon.
    { destruct c as [| | | | |s|[|[] r]|]; try done. by destruct Hchild. }
    cbn [append_clones]. rewrite (Hc Hcanon). cbn [rbind ret].
    assert (appendChild cloned c = (cloned ++ [c], None)) as ->.
    { destruct c as [| | | | |s|[|[] r]|]; try done.
      - cbn [appendChild ToString]. f_equal. apply appendText_push; [done|].
        by eapply Hno.
      - destruct Hchild as [Ht _]. by apply appendChild_element. }
    rewrite (IH (cloned ++ [c])); [by rewrite <- app_assoc|done|done| |].
    + destruct c as [| | | | |s|[|[] r]|]; try done; destruct cs as [|[]]; done.
    + intros s cs' ->. unfold no_merge. rewrite last_snoc. simpl.
      destruct c as [| | | | |s'|[|[] r]|]; try done.
      all: by rewrite andb_false_r.
Qed.

(** X4.  A deep clone of a string, or of an element in the form
    [canonical] describes, is a copy with the same content: the same tag
    names, attributes and children all the way down. *)
Theorem clone_deep_canonical (jml : jsval) :
  canonical jml -> clone jml true = ret jml.
Proof.
  induction jml as [| | | | |s|items IH|props _] using jsval_nested_ind;
    try done.
  destruct items as [|[] rest]; try done.
  intros (Hattrs & Hown & Hadj & Hcs)%canonical_element.
  rewrite clone_element, copy_attributes by apply Hown. cbn [rbind ret].
  apply Forall_cons_1 in IH as [_ IH].
  rewrite append_clones_canonical; try done.
  - f_equal. f_equal. destruct rest as [|[] rest]; try done.
    destruct Hattrs as [Hne|Heq]; [by destruct props|].
    exfalso. apply (f_equal length) in Heq. simpl in Heq. lia.
  - destruct rest as [|[] rest]; try done.
    by apply Forall_cons_1 in IH as [_ IH].
  - intros s' cs' Hcs'. unfold no_merge.
    destruct (attributes rest) as [|kv props] eqn:Hprops; [done|].
    by destruct rest as [|[] rest].
Qed.

(** X5.  A shallow clone of an element is a new element with the same tag
    name and the same attributes, and no children; an empty attribute
    object is not copied. *)
Theorem clone_shallow_copy (tag : string) (rest : list jsval) :
  own_keys (attributes rest) ->
  clone (JArr (JStr tag :: rest)) false
  = ret (JArr (JStr tag :: match attributes rest with
                           | [] => []
                           | props => [JObj props]
                           end)).
Proof.
  intros (Hnodup & Hproto & Hshadow).
  rewrite clone_element, copy_attributes by done.
  by destruct (attributes rest).
Qed.

Lemma clone_deep_canonical_witness :
  clone (JArr [JStr "ul"; JObj [("class", JStr "c")];
               JArr [JStr "li"; JStr "a"]; JStr "t"]) true
  = ret (JArr [JStr "ul"; JObj [("class", JStr "c")];
               JArr [JStr "li"; JStr "a"]; JStr "t"]).
Proof.
  apply clone_deep_canonical. cbn [canonical adjacent_text].
  repeat split; try discriminate; apply (bool_decide_unpack _); reflexivity.
Defined.

Lemma clone_shallow_copy_witness :
  clone (JArr [JStr "a"; JObj [("href", JStr "x")]; JStr "t"]) false
  = ret (JArr [JStr "a"; JObj [("href", JStr "x")]]).
Proof.
  apply (clone_shallow_copy "a" [JObj [("href", JStr "x")]; JStr "t"]).
  repeat split; apply (bool_decide_unpack _); reflexivity.
Defined.

End JsonML_clone.

(** ** tree.Node: the traversals *)

Section traversals.
Import tree tree.DocumentOrderIndex.
Context {D : Type}.

Lemma post_order_permutation (t : Tree D) : post_order t ≡ₚ document_order t.
Proof.
  induction t as [i d cs IH] using Tree_nested_ind. simpl.
  rewrite <- Permutation_cons_append. constructor.
  induction cs as [|c cs IHcs]; [done|].
  apply Forall_cons_1 in IH as [Hc IH]. simpl.
  by rewrite Hc, (IHcs IH).
Qed.

Lemma forEachPostorder_post_order {S} (callback : Tree D -> S -> S) t :
  forall s,
    forEachPostorder callback t s
    = fold_left (fun s n => callback n s) (post_order t) s.
Proof.
  induction t as [i d cs IH] using Tree_nested_ind. intros s.
  cbn [forEachPostorder post_order]. rewrite fold_left_app. simpl. f_equal.
  revert s. induction cs as [|c cs IHcs]; intros s; [done|].
  apply Forall_cons_1 in IH as [Hc IH].
  simpl. rewrite fold_left_app, <- Hc. by apply IHcs.
Qed.

(** X6.  The traversals of a node visit the same nodes: forEach in
    document order, forEachDescendant in document order without the node
    itself, forEachPostorder a rearrangement of document order that ends
    with the node itself; [size] counts them and [flatten] lists them. *)
Theorem traversals_agree {S} (callback : Tree D -> S -> S) (t : Tree D) (s : S) :
  forEach callback t s
  = fold_left (fun s n => callback n s) (document_order t) s /\
  forEachDescendant callback t s
  = fold_left (fun s n => callback n s) (tail (document_order t)) s /\
  forEachPostorder callback t s
  = fold_left (fun s n => callback n s) (post_order t) s /\
  post_order t ≡ₚ document_order t /\
  last (post_order t) = Some t /\
  flatten t = document_order t /\
  size t = length (document_order t).
Proof.
  split; [apply forEach_document_order|]. split; [|split; [|split; [|split; [|split]]]].
  - destruct t as [i d cs]. unfold forEachDescendant. simpl.
    revert s. induction cs as [|c cs IH]; intros s; [done|].
    simpl. by rewrite fold_left_app, <- forEach_document_order.
  - apply forEachPostorder_post_order.
  - apply post_order_permutation.
  - destruct t as [i d cs]. simpl. apply last_snoc.
  - apply flatten_document_order.
  - unfold size. rewrite forEach_document_order.
    generalize (document_order t). intros l.
    assert (forall n, fold_left (fun s _ => Datatypes.S s) l n = (n + length l)%nat) as ->;
      [|done].
    induction l as [|x l IH]; intros n; simpl; [lia|]. rewrite IH. lia.
Qed.

End traversals.

(** ** GenerationIndex *)

Section GenerationIndex_build.
Import tree.
Context {D : Type}.
Variable node_depth : Tree D -> nat.

#[local] Abbreviation G := generation_of.
#[local] Abbreviation built_subtree := (built_subtree node_depth).

Lemma elem_of_flat_map {A B} (f : A -> list B) (l : list A) (y : B) :
  y ∈ flat_map f l <-> exists x, x ∈ l /\ y ∈ f x.
Proof.
  rewrite list_elem_of_In, in_flat_map. setoid_rewrite list_elem_of_In. done.
Qed.

Lemma generation_subtree d (t n : Tree D) :
  n ∈ generation d t -> n ∈ document_order t.
Proof.
  revert t. induction d as [|d IH]; intros t.
  - simpl. intros ->%list_elem_of_singleton. destruct t. apply list_elem_of_here.
  - destruct t as [i x cs]. simpl.
    intros (c & Hc & Hn)%elem_of_flat_map.
    apply list_elem_of_further, elem_of_flat_map.
    exists c. split; [done|]. by apply IH.
Qed.

Lemma generation_beyond (t : Tree D) :
  forall d, (height t <= d)%nat -> generation d t = [].
Proof.
  induction t as [i x cs IH] using Tree_nested_ind. intros [|d] Hd; [simpl in Hd; lia|].
  simpl in *. induction cs as [|c cs IHcs]; [done|].
  apply Forall_cons_1 in IH as [Hc IH]. simpl in *.
  rewrite Hc by lia. rewrite IHcs; [done|done|lia].
Qed.

Lemma generation_within (t : Tree D) :
  forall d, (d < height t)%nat -> generation d t <> [].
Proof.
  induction t as [i x cs IH] using Tree_nested_ind. intros [|d] Hd; [done|].
  simpl in *. induction cs as [|c cs IHcs]; [simpl in Hd; lia|].
  apply Forall_cons_1 in IH as [Hc IH]. simpl in *.
  destruct (decide (d < height c)%nat) as [Hlt|Hge].
  - specialize (Hc d Hlt). by destruct (generation d c).
  - intros [_ Hrest]%app_eq_nil. revert Hrest. apply IHcs; [done|lia].
Qed.

Lemma subtree_consistent (t c : Tree D) :
  c ∈ tchildren t -> depths_consistent node_depth t ->
  depths_consistent node_depth c.
Proof.
  intros Hc Ht p x Hp Hx. apply Ht; [|done].
  destruct t as [i d cs]. simpl in *.
  apply list_elem_of_further, elem_of_flat_map. eauto.
Qed.

Lemma buildSubtree_unfold i x cs (ix : GenerationIndex.t D) p :
  GenerationIndex.buildSubtree node_depth (TNode i x cs) (ix, p) =
  let depth := GenerationIndex.relative_depth node_depth ix (TNode i x cs) in
  let ix :=
    if Z.of_nat (length (GenerationIndex.generations ix)) =? depth
    then GenerationIndex.mk (GenerationIndex.root ix)
           (GenerationIndex.generations ix ++ [[]])
           (GenerationIndex.assign (Z.to_nat depth) true (GenerationIndex.gencomplete ix))
           (GenerationIndex.idxcomplete ix)
    else ix in
  match GenerationIndex.generation_at ix depth with
  | None => ((ix, p), Some GenerationIndex.no_generation)
  | Some generation =>
      build_children node_depth cs
        (GenerationIndex.mk (GenerationIndex.root ix)
           (<[Z.to_nat depth := (generation ++ [TNode i x cs])]>
              (GenerationIndex.generations ix))
           (GenerationIndex.gencomplete ix) (GenerationIndex.idxcomplete ix),
         <[i := length generation]> p)
  end.
Proof. reflexivity. Qed.

Lemma G_insert (gens : list (list (Tree D))) k v j :
  (k < length gens)%nat ->
  G (<[k := v]> gens) j = if decide (j = k) then v else G gens j.
Proof.
  intros Hk. unfold G. destruct (decide (j = k)) as [->|Hne].
  - by rewrite list_lookup_insert_eq.
  - by rewrite list_lookup_insert_ne.
Qed.

Lemma G_beyond (gens : list (list (Tree D))) j :
  (length gens <= j)%nat -> G gens j = [].
Proof. intros Hj. unfold G. by rewrite lookup_ge_None_2. Qed.

Lemma build_children_spec (root : Tree D) (cs : list (Tree D)) :
  Forall (built_subtree root) cs ->
  forall (k : nat) gens gc ic (p : GenerationIndex.props),
    (forall c, c ∈ cs -> node_depth c = (node_depth root + k)%nat) ->
    (k <= length gens)%nat ->
    (forall c, c ∈ cs -> depths_consistent node_depth c) ->
    NoDup (id <$> flat_map document_order cs) ->
    exists gens' gc' p',
      build_children node_depth cs (GenerationIndex.mk root gens gc ic, p)
      = ((GenerationIndex.mk root gens' gc' ic, p'), None) /\
      length gens' = Nat.max (length gens) (k + tallest cs) /\
      (forall j, G gens' j
                 = G gens j ++ if decide (k <= j)%nat
                               then flat_map (generation (j - k)) cs else []) /\
      (forall d i n, flat_map (generation d) cs !! i = Some n ->
         p' !! id n = Some (length (G gens (k + d)) + i)%nat) /\
      (forall x, x ∉ id <$> flat_map document_order cs -> p' !! x = p !! x).
Proof.
  induction cs as [|c cs IH]; intros Hcs k gens gc ic p Hdepth Hk Hcons Hnodup.
  - exists gens, gc, p. split; [done|]. split; [simpl; lia|]. split; [|split].
    + intros j. simpl. destruct (decide _); by rewrite app_nil_r.
    + intros d i n. simpl. by rewrite lookup_nil.
    + done.
  - apply Forall_cons_1 in Hcs as [Hc Hcs].
    simpl in Hnodup. rewrite fmap_app in Hnodup.
    apply NoDup_app in Hnodup as (Hnodup_c & Hdisjoint & Hnodup_cs).
    destruct (Hc k gens gc ic p) as (gens1 & gc1 & p1 & Hrun1 & Hlen1 & HG1 & Hp1 & Hframe1);
      [apply Hdepth, list_elem_of_here|done|apply Hcons, list_elem_of_here|done|].
    destruct (IH Hcs k gens1 gc1 ic p1) as (gens2 & gc2 & p2 & Hrun2 & Hlen2 & HG2 & Hp2 & Hframe2).
    { intros c' Hc'. by apply Hdepth, list_elem_of_further. }
    { lia. }
    { intros c' Hc'. by apply Hcons, list_elem_of_further. }
    { done. }
    exists gens2, gc2, p2. split; [|split; [|split; [|split]]].
    + cbn [build_children]. rewrite Hrun1. exact Hrun2.
    + rewrite Hlen2, Hlen1. simpl. lia.
    + intros j. rewrite HG2, HG1. simpl.
      destruct (decide (k <= j)%nat); by rewrite <- app_assoc.
    + intros d i n. simpl. intros Hn.
      destruct (decide (i < length (generation d c))%nat) as [Hlt|Hge].
      * rewrite lookup_app_l in Hn by done.
        rewrite Hframe2; [by apply Hp1|].
        intros Hin. apply (Hdisjoint (id n)); [|done].
        apply list_elem_of_fmap. exists n. split; [done|].
        apply (generation_subtree d). by eapply list_elem_of_lookup_2.
      * rewrite lookup_app_r in Hn by lia.
        rewrite (Hp2 d _ n Hn), HG1, length_app.
        rewrite decide_True by lia. replace (k + d - k)%nat with d by lia.
        f_equal. lia.
    + intros y Hy. simpl in Hy. rewrite fmap_app in Hy. apply not_elem_of_app in Hy as [Hyc Hycs].
      rewrite Hframe2 by done. by apply Hframe1.
Qed.

Lemma buildSubtree_spec (root node : Tree D) : built_subtree root node.
Proof.
  induction node as [i x cs IH] using Tree_nested_ind.
  intros k gens gc ic p Hdepth Hk Hcons Hnodup.
  rewrite buildSubtree_unfold.
  assert (GenerationIndex.relative_depth node_depth
            (GenerationIndex.mk root gens gc ic) (TNode i x cs) = Z.of_nat k) as Hrel.
  { unfold GenerationIndex.relative_depth. cbn [GenerationIndex.root]. lia. }
  cbn zeta. rewrite Hrel. cbn [GenerationIndex.generations GenerationIndex.root
    GenerationIndex.gencomplete GenerationIndex.idxcomplete].
  set (gens1 := if Z.of_nat (length gens) =? Z.of_nat k then gens ++ [[]] else gens).
  set (gc1 := if Z.of_nat (length gens) =? Z.of_nat k
              then GenerationIndex.assign (Z.to_nat (Z.of_nat k)) true gc else gc).
  assert ((if Z.of_nat (length gens) =? Z.of_nat k
           then GenerationIndex.mk root (gens ++ [[]])
                  (GenerationIndex.assign (Z.to_nat (Z.of_nat k)) true gc) ic
           else GenerationIndex.mk root gens gc ic)
          = GenerationIndex.mk root gens1 gc1 ic) as ->.
  { unfold gens1, gc1. by destruct (_ =? _). }
  assert (length gens1 = Nat.max (length gens) (k + 1) /\
          gens1 !! k = Some (G gens k) /\
          forall j, G gens1 j = G gens j) as (Hlen1 & Hat & HG1).
  { unfold gens1. destruct (Z.eqb_spec (Z.of_nat (length gens)) (Z.of_nat k)) as [Heq|Hne].
    - apply Nat2Z.inj in Heq. subst k. split; [rewrite length_app; simpl; lia|]. split.
      + rewrite lookup_app_r by lia. rewrite Nat.sub_diag. simpl.
        by rewrite G_beyond.
      + intros j. unfold G.
        destruct (decide (j < length gens)%nat) as [Hlt|Hge].
        * by rewrite lookup_app_l.
        * rewrite lookup_app_r by lia. rewrite (lookup_ge_None_2 gens) by lia.
          by destruct (j - length gens)%nat as [|[|]].
    - assert (k < length gens)%nat as Hlt by lia.
      split; [lia|]. split; [|done].
      unfold G. destruct (lookup_lt_is_Some_2 gens k Hlt) as [g Hg]. by rewrite Hg. }
  unfold GenerationIndex.generation_at. cbn [GenerationIndex.generations].
  assert ((Z.of_nat k <? 0) = false) as -> by (apply Z.ltb_ge; lia).
  rewrite Nat2Z.id, Hat.
  assert (id <$> document_order (TNode i x cs)
          = i :: (id <$> flat_map document_order cs)) as Hids by done.
  rewrite Hids in Hnodup. apply NoDup_cons in Hnodup as [Hi Hnodup].
  destruct (build_children_spec root cs IH (k + 1)%nat
              (<[k := (G gens k ++ [TNode i x cs])]> gens1) gc1 ic
              (<[i := length (G gens k)]> p))
    as (gens2 & gc2 & p2 & Hrun & Hlen2 & HG2 & Hp2 & Hframe2).
  { intros c Hc. rewrite (Hcons (TNode i x cs) c); [lia| |done].
    apply list_elem_of_here. }
  { rewrite length_insert. lia. }
  { intros c Hc. by apply (subtree_consistent (TNode i x cs)). }
  { done. }
  exists gens2, gc2, p2. split; [done|]. split; [|split; [|split]].
  - rewrite Hlen2, length_insert, Hlen1. simpl. unfold tallest. lia.
  - intros j. rewrite HG2, G_insert, HG1 by lia.
    destruct (decide (j = k)) as [->|Hne].
    + rewrite decide_False, decide_True by lia.
      rewrite Nat.sub_diag, app_nil_r. done.
    + destruct (decide (k + 1 <= j)%nat) as [Hle|Hgt].
      * rewrite decide_True by lia.
        replace (j - k)%nat with (S (j - (k + 1))) by lia. done.
      * rewrite decide_False by lia. by rewrite app_nil_r.
  - intros [|d] j n Hn.
    + assert (j = 0%nat) as -> by (apply lookup_lt_Some in Hn; simpl in Hn; lia).
      injection Hn as <-. cbn [id]. rewrite Hframe2 by done.
      rewrite lookup_insert_eq, !Nat.add_0_r. done.
    + simpl in Hn. rewrite (Hp2 d j n Hn), G_insert, HG1 by lia.
      rewrite decide_False by lia. by replace (k + S d)%nat with (k + 1 + d)%nat by lia.
  - intros y Hy. rewrite Hids in Hy. apply not_elem_of_cons in Hy as [Hyi Hy].
    rewrite Hframe2 by done. by rewrite lookup_insert_ne.
Qed.

Lemma flag_assign (gc : list (option bool)) (i j : nat) :
  flag_at (GenerationIndex.assign i true gc) j
  = if decide (j = i) then true else flag_at gc j.
Proof.
  unfold flag_at, GenerationIndex.assign.
  destruct (Nat.ltb_spec i (length gc)) as [Hlt|Hge].
  - destruct (decide (j = i)) as [->|Hne].
    + by rewrite list_lookup_insert_eq.
    + by rewrite list_lookup_insert_ne.
  - destruct (decide (j < length gc)%nat) as [Hj|Hj].
    + rewrite lookup_app_l by done. by rewrite decide_False by lia.
    + rewrite lookup_app_r by lia. rewrite (lookup_ge_None_2 gc) by lia.
      destruct (decide (j = i)) as [->|Hne].
      * rewrite lookup_app_r by (rewrite length_replicate; lia).
        rewrite length_replicate, Nat.sub_diag. done.
      * destruct (decide (j < i)%nat) as [Hji|Hji].
        -- rewrite lookup_app_l by (rewrite length_replicate; lia).
           by rewrite lookup_replicate_2 by lia.
        -- rewrite lookup_app_r by (rewrite length_replicate; lia).
           rewrite length_replicate.
           by destruct (j - length gc - (i - length gc))%nat as [|[|]] eqn:E; [lia|..].
Qed.

Lemma flags_complete (n : nat) (gc : list (option bool)) :
  forall j, (j < n)%nat ->
    flag_at (fold_left (fun gc i => GenerationIndex.assign i true gc) (seq 0 n) gc) j
    = true.
Proof.
  assert (forall (l : list nat) gc j,
            j ∈ l \/ flag_at gc j = true ->
            flag_at (fold_left (fun gc i => GenerationIndex.assign i true gc) l gc) j
            = true) as Hfold.
  { induction l as [|i l IH]; intros gc0 j Hj; simpl.
    - destruct Hj as [Hj|Hj]; [by apply elem_of_nil in Hj|done].
    - apply IH. rewrite flag_assign.
      destruct (decide (j = i)) as [->|Hne]; [by right|].
      destruct Hj as [Hj|Hj]; [|by right].
      apply elem_of_cons in Hj as [->|Hj]; [done|by left]. }
  intros j Hj. apply Hfold. left. apply elem_of_seq. lia.
Qed.

Lemma generation_depth (t : Tree D) :
  depths_consistent node_depth t ->
  forall d n, n ∈ generation d t -> node_depth n = (node_depth t + d)%nat.
Proof.
  intros Ht d. revert t Ht. induction d as [|d IH]; intros t Ht n Hn.
  - apply list_elem_of_singleton in Hn as ->. lia.
  - simpl in Hn. apply elem_of_flat_map in Hn as (c & Hc & Hn).
    rewrite (IH c); [|by apply (subtree_consistent t)|done].
    rewrite (Ht t c); [lia| |done].
    destruct t. apply list_elem_of_here.
Qed.

(** The index and the cached positions that buildAll leaves. *)
Lemma buildAll_spec (root : Tree D) (p0 : GenerationIndex.props) :
  depths_consistent node_depth root ->
  NoDup (id <$> document_order root) ->
  exists gens gc p,
    GenerationIndex.buildAll node_depth (GenerationIndex.new root) p0
    = ((GenerationIndex.mk root gens gc true, p), None) /\
    length gens = height root /\
    (forall d, G gens d = generation d root) /\
    (forall d, (d < height root)%nat -> flag_at gc d = true) /\
    (forall d i n, generation d root !! i = Some n -> p !! id n = Some i).
Proof.
  intros Hcons Hnodup.
  destruct (buildSubtree_spec root root 0%nat [] [] false p0)
    as (gens & gc & p & Hrun & Hlen & HG & Hp & _); [lia|simpl; lia|done|done|].
  exists gens, (fold_left (fun gc i => GenerationIndex.assign i true gc)
                          (seq 0 (length gens)) gc), p.
  split; [|split; [|split; [|split]]].
  - unfold GenerationIndex.buildAll, GenerationIndex.new in *.
    cbn [GenerationIndex.idxcomplete GenerationIndex.root]. by rewrite Hrun.
  - rewrite Hlen. simpl. lia.
  - intros d. rewrite HG. rewrite decide_True by lia.
    rewrite Nat.sub_0_r. unfold G. by rewrite lookup_nil.
  - intros d Hd. apply flags_complete. rewrite Hlen. simpl. lia.
  - intros d i n Hn. rewrite (Hp d i n Hn). simpl. done.
Qed.

(** X7.  On a tree whose depth fields are consistent and whose nodes are
    distinct objects, buildAll does not throw; afterwards the index holds
    one generation per level of the tree, each listing the nodes of that
    level from left to right, every generation is flagged complete, every
    node caches its position in its generation, and a second buildAll
    changes nothing. *)
Theorem GenerationIndex_buildAll_generations (root : Tree D)
  (p0 : GenerationIndex.props) :
  depths_consistent node_depth root ->
  NoDup (id <$> document_order root) ->
  exists ix p,
    GenerationIndex.buildAll node_depth (GenerationIndex.new root) p0
    = ((ix, p), None) /\
    GenerationIndex.idxcomplete ix = true /\
    length (GenerationIndex.generations ix) = height root /\
    (forall d, (d < height root)%nat ->
       GenerationIndex.generations ix !! d = Some (generation d root) /\
       GenerationIndex.gencomplete_at ix (Z.of_nat d) = true) /\
    (forall d i n, generation d root !! i = Some n -> p !! id n = Some i) /\
    GenerationIndex.buildAll node_depth ix p = ((ix, p), None).
Proof.
  intros Hcons Hnodup.
  destruct (buildAll_spec root p0 Hcons Hnodup)
    as (gens & gc & p & Hrun & Hlen & HG & Hflag & Hp).
  eexists _, p. split; [exact Hrun|]. split; [done|]. split; [done|].
  split; [|split; [done|done]].
  intros d Hd. cbn [GenerationIndex.generations]. split.
  - specialize (HG d). unfold G in HG.
    destruct (lookup_lt_is_Some_2 gens d) as [g Hg]; [lia|].
    rewrite Hg in HG. simpl in HG. by rewrite Hg, HG.
  - unfold GenerationIndex.gencomplete_at. cbn [GenerationIndex.gencomplete].
    assert ((Z.of_nat d <? 0) = false) as -> by (apply Z.ltb_ge; lia).
    rewrite Nat2Z.id. by apply Hflag.
Qed.

(** X8.  After buildAll, [get(ref, offset)] yields the node [offset]
    places from [ref] within the generation of [ref], or [undefined] past
    either end of that generation; [first(depth)] and [last(depth)] yield
    the two ends of a generation, or [undefined] below the last level. *)
Theorem GenerationIndex_get_within_generation (root : Tree D)
  (p0 : GenerationIndex.props) :
  depths_consistent node_depth root ->
  NoDup (id <$> document_order root) ->
  let ix := (GenerationIndex.buildAll node_depth (GenerationIndex.new root) p0).1.1 in
  let p := (GenerationIndex.buildAll node_depth (GenerationIndex.new root) p0).1.2 in
  (forall (d i : nat) n offset, generation d root !! i = Some n ->
     GenerationIndex.get node_depth ix p n (Some offset)
     = ret (if decide (0 <= Z.of_nat i + offset
                       < Z.of_nat (length (generation d root)))
            then generation d root !! Z.to_nat (Z.of_nat i + offset)
            else None)) /\
  (forall d : nat,
     GenerationIndex.first ix (Z.of_nat d) = ret (head (generation d root)) /\
     GenerationIndex.last ix (Z.of_nat d) = ret (last (generation d root))).
Proof.
  intros Hcons Hnodup.
  destruct (buildAll_spec root p0 Hcons Hnodup)
    as (gens & gc & p & Hrun & Hlen & HG & Hflag & Hp).
  rewrite Hrun. cbn [fst snd].
  assert (forall d : nat,
            GenerationIndex.generation_at (GenerationIndex.mk root gens gc true)
              (Z.of_nat d)
            = gens !! d) as Hat.
  { intros d. unfold GenerationIndex.generation_at.
    assert ((Z.of_nat d <? 0) = false) as -> by (apply Z.ltb_ge; lia).
    by rewrite Nat2Z.id. }
  assert (forall d, (d < height root)%nat -> gens !! d = Some (generation d root))
    as Hgens.
  { intros d Hd. specialize (HG d). unfold G in HG.
    destruct (lookup_lt_is_Some_2 gens d) as [g Hg]; [lia|].
    rewrite Hg in HG. simpl in HG. by rewrite Hg, HG. }
  assert (forall d : nat, (d < height root)%nat ->
            GenerationIndex.gencomplete_at (GenerationIndex.mk root gens gc true)
              (Z.of_nat d) = true) as Hcomplete.
  { intros d Hd. unfold GenerationIndex.gencomplete_at.
    cbn [GenerationIndex.gencomplete].
    assert ((Z.of_nat d <? 0) = false) as -> by (apply Z.ltb_ge; lia).
    rewrite Nat2Z.id. by apply Hflag. }
  split.
  - intros d i n offset Hn.
    assert (d < height root)%nat as Hd.
    { destruct (decide (d < height root)%nat) as [|Hge]; [done|].
      rewrite generation_beyond in Hn by lia. by rewrite lookup_nil in Hn. }
    unfold GenerationIndex.get. cbn [default GenerationIndex.root
      GenerationIndex.generations GenerationIndex.idxcomplete].
    destruct d as [|d].
    + assert (i = 0%nat) as ->
        by (apply lookup_lt_Some in Hn; simpl in Hn; lia).
      injection Hn as <-. unfold same. rewrite Nat.eqb_refl. simpl.
      destruct (Z.eqb_spec offset 0) as [->|Hne].
      * by rewrite decide_True by lia.
      * rewrite decide_False by lia. done.
    + assert (same n root = false) as ->.
      { unfold same. apply Nat.eqb_neq. intros Heq.
        destruct root as [r x cs]. simpl in Hnodup, Heq.
        apply NoDup_cons in Hnodup as [Hr _]. apply Hr.
        rewrite <- Heq. apply list_elem_of_fmap. exists n. split; [done|].
        apply list_elem_of_lookup_2 in Hn. simpl in Hn.
        apply elem_of_flat_map in Hn as (c & Hc & Hn).
        apply elem_of_flat_map. exists c. split; [done|].
        by apply (generation_subtree d). }
      assert (GenerationIndex.relative_depth node_depth
                (GenerationIndex.mk root gens gc true) n = Z.of_nat (S d)) as ->.
      { unfold GenerationIndex.relative_depth. cbn [GenerationIndex.root].
        rewrite (generation_depth root Hcons (S d) n); [lia|].
        by eapply list_elem_of_lookup_2. }
      assert ((Z.of_nat (S d) <? Z.of_nat (length gens)) = true) as ->
        by (apply Z.ltb_lt; lia).
      rewrite (Hp _ _ _ Hn), Hat, (Hgens _ Hd), Hn. simpl.
      unfold same. rewrite Nat.eqb_refl. simpl.
      rewrite (Hcomplete _ Hd).
      destruct (Z.ltb_spec (Z.of_nat i + offset) 0) as [Hlow|Hlow].
      * by rewrite decide_False by lia.
      * destruct (Z.ltb_spec (Z.of_nat i + offset)
                             (Z.of_nat (length (flat_map (generation d) (tchildren root)))))
          as [Hhigh|Hhigh].
        -- by rewrite decide_True by lia.
        -- by rewrite decide_False by lia.
  - intros d. unfold GenerationIndex.first, GenerationIndex.last,
      GenerationIndex.beyond.
    cbn [GenerationIndex.generations GenerationIndex.idxcomplete].
    destruct (decide (d < height root)%nat) as [Hd|Hd].
    + assert ((Z.of_nat d <? Z.of_nat (length gens)) = true) as ->
        by (apply Z.ltb_lt; lia).
      rewrite Hat, (Hgens _ Hd), (Hcomplete _ Hd). simpl.
      pose proof (generation_within root d Hd) as Hne.
      destruct (generation d root) as [|n g] eqn:Hg; done.
    + assert ((Z.of_nat d <? Z.of_nat (length gens)) = false) as ->
        by (apply Z.ltb_ge; lia).
      rewrite generation_beyond by lia. done.
Qed.

End GenerationIndex_build.


Lemma sample_depths_consistent : depths_consistent sample_depth sample_tree.
Proof.
  intros p c Hp Hc.
  apply list_elem_of_In in Hp. simpl in Hp.
  destruct Hp as [<-|[<-|[<-|[<-|[]]]]]; simpl in Hc;
    apply list_elem_of_In in Hc; simpl in Hc;
    repeat (destruct Hc as [<-|Hc]; [reflexivity|]); destruct Hc.
Qed.

Lemma GenerationIndex_buildAll_generations_witness :
  exists ix p,
    tree.GenerationIndex.buildAll sample_depth
      (tree.GenerationIndex.new sample_tree) ∅
    = ((ix, p), None) /\
    tree.GenerationIndex.idxcomplete ix = true /\
    length (tree.GenerationIndex.generations ix) = height sample_tree /\
    (forall d, (d < height sample_tree)%nat ->
       tree.GenerationIndex.generations ix !! d = Some (generation d sample_tree) /\
       tree.GenerationIndex.gencomplete_at ix (Z.of_nat d) = true) /\
    (forall d i n, generation d sample_tree !! i = Some n ->
       p !! tree.id n = Some i) /\
    tree.GenerationIndex.buildAll sample_depth ix p = ((ix, p), None).
Proof.
  apply (GenerationIndex_buildAll_generations sample_depth sample_tree ∅).
  - exact sample_depths_consistent.
  - apply (bool_decide_unpack _). reflexivity.
Defined.

Lemma GenerationIndex_get_within_generation_witness :
  tree.GenerationIndex.get sample_depth
    (tree.GenerationIndex.buildAll sample_depth
       (tree.GenerationIndex.new sample_tree) ∅).1.1
    (tree.GenerationIndex.buildAll sample_depth
       (tree.GenerationIndex.new sample_tree) ∅).1.2
    (tree.TNode 1 tt [tree.TNode 2 tt []]) (Some 1)
  = ret (Some (tree.TNode 3 tt [])) /\
  tree.GenerationIndex.get sample_depth
    (tree.GenerationIndex.buildAll sample_depth
       (tree.GenerationIndex.new sample_tree) ∅).1.1
    (tree.GenerationIndex.buildAll sample_depth
       (tree.GenerationIndex.new sample_tree) ∅).1.2
    (tree.TNode 3 tt []) (Some 1)
  = ret None.
Proof.
  assert (NoDup (tree.id <$> document_order sample_tree))
    as Hnodup.
  { apply (bool_decide_unpack _). reflexivity. }
  split.
  - exact (proj1 (GenerationIndex_get_within_generation sample_depth sample_tree ∅
                    sample_depths_consistent Hnodup)
             1%nat 0%nat (tree.TNode 1 tt [tree.TNode 2 tt []]) 1 eq_refl).
  - exact (proj1 (GenerationIndex_get_within_generation sample_depth sample_tree ∅
                    sample_depths_consistent Hnodup)
             1%nat 1%nat (tree.TNode 3 tt []) 1 eq_refl).
Defined.

(** ** JMLTreeAdapter.adapt *)

Section JMLTreeAdapter_adapt.
Import JS JsonML tree jmltree jmltree.JMLTreeAdapter.

Lemma mapjml_unfold {R S} (callback : jsval -> option R -> S -> result (R * S))
  node presult s :
  mapjml callback node presult s =
  let! (res, s) := callback node presult s in
  match node with
  | JArr (JStr _ :: rest) =>
      let! s := map_children callback res (child_items rest) s in
      ret (res, s)
  | _ => ret (res, s)
  end.
Proof.
  destruct node as [| | | | | |[|[] rest]|]; try reflexivity.
  cbn [mapjml]. destruct (callback _ presult s) as [e|[res s']]; [done|].
  cbn [rbind]. unfold child_items, isAttributes.
  destruct rest as [|[] rest]; simpl; rewrite ?andb_false_r; reflexivity.
Qed.

Lemma append_fresh (s : store) (p : nat) v d :
  (p < length s)%nat ->
  exists s' pn,
    append p (length s) (new_Node v d s).2 = ret s' /\
    s !! p = Some pn /\
    length s' = S (length s) /\
    (forall x, s' !! x
               = appended p (length s) pn x <$> (s ++ [mkNode v d 0%nat None None []]) !! x).
Proof.
  intros Hp. destruct (lookup_lt_is_Some_2 s p Hp) as [pn Hpn].
  unfold new_Node. cbn [snd].
  destruct (append p (length s) (s ++ [mkNode v d 0%nat None None []]))
    as [e|s'] eqn:Happ.
  - exfalso. revert Happ. unfold append.
    rewrite lookup_app_l, Hpn by done.
    rewrite lookup_app_r, Nat.sub_diag by lia. simpl. done.
  - destruct (append_cells _ _ _ _ Happ) as (tn & cn & Htn & Hcn & Hpar & Hcells).
    rewrite lookup_app_l, Hpn in Htn by done. injection Htn as <-.
    exists s', pn. split; [done|]. split; [done|]. split; [|done].
    revert Happ. unfold append.
    rewrite lookup_app_l, Hpn by done.
    rewrite lookup_app_r, Nat.sub_diag by lia. simpl.
    intros [= <-]. rewrite !length_alter, length_app. simpl. lia.
Qed.

Lemma wrap_spec node parent (s : store) d :
  built true s -> values_set s -> placed parent s d ->
  exists s',
    wrap node parent s = ret (length s, s') /\
    built true s' /\ values_set s' /\
    shape <$> s' = (shape <$> s) ++ [(node, d)].
Proof.
  intros Hbuilt Hvalues Hplaced. unfold wrap, new_Node.
  fold (content node).
  assert (built true (s ++ [mkNode (content node) node 0%nat None None []]))
    as Hnew by apply (built_new true s (content node) node Hbuilt).
  destruct parent as [p|]; simpl in Hplaced.
  - destruct Hplaced as (pn & Hpn & ->).
    destruct (append_fresh s p (content node) node) as (s' & pn' & Happ & Hpn' & Hlen & Hcells).
    { by eapply lookup_lt_Some. }
    rewrite Hpn in Hpn'. injection Hpn' as <-.
    unfold new_Node in Happ. cbn [snd] in Happ. rewrite Happ. cbn [rbind ret].
    exists s'. split; [done|]. split; [|split].
    + eapply built_append; [exact Hnew| |exact Happ].
      intros _. split.
      * apply lookup_lt_Some in Hpn. lia.
      * by rewrite lookup_app_r, Nat.sub_diag by lia.
    + apply Forall_lookup. intros x n. rewrite Hcells.
      intros (n0 & Hn0 & ->)%fmap_Some. cbn [appended value data].
      destruct (decide (x < length s)%nat) as [Hx|Hx].
      * rewrite lookup_app_l in Hn0 by done.
        by apply (proj1 (Forall_lookup _ s) Hvalues x).
      * rewrite lookup_app_r in Hn0 by lia.
        destruct (x - length s)%nat as [|[|]]; [|done..].
        by injection Hn0 as <-.
    + apply list_eq. intros x. rewrite list_lookup_fmap, Hcells.
      destruct (decide (x < length s)%nat) as [Hx|Hx].
      * rewrite !lookup_app_l by (rewrite ?length_fmap; done).
        rewrite list_lookup_fmap. destruct (s !! x) as [n|]; [|done]. simpl.
        unfold shape, appended. cbn [data depth].
        by rewrite decide_False by lia.
      * rewrite !lookup_app_r by (rewrite ?length_fmap; lia).
        rewrite length_fmap.
        destruct (x - length s)%nat as [|[|]] eqn:E; [|done..]. simpl.
        unfold shape, appended. cbn [data depth].
        by rewrite decide_True by lia.
  - subst d. eexists. split; [done|]. split; [done|]. split.
    + apply Forall_app. split; [done|]. by constructor.
    + by rewrite fmap_app.
Qed.

Lemma placed_later (p : nat) (s s' : store) d more :
  placed (Some p) s d -> shape <$> s' = (shape <$> s) ++ more ->
  placed (Some p) s' d.
Proof.
  intros (pn & Hpn & ->) Hshape. simpl.
  assert ((shape <$> s') !! p = Some (shape pn)) as Hp.
  { rewrite Hshape, lookup_app_l by (rewrite length_fmap; by eapply lookup_lt_Some).
    by rewrite list_lookup_fmap, Hpn. }
  rewrite list_lookup_fmap in Hp. apply fmap_Some in Hp as (pn' & Hpn' & Heq).
  exists pn'. split; [done|]. by injection Heq as _ ->.
Qed.

Lemma map_children_spec (cs : list jsval) :
  Forall wrapped cs ->
  forall (res : nat) (s : store) (d : nat),
    built true s -> values_set s -> placed (Some res) s d ->
    exists s',
      map_children wrap res cs s = ret s' /\
      built true s' /\ values_set s' /\
      shape <$> s' = (shape <$> s) ++ flat_map (jml_nodes d) cs.
Proof.
  induction cs as [|c cs IH]; intros Hcs res s d Hbuilt Hvalues Hplaced.
  - exists s. split; [done|]. split; [done|]. split; [done|].
    by rewrite app_nil_r.
  - apply Forall_cons_1 in Hcs as [Hc Hcs].
    destruct (Hc (Some res) s d Hbuilt Hvalues Hplaced)
      as (s1 & Hrun1 & Hbuilt1 & Hvalues1 & Hshape1).
    destruct (IH Hcs res s1 d Hbuilt1 Hvalues1 (placed_later _ _ _ _ _ Hplaced Hshape1))
      as (s2 & Hrun2 & Hbuilt2 & Hvalues2 & Hshape2).
    exists s2. split; [|split; [done|split; [done|]]].
    + cbn [map_children]. rewrite Hrun1. exact Hrun2.
    + rewrite Hshape2, Hshape1. simpl. by rewrite <- app_assoc.
Qed.

Lemma mapjml_wrapped (node : jsval) : wrapped node.
Proof.
  induction node as [| |b|z| |txt|items IH|props _] using jsval_nested_ind;
    intros parent s d Hbuilt Hvalues Hplaced; rewrite mapjml_unfold;
    match goal with
    | |- context [wrap ?n parent s] =>
        destruct (wrap_spec n parent s d Hbuilt Hvalues Hplaced)
          as (s1 & -> & Hbuilt1 & Hvalues1 & Hshape1)
    end;
    cbn [rbind ret]; try (exists s1; done).
  destruct items as [|[| |b|z| |tag|l|o] rest]; try (exists s1; done).
  destruct (map_children_spec (child_items rest)) with (res := length s) (s := s1) (d := S d)
    as (s2 & Hrun & Hbuilt2 & Hvalues2 & Hshape2); try done.
  - apply Forall_cons_1 in IH as [_ IH].
    destruct rest as [|[] rest]; try done. by apply Forall_cons_1 in IH as [_ IH].
  - assert ((shape <$> s1) !! length s = Some (JArr (JStr tag :: rest), d)) as Hp.
    { rewrite Hshape1, lookup_app_r by (by rewrite length_fmap).
      by rewrite length_fmap, Nat.sub_diag. }
    rewrite list_lookup_fmap in Hp. apply fmap_Some in Hp as (cn & Hcn & Heq).
    exists cn. split; [done|]. injection Heq as _ ->. lia.
  - rewrite Hrun. cbn [rbind ret]. exists s2. split; [done|].
    split; [done|]. split; [done|].
    rewrite Hshape2, Hshape1, <- app_assoc. done.
Qed.

(** X9.  JMLTreeAdapter.adapt never throws, whatever value it is given,
    and it attaches every wrapper to its parent before it visits the
    children: the node objects it leaves satisfy all invariants of append,
    the depth of a child being that of its parent plus one. *)
Theorem adapt_builds_top_down (element : jsval) :
  exists s,
    adapt element [] = ret (0%nat, s) /\
    built true s /\
    root_depth s /\ edge_depth s /\ parent_link s /\ child_link s.
Proof.
  destruct (mapjml_wrapped element None [] 0%nat)
    as (s & Hrun & Hbuilt & _ & _); [constructor|constructor|done|].
  exists s. split; [done|]. split; [done|].
  destruct (built_links _ _ Hbuilt) as (Hroot & Hparent & Hchild).
  split; [done|]. split; [by apply built_topdown_edges|]. done.
Qed.

(** X10.  The wrappers adapt creates mirror the document: one tree.Node
    per JsonML node, created in document order; its [data] is the JsonML
    node, its [depth] the nesting depth of that node, and its [value] the
    tag name of an element and the node itself for anything else. *)
Theorem adapt_mirrors_document (element : jsval) :
  exists s,
    adapt element [] = ret (0%nat, s) /\
    shape <$> s = jml_nodes 0 element /\
    Forall (fun n => value n = content (data n)) s.
Proof.
  destruct (mapjml_wrapped element None [] 0%nat)
    as (s & Hrun & _ & Hvalues & Hshape); [constructor|constructor|done|].
  exists s. done.
Qed.

End JMLTreeAdapter_adapt.

(** ** JMLNodeHash: what the hash does not see *)

Section JMLNodeHash_blind.
Import JS JsonML jmltree jmltree.JMLNodeHash.
Context {H : HashAlgorithm}.




End JMLNodeHash_blind.


(** ** SimpleTreeHash and the hash indexes *)

Section tree_hashes.
Import tree.
Context {H : HashAlgorithm} {D : Type}.
Variable nodehash : Tree D -> result Z.

Lemma feed_nodes (l : list (Tree D)) :
  forall (hashes : list Z) (hash : hstate) (cache : hashcache),
    Forall2 (fun n h => nodehash n = ret h) l hashes ->
    NoDup (id <$> l) ->
    (forall n, n ∈ l -> cache !! id n = None) ->
    exists cache',
      fold_left (fun acc n =>
                   let! (hash, cache) := acc in
                   let! (h, cache) := NodeHashIndex.get nodehash cache (Some n) in
                   ret (hupdate hash (from_option JNum JUndefined h), cache))
                l (ret (hash, cache))
      = ret (feed_hashes hashes hash, cache') /\
      (forall x, x ∉ id <$> l -> cache' !! x = cache !! x).
Proof.
  induction l as [|n l IH]; intros hashes hash cache Hhashes Hnodup Hfresh.
  - apply Forall2_nil_inv_l in Hhashes as ->. by exists cache.
  - apply Forall2_cons_inv_l in Hhashes as (h & hashes' & Hn & Hhashes & ->).
    rewrite fmap_cons in Hnodup. apply NoDup_cons in Hnodup as [Hid Hnodup].
    cbn [fold_left rbind ret NodeHashIndex.get].
    rewrite (Hfresh n) by apply list_elem_of_here. rewrite Hn. cbn [rbind ret].
    destruct (IH hashes' (hupdate hash (JNum h)) (<[id n := h]> cache) Hhashes Hnodup)
      as (cache' & Hrun & Hframe).
    { intros m Hm. rewrite lookup_insert_ne; [by apply Hfresh, list_elem_of_further|].
      intros Heq. apply Hid. rewrite Heq. by apply list_elem_of_fmap_2. }
    exists cache'. split; [exact Hrun|].
    intros x Hx. rewrite fmap_cons in Hx. apply not_elem_of_cons in Hx as [Hne Hx].
    rewrite Hframe by done. by rewrite lookup_insert_ne.
Qed.

Lemma tree_hash (t : Tree D) (hashes : list Z) :
  Forall2 (fun n h => nodehash n = ret h) (document_order t) hashes ->
  NoDup (id <$> document_order t) ->
  exists cache,
    SimpleTreeHash.process nodehash t None ∅
    = ret (hget (feed_hashes hashes hnew), cache).
Proof.
  intros Hhashes Hnodup. unfold SimpleTreeHash.process.
  rewrite forEach_document_order.
  destruct (feed_nodes (document_order t) hashes hnew ∅ Hhashes Hnodup)
    as (cache & Hrun & _); [done|].
  cbn [default]. rewrite Hrun. by exists cache.
Qed.

(** X12.  The tree hash is the hash of the node hashes in document order
    and of nothing else: two trees whose nodes, taken in document order,
    have the same node hashes have the same tree hash, whatever their
    shapes. *)
Theorem SimpleTreeHash_ignores_shape (t1 t2 : Tree D) (hashes : list Z) :
  NoDup (id <$> document_order t1) -> NoDup (id <$> document_order t2) ->
  Forall2 (fun n h => nodehash n = ret h) (document_order t1) hashes ->
  Forall2 (fun n h => nodehash n = ret h) (document_order t2) hashes ->
  exists cache1 cache2,
    SimpleTreeHash.process nodehash t1 None ∅
    = ret (hget (feed_hashes hashes hnew), cache1) /\
    SimpleTreeHash.process nodehash t2 None ∅
    = ret (hget (feed_hashes hashes hnew), cache2).
Proof.
  intros Hnodup1 Hnodup2 Hhashes1 Hhashes2.
  destruct (tree_hash t1 hashes Hhashes1 Hnodup1) as [cache1 H1].
  destruct (tree_hash t2 hashes Hhashes2 Hnodup2) as [cache2 H2].
  by exists cache1, cache2.
Qed.

(** X13.  NodeHashIndex computes the hash of a node once: when get has
    returned a hash for a node, every later get for that node returns the
    same hash and leaves the cache alone, whatever the node hash would now
    be. *)
Theorem NodeHashIndex_get_cached (cache cache' : hashcache) (n : Tree D) (h : Z)
  (nodehash' : Tree D -> result Z) :
  NodeHashIndex.get nodehash cache (Some n) = ret (Some h, cache') ->
  NodeHashIndex.get nodehash' cache' (Some n) = ret (Some h, cache').
Proof.
  unfold NodeHashIndex.get.
  destruct (cache !! id n) as [h0|] eqn:Hcached.
  - intros [= -> ->]. by rewrite Hcached.
  - destruct (nodehash n) as [e|h0]; [done|]. cbn [rbind ret].
    intros [= -> <-]. by rewrite lookup_insert_eq.
Qed.

End tree_hashes.

Lemma SimpleTreeHash_ignores_shape_witness :
  exists cache1 cache2,
    tree.SimpleTreeHash.process (HashAlgorithm := fnv132.Hash) fnv_nodehash
      chain_tree None ∅
    = ret (hget (feed_hashes (H := fnv132.Hash)
                   [bare_hash "a"; bare_hash "b"; bare_hash "c"] hnew), cache1) /\
    tree.SimpleTreeHash.process (HashAlgorithm := fnv132.Hash) fnv_nodehash
      flat_tree None ∅
    = ret (hget (feed_hashes (H := fnv132.Hash)
                   [bare_hash "a"; bare_hash "b"; bare_hash "c"] hnew), cache2).
Proof.
  apply (SimpleTreeHash_ignores_shape (H := fnv132.Hash) fnv_nodehash
           chain_tree flat_tree).
  - apply (bool_decide_unpack _). reflexivity.
  - apply (bool_decide_unpack _). reflexivity.
  - repeat constructor.
  - repeat constructor.
Defined.

Lemma NodeHashIndex_get_cached_witness :
  tree.NodeHashIndex.get (fun _ => throw (Error "not called"))
    (<[0%nat := bare_hash "a"]> ∅) (Some chain_tree)
  = ret (Some (bare_hash "a"), <[0%nat := bare_hash "a"]> ∅).
Proof.
  apply (NodeHashIndex_get_cached fnv_nodehash ∅).
  reflexivity.
Defined.

(** ** jmldelta: paths and whole operations on the wire *)

Section wire_roundtrip.
Import JS JsonML JSString jmldelta.

Lemma digits_decimal (u : Decimal.uint) :
  forall acc,
    digits 10 (NilEmpty.string_of_uint u) acc
    = match u with
      | Decimal.Nil => acc
      | _ => Some (uint_value u (default 0 acc))
      end.
Proof.
  induction u as [|u IH|u IH|u IH|u IH|u IH|u IH|u IH|u IH|u IH|u IH];
    intros acc; [done|..];
    cbn [NilEmpty.string_of_uint digits uint_value];
    (match goal with
     | |- context [digit_val ?c] =>
         let v := eval vm_compute in (digit_val c) in
         change (digit_val c) with v
     end);
    cbv iota beta;
    (match goal with
     | |- context [?d <? 10] =>
         change (d <? 10) with true
     end);
    cbv iota; rewrite IH; by destruct u.
Qed.

Lemma uint_value_pos (u : Decimal.uint) :
  forall acc : positive, uint_value u (Zpos acc) = Zpos (Pos.of_uint_acc u acc).
Proof.
  induction u as [|u IH|u IH|u IH|u IH|u IH|u IH|u IH|u IH|u IH|u IH];
    intros acc; [done|..]; cbn [uint_value Pos.of_uint_acc];
    match goal with
    | |- uint_value _ ?z = Zpos (Pos.of_uint_acc _ ?p) =>
        replace z with (Zpos p) by lia
    end; apply IH.
Qed.

Lemma uint_value_zero (u : Decimal.uint) :
  uint_value u 0 = Z.of_N (Pos.of_uint u).
Proof.
  induction u as [|u IH|u IH|u IH|u IH|u IH|u IH|u IH|u IH|u IH|u IH];
    [done|exact IH|..]; cbn [uint_value Pos.of_uint Z.of_N];
    match goal with
    | |- uint_value _ ?z = Zpos (Pos.of_uint_acc _ ?p) =>
        change z with (Zpos p)
    end; apply uint_value_pos.
Qed.

Lemma decimal_char_plain c :
  decimal_char c = true ->
  is_space c = false /\ Ascii.eqb c "+" = false /\ Ascii.eqb c "/" = false.
Proof.
  destruct c as [[] [] [] [] [] [] [] []]; vm_compute; intros; try discriminate; auto.
Qed.

Lemma decimal_digits_chars (u : Decimal.uint) :
  string_forall decimal_char (NilEmpty.string_of_uint u) = true.
Proof. induction u; [done|..]; simpl; exact IHu. Qed.

Lemma string_of_Z_chars (n : Z) :
  string_forall decimal_char (string_of_Z n) = true /\
  string_of_Z n <> EmptyString.
Proof.
  unfold string_of_Z, NilZero.string_of_int, NilZero.string_of_uint.
  destruct n as [|p|p]; cbn [Z.to_int]; [done|..];
    pose proof (DecimalPos.Unsigned.to_uint_nonnil p) as Hnil;
    pose proof (decimal_digits_chars (Pos.to_uint p)) as Hchars;
    destruct (Pos.to_uint p); done.
Qed.

(** parseInt reads back what String writes. *)
Lemma parseInt_string_of_Z (n : Z) : parseInt (string_of_Z n) 10 = JNum n.
Proof.
  assert (forall p, digits 10 (NilEmpty.string_of_uint (Pos.to_uint p)) None
                    = Some (Zpos p)) as Hdigits.
  { intros p. rewrite digits_decimal.
    pose proof (DecimalPos.Unsigned.to_uint_nonnil p) as Hnil.
    pose proof (DecimalPos.Unsigned.of_to p) as Hof.
    assert (uint_value (Pos.to_uint p) 0 = Zpos p) as Hvalue
      by (by rewrite uint_value_zero, Hof).
    cbn [default]. rewrite Hvalue. by destruct (Pos.to_uint p). }
  assert (forall p, exists c s,
            NilEmpty.string_of_uint (Pos.to_uint p) = String c s /\
            is_space c = false /\ Ascii.eqb c "-" = false /\
            Ascii.eqb c "+" = false) as Hfirst.
  { intros p. pose proof (DecimalPos.Unsigned.to_uint_nonnil p) as Hnil.
    destruct (Pos.to_uint p); [done|..]; by eexists _, _. }
  unfold string_of_Z, NilZero.string_of_int, NilZero.string_of_uint.
  destruct n as [|p|p]; cbn [Z.to_int]; [done|..].
  - specialize (Hdigits p). destruct (Hfirst p) as (c & s & Hs & Hspace & Hminus & Hplus).
    pose proof (DecimalPos.Unsigned.to_uint_nonnil p) as Hnil.
    assert (match Pos.to_uint p with
            | Decimal.Nil => "0"
            | _ => NilEmpty.string_of_uint (Pos.to_uint p)
            end = NilEmpty.string_of_uint (Pos.to_uint p)) as ->
      by (by destruct (Pos.to_uint p)).
    unfold parseInt. rewrite Hs in *. cbn [trim_left].
    rewrite Hspace, Hminus, Hplus. cbn [Z.eqb Pos.eqb].
    by rewrite Hdigits.
  - specialize (Hdigits p).
    pose proof (DecimalPos.Unsigned.to_uint_nonnil p) as Hnil.
    assert (match Pos.to_uint p with
            | Decimal.Nil => "0"
            | _ => NilEmpty.string_of_uint (Pos.to_uint p)
            end = NilEmpty.string_of_uint (Pos.to_uint p)) as ->
      by (by destruct (Pos.to_uint p)).
    unfold parseInt. cbn [trim_left].
    assert (is_space "-" = false) as -> by reflexivity.
    assert (Ascii.eqb "-" "-" = true) as -> by reflexivity.
    cbn [Z.eqb Pos.eqb]. by rewrite Hdigits.
Qed.

Lemma split_free (sep : ascii) (s : string) :
  string_forall (fun c => negb (Ascii.eqb c sep)) s = true ->
  split sep s = [s].
Proof.
  induction s as [|c s IH]; [done|]. simpl.
  rewrite andb_true_iff, negb_true_iff. intros [-> Hs]. by rewrite IH.
Qed.

Lemma split_join_free (sep : ascii) (parts : list string) :
  parts <> [] ->
  Forall (fun s => string_forall (fun c => negb (Ascii.eqb c sep)) s = true) parts ->
  split sep (join (String sep EmptyString) parts) = parts.
Proof.
  induction parts as [|a parts IH]; [done|]. intros _ Hall.
  apply Forall_cons_1 in Hall as [Ha Hall].
  destruct parts as [|b parts].
  - simpl. by apply split_free.
  - change (join (String sep EmptyString) (a :: b :: parts))
      with (a +:+ String sep (join (String sep EmptyString) (b :: parts))).
    assert (forall rest, split sep (a +:+ String sep rest) = a :: split sep rest)
      as ->.
    { intros rest. clear -Ha. induction a as [|c a IHa]; simpl.
      - by rewrite Ascii.eqb_refl.
      - simpl in Ha. apply andb_true_iff in Ha as [Hc Ha].
        apply negb_true_iff in Hc.
        change (String c a +:+ String sep rest)
          with (String c (a +:+ String sep rest)).
        cbn [split]. rewrite Hc. by rewrite IHa. }
    f_equal. by apply IH.
Qed.

Lemma path_text_numbers (p : list Z) :
  path_text (JNum <$> p) = join "/" (string_of_Z <$> p).
Proof.
  unfold path_text. f_equal. rewrite <- list_fmap_compose. done.
Qed.

(** Reading the path attribute that constructOperationElement writes. *)
Lemma path_read_back (p : list Z) :
  match path_text (JNum <$> p) with
  | EmptyString => []
  | text => map (fun component => parseInt component 10) (split "/" text)
  end = JNum <$> p.
Proof.
  rewrite path_text_numbers.
  destruct p as [|n p]; [done|].
  assert (join "/" (string_of_Z <$> n :: p) <> EmptyString) as Hne.
  { destruct (string_of_Z_chars n) as [_ Hn]. simpl.
    destruct (string_of_Z n); [done|]. by destruct p. }
  assert (map (fun component => parseInt component 10)
              (split "/" (join "/" (string_of_Z <$> n :: p)))
          = JNum <$> n :: p) as <-.
  { rewrite split_join_free.
    - rewrite map_map. apply map_ext. intros m. apply parseInt_string_of_Z.
    - done.
    - apply Forall_fmap, Forall_forall. intros m _.
      destruct (string_of_Z_chars m) as [Hm _].
      eapply string_forall_impl; [|exact Hm].
      intros c Hc. by destruct (decimal_char_plain c Hc) as (_ & _ & ->). }
  by destruct (join "/" (string_of_Z <$> n :: p)).
Qed.

Section operations.
Variables UPDATE_NODE_TYPE UPDATE_FOREST_TYPE : Z.
Variable Fragment : Type.
Variable adaptFragment : list Fragment -> bool -> result (list jsval).
Variable importFragment : list jsval -> result (list Fragment).

#[local] Abbreviation TYPE_TAGS := (TYPE_TAGS UPDATE_NODE_TYPE UPDATE_FOREST_TYPE).
#[local] Abbreviation type_of_tag := (type_of_tag UPDATE_NODE_TYPE UPDATE_FOREST_TYPE).
#[local] Abbreviation adaptOperation :=
  (adaptOperation UPDATE_NODE_TYPE UPDATE_FOREST_TYPE Fragment importFragment).
#[local] Abbreviation constructOperationElement :=
  (constructOperationElement UPDATE_NODE_TYPE UPDATE_FOREST_TYPE Fragment
                             adaptFragment).

(** X14.  The path of an operation survives the wire: when the [path]
    attribute of an element is the text constructOperationElement writes
    for a list of safe integers (below 2^53 in absolute value, so that
    each is written with all its digits), every operation adaptOperation
    returns for that element carries that list, the empty list
    included. *)
Theorem adaptOperation_reads_path (element type : jsval) (p : list Z)
  (op : DetachedContextOperation Fragment) :
  Forall safe_integer p ->
  getAttribute element "path" = ret (JStr (path_text (JNum <$> p))) ->
  adaptOperation element type = ret op ->
  op_path _ op = JNum <$> p.
Proof.
  intros _ Hpath. unfold jmldelta.adaptOperation. rewrite Hpath.
  assert ((match JStr (path_text (JNum <$> p)) with
           | JStr EmptyString => ret []
           | JStr path =>
               ret (map (fun component => parseInt component 10)
                        (split "/" path))
           | _ => throw (TypeError "path.split is not a function")
           end : result (list jsval)) = ret (JNum <$> p)) as Hparsed.
  { pose proof (path_read_back p) as Hread.
    destruct (path_text (JNum <$> p)); by rewrite <- Hread. }
  unfold rbind at 1. unfold ret at 1.
  destruct type as [| | |t| | | |]; try done.
  destruct ((t =? UPDATE_NODE_TYPE) || (t =? UPDATE_FOREST_TYPE)); [|done].
  unfold rbind at 1. unfold ret at 1.
  rewrite Hparsed.
  unfold rbind, ret, throw; repeat case_match; try done; by intros [= <-].
Qed.

Lemma appendChildren_kept (cs : list jsval) :
  forall pre,
    Forall kept_child cs -> adjacent_text cs = false ->
    (forall s cs', cs = JStr s :: cs' -> no_merge pre) ->
    appendChildren pre cs = (pre ++ cs, None).
Proof.
  induction cs as [|c cs IH]; intros pre Hcs Hadj Hno.
  - by rewrite app_nil_r.
  - apply Forall_cons_1 in Hcs as [Hc Hcs]. cbn [appendChildren].
    assert (appendChild pre c = (pre ++ [c], None)) as ->.
    { destruct c as [| | | | |s|[|[] r]|]; try done.
      - cbn [appendChild ToString]. f_equal. apply appendText_push; [done|].
        by eapply Hno.
      - by apply appendChild_element. }
    rewrite (IH (pre ++ [c])); [by rewrite <- app_assoc|done| |].
    + destruct c as [| | | | |s|[|[] r]|]; try done; destruct cs as [|[]]; done.
    + intros s cs' ->. unfold no_merge. rewrite last_snoc. simpl.
      destruct c as [| | | | |s'|[|[] r]|]; try done.
      all: by rewrite andb_false_r.
Qed.

Lemma context_element_items (parts : list jsval) :
  context_element parts
  = JArr (JStr "context" ::
          if String.eqb (formatFingerprint parts) EmptyString then []
          else [JStr (formatFingerprint parts)]).
Proof.
  unfold context_element. cbn [appendChild ToString fst]. unfold appendText.
  cbn [length Z.of_nat Z.ltb Z.compare andb Nat.eqb orb].
  rewrite andb_false_r, orb_false_r.
  by destruct (String.eqb (formatFingerprint parts) EmptyString).
Qed.

Lemma parseContext_read_back (l : list Z) :
  parseContext (context_element (JNum <$> l)) = ret (read_back l).
Proof.
  rewrite context_element_items. unfold read_back.
  destruct (String.eqb_spec (formatFingerprint (JNum <$> l)) EmptyString)
    as [Hempty|Hne]; [done|].
  rewrite parseContext_text by done. do 2 f_equal.
  rewrite formatFingerprint_text in *.
  rewrite split_join.
  - rewrite <- list_fmap_compose. apply list_fmap_ext.
    intros _ n _. apply parse_entry_text.
  - by destruct l.
  - apply Forall_fmap, Forall_forall. intros n _. apply entry_text_chars.
Qed.

Lemma string_of_Z_inj (m n : Z) : string_of_Z m = string_of_Z n -> m = n.
Proof.
  intros Heq. pose proof (parseInt_string_of_Z m) as Hm.
  rewrite Heq, parseInt_string_of_Z in Hm. congruence.
Qed.

Lemma string_of_Z_no_tag (n : Z) (tag : string) :
  string_forall decimal_char tag = false -> tag <> string_of_Z n.
Proof.
  intros Htag ->. destruct (string_of_Z_chars n) as [Hn _]. congruence.
Qed.

(** The tag constructOperationElement looks up for a type. *)
Lemma tag_of_type (type : Z) :
  UPDATE_NODE_TYPE <> UPDATE_FOREST_TYPE ->
  type = UPDATE_NODE_TYPE \/ type = UPDATE_FOREST_TYPE ->
  get_member (ToString (JNum type)) TYPE_TAGS
  = JStr (if type =? UPDATE_FOREST_TYPE then "forest" else "node").
Proof.
  intros Hdistinct Htype. unfold get_member. cbn [ToString].
  rewrite bool_decide_eq_true_2.
  2:{ unfold jmldelta.TYPE_TAGS. rewrite !set_prop_keys. cbn [ToString].
      destruct Htype as [->| ->]; tauto. }
  rewrite TYPE_TAGS_lookup. cbn [ToString].
  destruct (String.eqb_spec "forest" (string_of_Z type)) as [Heq|_].
  { by apply string_of_Z_no_tag in Heq. }
  destruct (String.eqb_spec "node" (string_of_Z type)) as [Heq|_].
  { by apply string_of_Z_no_tag in Heq. }
  destruct (Z.eqb_spec type UPDATE_FOREST_TYPE) as [->|Hne].
  - by rewrite String.eqb_refl.
  - destruct Htype as [->|]; [|done].
    destruct (String.eqb_spec (string_of_Z UPDATE_FOREST_TYPE)
                              (string_of_Z UPDATE_NODE_TYPE)) as [Heq|_].
    { apply string_of_Z_inj in Heq. congruence. }
    by rewrite String.eqb_refl.
Qed.

Lemma nextElement_found (tag : string) (rest others : list jsval) :
  nextElement tag (JArr (JStr tag :: rest) :: others)
  = (JArr (JStr tag :: rest), others).
Proof.
  cbn [nextElement truthy]. rewrite getTagName_element.
  assert (isElement (JArr (JStr tag :: rest)) = true) as -> by done.
  by rewrite String.eqb_refl.
Qed.

Lemma kept_children_items (tag : string) (cs : list jsval) :
  Forall kept_child cs -> getChildren (JArr (JStr tag :: cs)) = ret cs.
Proof.
  intros Hcs. rewrite getChildren_items.
  destruct cs as [|[] cs]; try done.
  by apply Forall_cons_1 in Hcs as [? _].
Qed.

Lemma kept_children_each (tag : string) (cs : list jsval) :
  Forall kept_child cs -> eachChild (JArr (JStr tag :: cs)) = ret cs.
Proof.
  intros Hcs. unfold eachChild.
  assert (isElement (JArr (JStr tag :: cs)) = true) as -> by done.
  cbn [negb]. rewrite hasAttributes_items.
  destruct cs as [|[] cs]; try done.
  by apply Forall_cons_1 in Hcs as [? _].
Qed.

Lemma operation_read_back (op : DetachedContextOperation Fragment)
  (p h t : list Z) (cr ci : list jsval) (fr fi : list Fragment) :
  UPDATE_NODE_TYPE <> UPDATE_FOREST_TYPE ->
  op_type _ op = UPDATE_NODE_TYPE \/ op_type _ op = UPDATE_FOREST_TYPE ->
  op_path _ op = JNum <$> p ->
  op_head _ op = JArr (JNum <$> h) -> op_tail _ op = JArr (JNum <$> t) ->
  adaptFragment (op_remove _ op) (negb (op_type _ op =? UPDATE_NODE_TYPE)) = ret cr ->
  adaptFragment (op_insert _ op) (negb (op_type _ op =? UPDATE_NODE_TYPE)) = ret ci ->
  Forall kept_child cr -> adjacent_text cr = false ->
  Forall kept_child ci -> adjacent_text ci = false ->
  importFragment cr = ret fr -> importFragment ci = ret fi ->
  exists element,
    (kept_child element /\ isElement element = true) /\
    constructOperationElement op = ret element /\
    type_of_tag element = JNum (op_type _ op) /\
    adaptOperation element (type_of_tag element)
    = ret (mkOp Fragment (op_type _ op) (JNum <$> p) fr fi
                (read_back h) (read_back t)).
Proof.
  intros Hdistinct Htype Hpath Hhead Htail Hremove Hinsert
         Hcr Hadj_r Hci Hadj_i Hfr Hfi.
  set (tag := if op_type _ op =? UPDATE_FOREST_TYPE then "forest" else "node").
  assert (tag <> EmptyString) as Htag
    by (unfold tag; by destruct (op_type _ op =? UPDATE_FOREST_TYPE)).
  assert (no_merge [JStr "remove"] /\ no_merge [JStr "insert"]) as [Hno_r Hno_i]
    by done.
  exists (JArr [JStr tag; JObj [("path", JStr (path_text (JNum <$> p)))];
                context_element (JNum <$> h); JArr (JStr "remove" :: cr);
                JArr (JStr "insert" :: ci); context_element (JNum <$> t)]).
  split; [done|]. split; [|split].
  - unfold jmldelta.constructOperationElement.
    rewrite tag_of_type by done. fold tag.
    rewrite setAttribute_items by done.
    rewrite Hpath, Hhead, Htail, Hremove, Hinsert.
    cbn [rbind ret fingerprint_of].
    rewrite !appendChildren_kept by (done || by intros).
    change (appendChild [JStr "context"] (JStr (formatFingerprint (JNum <$> h))))
      with (appendText [JStr "context"] (formatFingerprint (JNum <$> h)), @None exn).
    change (appendChild [JStr "context"] (JStr (formatFingerprint (JNum <$> t))))
      with (appendText [JStr "context"] (formatFingerprint (JNum <$> t)), @None exn).
    cbn [mutated rbind ret].
    change (JArr (appendText [JStr "context"] (formatFingerprint (JNum <$> h))))
      with (context_element (JNum <$> h)).
    change (JArr (appendText [JStr "context"] (formatFingerprint (JNum <$> t))))
      with (context_element (JNum <$> t)).
    rewrite !context_element_items.
    rewrite !appendChild_element by done.
    cbn [mutated rbind ret app]. done.
  - unfold jmldelta.type_of_tag, get_member. rewrite getTagName_element.
    cbn [ToString].
    rewrite bool_decide_eq_true_2.
    2:{ unfold jmldelta.TYPE_TAGS. rewrite !set_prop_keys. unfold tag.
        destruct (op_type _ op =? UPDATE_FOREST_TYPE); tauto. }
    rewrite TYPE_TAGS_lookup. unfold tag.
    destruct (Z.eqb_spec (op_type _ op) UPDATE_FOREST_TYPE) as [->|Hne]; [done|].
    by destruct Htype as [->|].
  - assert (type_of_tag
              (JArr [JStr tag; JObj [("path", JStr (path_text (JNum <$> p)))];
                     context_element (JNum <$> h); JArr (JStr "remove" :: cr);
                     JArr (JStr "insert" :: ci); context_element (JNum <$> t)])
            = JNum (op_type _ op)) as ->.
    { unfold jmldelta.type_of_tag, get_member. rewrite getTagName_element.
      cbn [ToString].
      rewrite bool_decide_eq_true_2.
      2:{ unfold jmldelta.TYPE_TAGS. rewrite !set_prop_keys. unfold tag.
          destruct (op_type _ op =? UPDATE_FOREST_TYPE); tauto. }
      rewrite TYPE_TAGS_lookup. unfold tag.
      destruct (Z.eqb_spec (op_type _ op) UPDATE_FOREST_TYPE) as [->|Hne]; [done|].
      by destruct Htype as [->|]. }
    unfold jmldelta.adaptOperation.
    rewrite getAttribute_items, getChildren_items.
    replace (lookup_prop "path" [("path", JStr (path_text (JNum <$> p)))])
      with (JStr (path_text (JNum <$> p))) by done.
    cbn [rbind ret].
    assert (((op_type _ op =? UPDATE_NODE_TYPE) || (op_type _ op =? UPDATE_FOREST_TYPE))
            = true) as ->.
    { destruct Htype as [->| ->]; rewrite Z.eqb_refl; by rewrite ?orb_true_r. }
    cbn [rbind ret].
    assert ((match path_text (JNum <$> p) with
             | EmptyString => ret []
             | String _ _ =>
                 ret (map (fun component => parseInt component 10)
                          (split "/" (path_text (JNum <$> p))))
             end : result (list jsval)) = ret (JNum <$> p)) as Hparsed.
    { pose proof (path_read_back p) as Hread.
      destruct (path_text (JNum <$> p)); by rewrite <- Hread. }
    assert ((match JStr (path_text (JNum <$> p)) with
             | JStr EmptyString => ret []
             | JStr path =>
                 ret (map (fun component => parseInt component 10)
                          (split "/" path))
             | _ => throw (TypeError "path.split is not a function")
             end : result (list jsval)) = ret (JNum <$> p)) as ->.
    { exact Hparsed. }
    cbn [rbind ret].
    assert (forall l, exists rest,
              context_element (JNum <$> l) = JArr (JStr "context" :: rest))
      as Hshape.
    { intros l. rewrite context_element_items. by eexists. }
    destruct (Hshape h) as [hrest Hh]. destruct (Hshape t) as [trest Ht].
    rewrite Hh, Ht, nextElement_found. cbv beta iota.
    rewrite <- Hh, parseContext_read_back. cbn [rbind ret].
    rewrite nextElement_found. cbv beta iota.
    rewrite kept_children_items by done. cbn [rbind ret].
    rewrite Hfr. cbn [rbind ret].
    rewrite nextElement_found. cbv beta iota.
    rewrite kept_children_items by done. cbn [rbind ret].
    rewrite Hfi. cbn [rbind ret].
    rewrite nextElement_found. cbv beta iota.
    rewrite <- Ht, parseContext_read_back. done.
Qed.

(** X15.  An operation written by constructOperationElement is read back
    by adaptOperation: same type, same path, the fingerprints as
    parseContext reads them, and as removed and inserted nodes what the
    fragment adapter imports from the content it exported, provided that
    the path is made of safe integers (below 2^53 in absolute value) and
    that content of non-empty strings, never two in a row, and of
    elements with non-empty tag names. *)
Theorem operation_wire_roundtrip (op : DetachedContextOperation Fragment)
  (p h t : list Z) (cr ci : list jsval) (fr fi : list Fragment) :
  UPDATE_NODE_TYPE <> UPDATE_FOREST_TYPE ->
  op_type _ op = UPDATE_NODE_TYPE \/ op_type _ op = UPDATE_FOREST_TYPE ->
  Forall safe_integer p -> op_path _ op = JNum <$> p ->
  op_head _ op = JArr (JNum <$> h) -> op_tail _ op = JArr (JNum <$> t) ->
  adaptFragment (op_remove _ op) (negb (op_type _ op =? UPDATE_NODE_TYPE)) = ret cr ->
  adaptFragment (op_insert _ op) (negb (op_type _ op =? UPDATE_NODE_TYPE)) = ret ci ->
  Forall kept_child cr -> adjacent_text cr = false ->
  Forall kept_child ci -> adjacent_text ci = false ->
  importFragment cr = ret fr -> importFragment ci = ret fi ->
  exists element,
    constructOperationElement op = ret element /\
    type_of_tag element = JNum (op_type _ op) /\
    adaptOperation element (type_of_tag element)
    = ret (mkOp Fragment (op_type _ op) (JNum <$> p) fr fi
                (read_back h) (read_back t)).
Proof.
  intros Hdistinct Htype _ Hpath Hhead Htail Hremove Hinsert
         Hcr Hadj_r Hci Hadj_i Hfr Hfi.
  destruct (operation_read_back op p h t cr ci fr fi) as (element & _ & Hrest);
    try done.
  by exists element.
Qed.

(** X16.  A delta document survives the wire: the document that
    populateDocument fills with operations, starting from the empty
    document of the payload handler, is read back by adaptDocument one
    operation for each operation written and in the same order, each with
    the type and the path written, the fingerprints as parseContext reads
    them and the fragments as imported from the exported content, for
    operations with a path of safe integers ([wire_ready]). *)
Theorem delta_document_roundtrip (root : option string) (doc0 : list jsval)
  (ops ops' : list (DetachedContextOperation Fragment)) :
  UPDATE_NODE_TYPE <> UPDATE_FOREST_TYPE ->
  jmlpayload.JMLPayloadHandler.createDocument root = JArr doc0 ->
  Forall2 (wire_ready UPDATE_NODE_TYPE UPDATE_FOREST_TYPE Fragment
                      adaptFragment importFragment) ops ops' ->
  exists doc,
    populateDocument UPDATE_NODE_TYPE UPDATE_FOREST_TYPE Fragment adaptFragment
                     doc0 ops = ret doc /\
    adaptDocument UPDATE_NODE_TYPE UPDATE_FOREST_TYPE Fragment importFragment
                  (JArr doc) = ret ops'.
Proof.
  intros Hdistinct [= <-] Hops.
  assert (exists elements,
            Forall (fun element =>
                      kept_child element /\ isElement element = true) elements /\
            Forall2 (fun op element => constructOperationElement op = ret element)
                    ops elements /\
            Forall2 (fun element op' =>
                       adaptOperation element (type_of_tag element) = ret op')
                    elements ops') as (elements & Hkept & Hwritten & Hread).
  { induction Hops as [|op op' ops ops' Hop Hops IH].
    - exists []. by repeat constructor.
    - destruct IH as (elements & Hkept & Hwritten & Hread).
      destruct Hop as (Htype & p & h & t & cr & ci & fr & fi & _ & Hpath & Hhead
                       & Htail & Hremove & Hinsert & Hcr & Hadj_r & Hci & Hadj_i
                       & Hfr & Hfi & ->).
      destruct (operation_read_back op p h t cr ci fr fi)
        as (element & Hel & Hconstruct & Htag & Hadapt); try done.
      exists (element :: elements).
      split; [by constructor|]. split; by constructor. }
  exists (JStr (default "html" root) :: elements). split.
  - unfold jmldelta.populateDocument.
    assert (forall doc,
              fold_left (fun acc op =>
                           let! doc := acc in
                           let! element := constructOperationElement op in
                           mutated (appendChild doc element))
                        ops (ret doc) = ret (doc ++ elements)) as Hfold.
    { clear Hread Hops.
      induction Hwritten as [|op element ops elements Hop Hwritten IH];
        intros doc.
      - by rewrite app_nil_r.
      - apply Forall_cons_1 in Hkept as [[Hel Harr] Hkept].
        cbn [fold_left rbind ret]. rewrite Hop. cbn [rbind ret].
        assert (appendChild doc element = (doc ++ [element], None)) as ->.
        { destruct element as [| | | | |s|[|[] r]|]; try done.
          by apply appendChild_element. }
        cbn [mutated]. rewrite (IH Hkept). by rewrite <- app_assoc. }
    apply (Hfold [JStr (default "html" root)]).
  - unfold jmldelta.adaptDocument.
    rewrite kept_children_each
      by (eapply Forall_impl; [exact Hkept|by intros ? [? _]]).
    rewrite rbind_ret.
    assert (forall acc,
              fold_left (fun acc n =>
                           let! operations := acc in
                           let! type :=
                             match n with
                             | JNull | JUndefined =>
                                 throw (TypeError "Cannot read property 0 of null")
                             | _ => ret (type_of_tag n)
                             end in
                           let! op := adaptOperation n type in
                           ret (operations ++ [op]))
                        elements (ret acc) = ret (acc ++ ops')) as Hfold.
    { clear Hwritten Hops.
      induction Hread as [|element op' elements ops' Hop Hread IH];
        intros acc.
      - by rewrite app_nil_r.
      - apply Forall_cons_1 in Hkept as [[Hel _] Hkept].
        cbn [fold_left]. rewrite rbind_ret.
        assert (match element with
                | JNull | JUndefined =>
                    throw (TypeError "Cannot read property 0 of null")
                | _ => ret (type_of_tag element)
                end = ret (type_of_tag element)) as ->
          by (by destruct element).
        rewrite rbind_ret, Hop, rbind_ret.
        rewrite (IH Hkept). by rewrite <- app_assoc. }
    apply (Hfold []).
Qed.


End operations.

End wire_roundtrip.

Lemma adaptOperation_reads_path_witness :
  jmldelta.op_path _
    (jmldelta.mkOp jsval 2 [JNum 0; JNum 2] [JStr "hello"] [JStr "world"]
       (JArr [JNum 31; JUndefined; JNum 160]) (JArr [JUndefined; JUndefined]))
  = JNum <$> [0; 2].
Proof.
  apply (adaptOperation_reads_path 1 2 jsval (fun l => ret l) forest_element
           (JNum 2) [0; 2]); [|reflexivity|reflexivity].
  repeat constructor.
Defined.

Lemma operation_wire_roundtrip_witness :
  exists element,
    jmldelta.constructOperationElement 1 2 jsval (fun l _ => ret l)
      (jmldelta.mkOp jsval 2 [JNum 0; JNum 2] [JStr "hello"] [JStr "world"]
         (JArr [JNum 31; JNum 0; JNum 160]) (JArr [JNum 0]))
    = ret element /\
    jmldelta.type_of_tag 1 2 element = JNum 2 /\
    jmldelta.adaptOperation 1 2 jsval (fun l => ret l) element
      (jmldelta.type_of_tag 1 2 element)
    = ret (jmldelta.mkOp jsval 2 (JNum <$> [0; 2]) [JStr "hello"] [JStr "world"]
             (read_back [31; 0; 160]) (read_back [0])).
Proof.
  apply (operation_wire_roundtrip 1 2 jsval (fun l _ => ret l) (fun l => ret l)
           (jmldelta.mkOp jsval 2 [JNum 0; JNum 2] [JStr "hello"] [JStr "world"]
              (JArr [JNum 31; JNum 0; JNum 160]) (JArr [JNum 0]))
           [0; 2] [31; 0; 160] [0] [JStr "hello"] [JStr "world"]);
    try reflexivity; try discriminate.
  - by right.
  - repeat constructor.
  - by repeat constructor.
  - by repeat constructor.
Defined.

Lemma delta_document_roundtrip_witness :
  exists doc,
    jmldelta.populateDocument 1 2 jsval (fun l _ => ret l) [JStr "patch"]
      [jmldelta.mkOp jsval 2 [JNum 0; JNum 2] [JStr "hello"] [JStr "world"]
         (JArr [JNum 31; JNum 0; JNum 160]) (JArr [JNum 0])]
    = ret doc /\
    jmldelta.adaptDocument 1 2 jsval (fun l => ret l) (JArr doc)
    = ret [jmldelta.mkOp jsval 2 (JNum <$> [0; 2]) [JStr "hello"] [JStr "world"]
             (read_back [31; 0; 160]) (read_back [0])].
Proof.
  apply (delta_document_roundtrip 1 2 jsval (fun l _ => ret l) (fun l => ret l)
           (Some "patch")); [discriminate|reflexivity|].
  constructor; [|constructor]. split; [by right|].
  exists [0; 2], [31; 0; 160], [0], [JStr "hello"], [JStr "world"],
         [JStr "hello"], [JStr "world"].
  repeat split; try reflexivity; by repeat constructor.
Defined.

(** ** JMLFragmentAdapter.adapt *)

Section JMLFragmentAdapter_adapt.
Import JS JsonML jmlpayload jmlpayload.JMLFragmentAdapter.

Lemma appendChild_kept (pre : list jsval) (c : jsval) :
  kept_child c -> (forall s, c = JStr s -> no_merge pre) ->
  appendChild pre c = (pre ++ [c], None).
Proof.
  intros Hc Hno. destruct c as [| | | | |s|[|[] r]|]; try done.
  - cbn [appendChild ToString]. f_equal. apply appendText_push; [done|].
    by eapply Hno.
  - by apply appendChild_element.
Qed.

Lemma adapt_clones (deep : bool) (nodes cs : list jsval) :
  forall pre,
    Forall2 (fun data c => clone data deep = ret c) nodes cs ->
    Forall kept_child cs -> adjacent_text cs = false ->
    (forall s cs', cs = JStr s :: cs' -> no_merge pre) ->
    fold_left (fun acc data =>
                 let! res := acc in
                 let! cloned := clone data deep in
                 match appendChild res cloned with
                 | (res, None) => ret res
                 | (_, Some e) => throw e
                 end)
              nodes (ret pre)
    = ret (pre ++ cs).
Proof.
  intros pre Hclones. revert pre.
  induction Hclones as [|data c nodes cs Hc Hclones IH]; intros pre Hcs Hadj Hno.
  - by rewrite app_nil_r.
  - apply Forall_cons_1 in Hcs as [Hkept Hcs].
    cbn [fold_left rbind ret]. rewrite Hc. cbn [rbind ret].
    rewrite appendChild_kept; [|done|by intros s ->; eapply Hno].
    rewrite IH; [by rewrite <- app_assoc|done| |].
    + destruct c as [| | | | |s|[|[] r]|]; try done; destruct cs as [|[]]; done.
    + intros s cs' ->. unfold no_merge. rewrite last_snoc. simpl.
      destruct c as [| | | | |s'|[|[] r]|]; try done.
      all: by rewrite andb_false_r.
Qed.

(** X17.  The fragment adapter exports one entry per node, the clone of
    its data, as long as these clones are elements with non-empty tag
    names and non-empty strings of which no two follow each other after
    the first entry.  Strings that do follow each other are merged: three
    text nodes come out as two entries. *)
Theorem JMLFragmentAdapter_adapt_clones (deep : bool) (nodes cs : list jsval) :
  Forall2 (fun data c => clone data deep = ret c) nodes cs ->
  Forall kept_child cs -> adjacent_text (tail cs) = false ->
  adapt nodes deep = ret cs /\
  forall a b c : string,
    a <> EmptyString -> b <> EmptyString -> c <> EmptyString ->
    adapt [JStr a; JStr b; JStr c] deep = ret [JStr a; JStr (b +:+ c)].
Proof.
  intros Hclones Hcs Hadj. split.
  - unfold adapt. destruct Hclones as [|data c nodes cs Hc Hclones]; [done|].
    apply Forall_cons_1 in Hcs as [Hkept Hcs].
    cbn [fold_left rbind ret]. rewrite Hc. cbn [rbind ret].
    rewrite appendChild_kept; [|done|by intros].
    by apply (adapt_clones deep nodes cs [c]).
  - intros a b c Ha Hb Hc. unfold adapt.
    cbn [fold_left rbind ret clone ToString appendChild].
    rewrite (appendText_push [] a) by done. cbn [app].
    rewrite (appendText_push [JStr a] b) by done. cbn [app].
    unfold appendText. apply String.eqb_neq in Hc. rewrite Hc. done.
Qed.

End JMLFragmentAdapter_adapt.

Lemma JMLFragmentAdapter_adapt_clones_witness :
  jmlpayload.JMLFragmentAdapter.adapt
    [JArr [JStr "li"; JStr "a"]; JStr "t"; JArr [JStr "li"; JStr "b"]] true
  = ret [JArr [JStr "li"; JStr "a"]; JStr "t"; JArr [JStr "li"; JStr "b"]].
Proof.
  apply (JMLFragmentAdapter_adapt_clones true
           [JArr [JStr "li"; JStr "a"]; JStr "t"; JArr [JStr "li"; JStr "b"]]
           [JArr [JStr "li"; JStr "a"]; JStr "t"; JArr [JStr "li"; JStr "b"]]).
  - repeat constructor.
  - by repeat constructor.
  - reflexivity.
Defined.

(** ** The forest update handler *)

Section forest_update.
Import tree jmlhandler.

Lemma strict_eq_spec (a b : val) : strict_eq a b = true <-> a = b.
Proof.
  destruct a, b; simpl; try (split; [discriminate|congruence]); try done.
  - rewrite Bool.eqb_true_iff. split; congruence.
  - rewrite Z.eqb_eq. split; congruence.
  - rewrite String.eqb_eq. split; congruence.
  - rewrite Nat.eqb_eq. split; congruence.
Qed.

Lemma filter_all {A} (P : A -> Prop) `{!forall x, Decision (P x)} (l : list A) :
  Forall P l -> filter P l = l.
Proof.
  induction 1 as [|x l Hx Hl IH]; [done|].
  by rewrite filter_cons_True, IH.
Qed.

Lemma remove_at_index (child : val) (items : list val) :
  NoDup items -> child ∈ items ->
  exists i,
    index_of child items = Some i /\
    take i items ++ drop (i + 1) items = filter (fun x => x <> child) items.
Proof.
  induction items as [|x items IH]; intros Hnodup Hin.
  - by apply elem_of_nil in Hin.
  - apply NoDup_cons in Hnodup as [Hx Hnodup]. cbn [index_of].
    destruct (strict_eq x child) eqn:Heq.
    + apply strict_eq_spec in Heq as ->. exists 0%nat. split; [done|].
      simpl. rewrite filter_cons_False by (by intros ?).
      symmetry. apply filter_all, Forall_forall. by intros y Hy ->.
    + assert (x <> child) as Hne.
      { intros ->. by rewrite (proj2 (strict_eq_spec child child)) in Heq. }
      apply elem_of_cons in Hin as [->|Hin]; [done|].
      destruct (IH Hnodup Hin) as (i & -> & Hcut).
      exists (S i). split; [done|]. simpl.
      by rewrite filter_cons_True, <- Hcut.
Qed.

Lemma removeChild_filter (h : heap) (l : nat) (items : list val) (child : val) :
  h !! l = Some (CArr items) -> NoDup items -> child ∈ items ->
  child <> VUndefined ->
  removeChild h (VRef l) child
  = ret (<[l := CArr (filter (fun x => x <> child) items)]> h).
Proof.
  intros Hl Hnodup Hin Hdef.
  destruct (remove_at_index child items Hnodup Hin) as (i & Hi & Hcut).
  unfold removeChild, findChild, items_of, splice. rewrite Hl. cbn [rbind ret].
  rewrite Hi. destruct child; try done; cbn [rbind ret]; by rewrite <- Hcut.
Qed.

Lemma remove_all (olds : list val) :
  forall (h : heap) (l : nat) (items : list val),
    h !! l = Some (CArr items) -> NoDup items -> NoDup olds ->
    olds ⊆ items -> VUndefined ∉ olds ->
    for_each (fun h r => removeChild h (VRef l) r) olds h
    = (<[l := CArr (filter (fun x => x ∉ olds) items)]> h, None).
Proof.
  induction olds as [|o olds IH]; intros h l items Hl Hnodup Holds Hsub Hdef.
  - simpl. rewrite filter_all by (apply Forall_forall; intros x _; apply not_elem_of_nil).
    by rewrite list_insert_id.
  - apply NoDup_cons in Holds as [Ho Holds].
    apply not_elem_of_cons in Hdef as [Hodef Hdef].
    cbn [for_each]. rewrite (removeChild_filter h l items o); [|done..| |by auto].
    2:{ apply Hsub, list_elem_of_here. }
    cbn [ret].
    rewrite (IH _ l (filter (fun x => x <> o) items)); [| |by apply NoDup_filter|done| |done].
    + rewrite list_insert_insert_eq, list_filter_filter. do 3 f_equal.
      apply list_filter_iff. intros x. rewrite not_elem_of_cons. tauto.
    + apply list_lookup_insert_eq. by eapply lookup_lt_Some.
    + intros x Hx. apply list_elem_of_filter. split.
      * intros ->. done.
      * by apply Hsub, list_elem_of_further.
Qed.

(** X18.  A hunk that only removes nodes does what it says: toggled for
    the first time, it takes every old node out of the JsonML array of
    the parent and touches nothing else, provided the items of that array
    are pairwise distinct and every old node is among them; the hunk is
    active afterwards. *)
Theorem sequence_toggle_removes (par : Tree val) (before : option (Tree val))
  (olds : list val) (s : session) (l : nat) (items : list val) :
  getCurrentJMLNode (current s) (Some par) = VRef l ->
  doc_heap s !! l = Some (CArr items) ->
  NoDup items -> NoDup olds -> olds ⊆ items -> VUndefined ∉ olds ->
  sequence_toggle (mkSequence (Some par) before olds [] false) s
  = ((mkSequence (Some par) before olds [] true,
      mkSession (<[l := CArr (filter (fun x => x ∉ olds) items)]> (doc_heap s))
                (current s)),
     None).
Proof.
  intros Hnode Hl Hnodup Holds Hsub Hdef. unfold sequence_toggle.
  cbn [s_state s_oldnodes s_newnodes s_par s_before].
  rewrite Hnode, (remove_all olds (doc_heap s) l items) by done.
  done.
Qed.

Lemma fold_thrown {A B} (f : result A -> B -> result A) (l : list B) (e : exn) :
  (forall b, f (throw e) b = throw e) -> fold_left f l (throw e) = throw e.
Proof. intros Hf. induction l as [|b l IH]; [done|]. simpl. by rewrite Hf. Qed.

Lemma old_nodes (cs : list (Tree val)) (len : nat) :
  forall (start : nat) (acc : list val),
    fold_left (fun acc i =>
                 let! oldnodes := acc in
                 match cs !! i with
                 | Some c => ret (oldnodes ++ [tdata c])
                 | None => throw (TypeError "Cannot read property data")
                 end)
              (seq start len) (ret acc)
    = if (len =? 0)%nat || (start + len <=? length cs)%nat
      then ret (acc ++ (tdata <$> take len (drop start cs)))
      else throw (TypeError "Cannot read property data").
Proof.
  induction len as [|len IH]; intros start acc.
  - simpl. by rewrite app_nil_r.
  - cbn [seq fold_left rbind ret orb Nat.eqb].
    destruct (cs !! start) as [c|] eqn:Hc.
    + rewrite IH. apply lookup_lt_Some in Hc as Hlt.
      assert (drop start cs = c :: drop (S start) cs) as ->.
      { by apply drop_S. }
      cbn [take fmap list_fmap].
      destruct len as [|len].
      * simpl. rewrite app_nil_r.
        by destruct (Nat.leb_spec (start + 1) (length cs)); [|lia].
      * cbn [Nat.eqb orb].
        replace (S start + S len)%nat with (start + S (S len))%nat by lia.
        destruct (start + S (S len) <=? length cs)%nat; [|done].
        by rewrite <- app_assoc.
    + apply lookup_ge_None in Hc.
      rewrite fold_thrown by done.
      by destruct (Nat.leb_spec (start + S len) (length cs)); [lia|].
Qed.

(** X19.  The factory cuts the old nodes out of the children of the base
    of the anchor: [length] children from the index of the anchor on, the
    child after them being the one to insert before, if there is one.
    When the children do not reach that far it throws a TypeError, and
    with nothing to remove and nothing to insert it refuses. *)
Theorem createForestUpdateOperationHandler_slice (node : Tree val)
  (target : option (Tree val)) (start len : nat) (replacement : list (Tree val)) :
  createForestUpdateOperationHandler (mkAnchor (Some node) target (Some start))
                                     len replacement
  = if (len =? 0)%nat && (length replacement =? 0)%nat
    then throw (Error "Forest update operation requires at least one node")
    else if (len =? 0)%nat || (start + len <=? length (tchildren node))%nat
    then ret (TreeSequence
                (mkSequence (Some node) (tchildren node !! (start + len)%nat)
                   (tdata <$> take len (drop start (tchildren node)))
                   (tdata <$> replacement) false))
    else throw (TypeError "Cannot read property data").
Proof.
  unfold createForestUpdateOperationHandler. cbn [base index].
  destruct ((len =? 0)%nat && (length replacement =? 0)%nat); [done|].
  rewrite old_nodes.
  by destruct ((len =? 0)%nat || (start + len <=? length (tchildren node))%nat).
Qed.

End forest_update.

Lemma sequence_toggle_removes_witness :
  jmlhandler.sequence_toggle
    (jmlhandler.mkSequence (Some (tree.TNode 0 (jmlhandler.VRef 0) [])) None
       [jmlhandler.VRef 1] [] false)
    (jmlhandler.mkSession
       [jmlhandler.CArr [jmlhandler.VStr "ul"; jmlhandler.VRef 1; jmlhandler.VRef 2];
        jmlhandler.CArr [jmlhandler.VStr "li"; jmlhandler.VStr "a"];
        jmlhandler.CArr [jmlhandler.VStr "li"; jmlhandler.VStr "c"]] ∅)
  = ((jmlhandler.mkSequence (Some (tree.TNode 0 (jmlhandler.VRef 0) [])) None
        [jmlhandler.VRef 1] [] true,
      jmlhandler.mkSession
        (<[0%nat := jmlhandler.CArr
                      (filter (fun x => x ∉ [jmlhandler.VRef 1])
                         [jmlhandler.VStr "ul"; jmlhandler.VRef 1; jmlhandler.VRef 2])]>
           [jmlhandler.CArr [jmlhandler.VStr "ul"; jmlhandler.VRef 1; jmlhandler.VRef 2];
            jmlhandler.CArr [jmlhandler.VStr "li"; jmlhandler.VStr "a"];
            jmlhandler.CArr [jmlhandler.VStr "li"; jmlhandler.VStr "c"]])
        ∅),
     None).
Proof.
  apply (sequence_toggle_removes (tree.TNode 0 (jmlhandler.VRef 0) []) None
           [jmlhandler.VRef 1]
           (jmlhandler.mkSession
              [jmlhandler.CArr [jmlhandler.VStr "ul"; jmlhandler.VRef 1; jmlhandler.VRef 2];
               jmlhandler.CArr [jmlhandler.VStr "li"; jmlhandler.VStr "a"];
               jmlhandler.CArr [jmlhandler.VStr "li"; jmlhandler.VStr "c"]] ∅)
           0%nat
           [jmlhandler.VStr "ul"; jmlhandler.VRef 1; jmlhandler.VRef 2]).
  - reflexivity.
  - reflexivity.
  - apply (bool_decide_unpack _). reflexivity.
  - apply (bool_decide_unpack _). reflexivity.
  - apply (bool_decide_unpack _). reflexivity.
  - apply (bool_decide_unpack _). reflexivity.
Defined.

(** ** djdiff: how a run ends early *)

Section djdiff_exits.
Import djdiff.
Variables Doc TreeT Delta Handler Adapter : Type.
Variable parse : list string -> list parsed.
Variable usage : string.
Variable mime_lookup : string -> string.
Variable parseString : string -> string -> result Doc.
Variable adaptDocument : string -> Doc -> result TreeT.
Variable compute_delta : TreeT -> TreeT -> result (Delta * string).

#[local] Abbreviation main :=
  (main Doc TreeT Delta Handler Adapter parse usage mime_lookup parseString
        adaptDocument compute_delta).
#[local] Abbreviation parse_options := (parse_options parse usage).

(** The handlers print the usage text once for each help switch, and
    nothing else. *)
Lemma handlers_print_usage (found : list parsed) (st : Options * World) :
  console (fold_left (handle usage) found st).2
  = console st.2 ++ replicate (help_switches found) usage.
Proof.
  revert st. induction found as [|ev found IH]; intros [options w].
  - by rewrite app_nil_r.
  - cbn [fold_left]. rewrite IH.
    destruct ev as [| | | |[|[|[|[|position]]]] value];
      cbn [handle snd help_switches replicate log console];
      rewrite <- ?app_assoc; done.
Qed.

(** X20.  After the command line is parsed, which prints the usage text
    once for each help switch and writes no file, djdiff ends with exit
    status 1 and one more line on the console when one of the two files
    is not named or does not exist, and when the two files differ in mime
    type.  With two files of one mime type that is neither JSON nor XML
    it does not exit: it prints that the type is not supported, twice,
    and then dies of a TypeError in loadFile. *)
Theorem djdiff_error_exits (argv : list string) (w : World)
  (orig changed : string) :
  (files (parse_options argv w).2 = files w /\
   console (parse_options argv w).2
   = console w ++ replicate (help_switches (parse argv)) usage) /\
  (origfile (parse_options argv w).1 = None ->
     main argv w
     = (log "Path to original file missing. Use the -h switch for help."
            (parse_options argv w).2,
        Some (Exit 1))) /\
  (origfile (parse_options argv w).1 = Some orig -> files w !! orig = None ->
     main argv w
     = (log "Path to original file missing. Use the -h switch for help."
            (parse_options argv w).2,
        Some (Exit 1))) /\
  (origfile (parse_options argv w).1 = Some orig ->
   is_Some (files w !! orig) ->
   changedfile (parse_options argv w).1 = None \/
   (changedfile (parse_options argv w).1 = Some changed /\
    files w !! changed = None) ->
     main argv w
     = (log "Path to changed file missing. Use the -h switch for help."
            (parse_options argv w).2,
        Some (Exit 1))) /\
  (origfile (parse_options argv w).1 = Some orig ->
   changedfile (parse_options argv w).1 = Some changed ->
   is_Some (files w !! orig) -> is_Some (files w !! changed) ->
   mime_lookup orig <> EmptyString -> mime_lookup changed <> mime_lookup orig ->
     main argv w
     = (log "changed file is of the wrong type" (parse_options argv w).2,
        Some (Exit 1))) /\
  (origfile (parse_options argv w).1 = Some orig ->
   changedfile (parse_options argv w).1 = Some changed ->
   is_Some (files w !! orig) -> is_Some (files w !! changed) ->
   mime_lookup changed = mime_lookup orig ->
   getPayloadType (mime_lookup orig) = None ->
     main argv w
     = (log unsupported_file (log unsupported_file (parse_options argv w).2),
        Some (Uncaught (TypeError "Cannot read property parseString")))).
Proof.
  pose proof (handlers_keep_files usage (parse argv)
                (mkOptions "xml" None None, w)) as Hfiles.
  pose proof (handlers_print_usage (parse argv)
                (mkOptions "xml" None None, w)) as Hconsole.
  fold (parse_options argv w) in Hfiles, Hconsole.
  unfold djdiff.main.
  destruct (parse_options argv w) as [[patch origfile changedfile] [fs cs]].
  cbn [fst snd djdiff.origfile djdiff.changedfile files console] in *.
  subst fs. unfold checkfile. cbn [files].
  split; [done|]. split; [|split; [|split; [|split]]].
  - intros ->. done.
  - intros -> Hmissing. rewrite Hmissing.
    by rewrite bool_decide_eq_false_2 by (by intros [? ?]).
  - intros -> Horig [->|[-> Hmissing]].
    + by rewrite bool_decide_eq_true_2.
    + rewrite bool_decide_eq_true_2 by done. cbn [files]. rewrite Hmissing.
      by rewrite bool_decide_eq_false_2 by (by intros [? ?]).
  - intros -> -> Horig Hchanged Hmime Hdiff.
    rewrite bool_decide_eq_true_2 by done. cbn [files].
    rewrite bool_decide_eq_true_2 by done.
    apply String.eqb_neq in Hmime, Hdiff. by rewrite Hmime, Hdiff.
  - intros -> -> Horig Hchanged Hsame Htype.
    rewrite bool_decide_eq_true_2 by done. cbn [files].
    rewrite bool_decide_eq_true_2 by done.
    rewrite Hsame, String.eqb_refl, andb_false_r, Htype.
    unfold loadFile. cbn [default log files].
    unfold id. destruct Horig as [data ->]. done.
Qed.

End djdiff_exits.

Lemma djdiff_error_exits_witness :
  djdiff.main unit unit unit unit unit
    (fun _ => [djdiff.on_help; djdiff.on_position 2 "a.txt";
               djdiff.on_position 3 "b.txt"])
    "Usage: djdiff [options] FILE1 FILE2"
    (fun _ => "text/plain") (fun _ _ => ret tt) (fun _ _ => ret tt)
    (fun _ _ => ret (tt, EmptyString)) []
    (djdiff.mkWorld (<["a.txt" := "a"]> (<["b.txt" := "b"]> ∅)) [])
  = (djdiff.log djdiff.unsupported_file
       (djdiff.log djdiff.unsupported_file
          (djdiff.parse_options
             (fun _ => [djdiff.on_help; djdiff.on_position 2 "a.txt";
                        djdiff.on_position 3 "b.txt"])
             "Usage: djdiff [options] FILE1 FILE2" []
             (djdiff.mkWorld (<["a.txt" := "a"]> (<["b.txt" := "b"]> ∅)) [])).2),
     Some (djdiff.Uncaught (TypeError "Cannot read property parseString"))).
Proof.
  apply (proj2 (proj2 (proj2 (proj2 (proj2
           (djdiff_error_exits unit unit unit unit unit
              (fun _ => [djdiff.on_help; djdiff.on_position 2 "a.txt";
                         djdiff.on_position 3 "b.txt"])
              "Usage: djdiff [options] FILE1 FILE2"
              (fun _ => "text/plain")
              (fun _ _ => ret tt) (fun _ _ => ret tt)
              (fun _ _ => ret (tt, EmptyString)) []
              (djdiff.mkWorld (<["a.txt" := "a"]> (<["b.txt" := "b"]> ∅)) [])
              "a.txt" "b.txt")))))).
  - reflexivity.
  - reflexivity.
  - apply (bool_decide_unpack _). reflexivity.
  - apply (bool_decide_unpack _). reflexivity.
  - reflexivity.
  - reflexivity.
Defined.
